(** * Texas audio player: the decode / convert / playback pipeline

    A shallow embedding of the C++ sources of the player
    ([AudioDecoder], [AudioPlayer]) together with the properties of the
    pipeline that its specification states.

    Conventions.
    - C++ [int], [int64_t] and [size_t] values are integers of [Z]; where the
      source relies on wrap-around ([size_t] arithmetic) the reduction
      modulo [2^64] is written out.
    - [std::queue<T>] is a [list T] whose head is [front()]; [push] appends.
    - A condition-variable wait is modelled on the state the waiting thread
      sees when it evaluates its predicate: the call either goes on
      ([Returns]) or stays parked ([Blocks]).
    - Where a property turns on how two threads interleave, the threads are
      followed statement by statement ([Race]); a [join] is modelled on the
      thread that is joined ([Player.stop_call]).
    - FFmpeg and SDL are external: their entry points are section variables,
      instantiated by small concrete models where a property is evaluated. *)

From Stdlib Require Import ZArith List Bool Lia.
Import ListNotations.
Open Scope Z_scope.

(** ** Shared vocabulary *)

(** Result of a call that may park its thread on a condition variable. *)
Inductive outcome (A : Type) : Type :=
| Returns (r : A)
| Blocks.
Arguments Returns {A} r.
Arguments Blocks {A}.

Definition INT_MAX : Z := 2147483647.
Definition AV_NOPTS_VALUE : Z := - 2 ^ 63.
Definition AV_NUM_DATA_POINTERS : Z := 8.
Definition SDL_MIX_MAXVOLUME : Z := 128.

(** [size_t] / [uint64_t] arithmetic. *)
Definition wrap64 (z : Z) : Z := z mod 2 ^ 64.

(** The fields of [AVFrame] the player reads.  [data] holds the planes of
    the frame, each a byte sequence; [frame->data[ch]] reaches the first
    [AV_NUM_DATA_POINTERS] of them. *)
Record AVFrame : Type := mkFrame {
  nb_samples : Z;
  sample_rate : Z;
  pts : Z;
  best_effort_timestamp : Z;
  data : list (list Z)
}.

Record AVPacket : Type := mkPacket {
  stream_index : Z;
  pkt_pts : Z;
  pkt_dts : Z;
  payload : Z
}.

Inductive read_result : Type :=
| ReadPacket (p : AVPacket)
| ReadEOF
| ReadError (code : Z).

Inductive recv_result : Type :=
| RecvFrame (f : AVFrame)
| RecvEAGAIN
| RecvEOF
| RecvError (code : Z).

(** ** AudioDecoder (audio_decoder.cpp) *)

Module Decoder.

Record AudioDecoderConfig : Type := mkConfig {
  maxQueueSize : Z;
  preBufferFrames : Z;
  dropFramesWhenFull : bool
}.

(** [released] is a ghost field: the frames handed to [av_frame_free]. *)
Record AudioDecoder : Type := mkDecoder {
  config : AudioDecoderConfig;
  audioStreamIndex : Z;
  isDecoding : bool;
  frameQueue : list AVFrame;
  released : list AVFrame
}.

Definition queue_size (d : AudioDecoder) : Z := Z.of_nat (length (frameQueue d)).

Definition set_isDecoding (b : bool) (d : AudioDecoder) : AudioDecoder :=
  mkDecoder (config d) (audioStreamIndex d) b (frameQueue d) (released d).

Definition set_frameQueue (q : list AVFrame) (d : AudioDecoder) : AudioDecoder :=
  mkDecoder (config d) (audioStreamIndex d) (isDecoding d) q (released d).

Definition av_frame_free (f : AVFrame) (d : AudioDecoder) : AudioDecoder :=
  mkDecoder (config d) (audioStreamIndex d) (isDecoding d) (frameQueue d)
            (released d ++ [f]).

(** [AudioDecoder::start]: the flag is raised and the decode thread
    spawned (the thread body is [decodeLoop] below). *)
Definition start (d : AudioDecoder) : AudioDecoder :=
  if isDecoding d then d else set_isDecoding true d.

(** [AudioDecoder::stop]: lowers the flag, wakes both condition variables
    and joins the decode thread.  The frame queue is not touched. *)
Definition stop (d : AudioDecoder) : AudioDecoder :=
  if isDecoding d then set_isDecoding false d else d.

(** [AudioDecoder::flush]: frees and pops every queued frame. *)
Fixpoint flush_loop (q : list AVFrame) (rel : list AVFrame) : list AVFrame :=
  match q with
  | [] => rel
  | f :: q' => flush_loop q' (rel ++ [f])
  end.

Definition flush (d : AudioDecoder) : AudioDecoder :=
  mkDecoder (config d) (audioStreamIndex d) (isDecoding d) []
            (flush_loop (frameQueue d) (released d)).

Definition setConfig (c : AudioDecoderConfig) (d : AudioDecoder) : AudioDecoder :=
  mkDecoder c (audioStreamIndex d) (isDecoding d) (frameQueue d) (released d).

(** Predicate of [queueNotFull.wait] in [pushFrame]. *)
Definition notFull_pred (d : AudioDecoder) : bool :=
  (queue_size d <? maxQueueSize (config d)) || negb (isDecoding d).

(** Predicate of [frameAvailable.wait] / [wait_for] in [getAudioFrame]. *)
Definition available_pred (d : AudioDecoder) : bool :=
  negb (queue_size d =? 0) || negb (isDecoding d).

(** [pushFrame] after the capacity test (and the wait, if any). *)
Definition pushFrame_tail (frame : AVFrame) (d : AudioDecoder)
  : bool * AudioDecoder :=
  if negb (isDecoding d) then (false, av_frame_free frame d)
  else (true, set_frameQueue (frameQueue d ++ [frame]) d).

(** [AudioDecoder::pushFrame].  A thread parked in [queueNotFull.wait]
    goes on with [pushFrame_tail] in the state in which it sees
    [notFull_pred] hold. *)
Definition pushFrame (frame : AVFrame) (d : AudioDecoder)
  : outcome (bool * AudioDecoder) :=
  if maxQueueSize (config d) <=? queue_size d then
    if dropFramesWhenFull (config d) then
      Returns (false, av_frame_free frame d)
    else if notFull_pred d then Returns (pushFrame_tail frame d)
    else Blocks
  else Returns (pushFrame_tail frame d).

(** [getAudioFrame] after the wait, [success] being the value the wait left. *)
Definition getAudioFrame_tail (success : bool) (d : AudioDecoder)
  : option AVFrame * AudioDecoder :=
  if negb success || (queue_size d =? 0) then (None, d)
  else
    match frameQueue d with
    | f :: q' => (Some f, set_frameQueue q' d)
    | [] => (None, d)
    end.

(** [AudioDecoder::getAudioFrame], on the state [d] the thread sees when
    its wait is over: for [timeout_ms < 0] that is the state in which the
    predicate holds (otherwise the thread stays parked); for
    [timeout_ms >= 0] it is the state in which the predicate holds or the
    state at expiry, and [wait_for] returns the predicate's value there.
    [None] is the C++ [false]; [Some f] is [true] with [*frame = f]. *)
Definition getAudioFrame (timeout_ms : Z) (d : AudioDecoder)
  : outcome (option AVFrame * AudioDecoder) :=
  if timeout_ms <? 0 then
    if available_pred d then
      Returns (getAudioFrame_tail (negb (queue_size d =? 0)) d)
    else Blocks
  else
    Returns (getAudioFrame_tail (available_pred d) d).

Definition getQueueSize (d : AudioDecoder) : Z := queue_size d.

(** *** The decode thread *)

Section DecodeLoop.

(** libavformat / libavcodec, as the loop uses them. *)
Variables FormatCtx CodecCtx : Type.
Variable av_read_frame : FormatCtx -> read_result * FormatCtx.
Variable avcodec_send_packet : CodecCtx -> option AVPacket -> Z * CodecCtx.
Variable avcodec_receive_frame : CodecCtx -> recv_result * CodecCtx.
Variable av_rescale_q : Z -> Z.
Variable av_frame_clone : AVFrame -> option AVFrame.

Definition rescale_ts (t : Z) : Z :=
  if t =? AV_NOPTS_VALUE then t else av_rescale_q t.

Definition fix_pts (f : AVFrame) : AVFrame :=
  if pts f =? AV_NOPTS_VALUE
  then mkFrame (nb_samples f) (sample_rate f) (best_effort_timestamp f)
               (best_effort_timestamp f) (data f)
  else f.

(** The inner [while (true)] of [decodeLoop]: every frame received is
    cloned and appended to [frameQueue] directly. *)
Fixpoint receive_loop (fuel : nat) (cc : CodecCtx) (d : AudioDecoder)
  : option (CodecCtx * AudioDecoder) :=
  match fuel with
  | O => None
  | S k =>
      match avcodec_receive_frame cc with
      | (RecvFrame f, cc') =>
          match av_frame_clone (fix_pts f) with
          | Some clone =>
              receive_loop k cc' (set_frameQueue (frameQueue d ++ [clone]) d)
          | None => receive_loop k cc' d
          end
      | (_, cc') => Some (cc', d)
      end
  end.

(** [AudioDecoder::decodeLoop]. *)
Fixpoint decodeLoop (fuel : nat) (fc : FormatCtx) (cc : CodecCtx)
         (d : AudioDecoder) : option (FormatCtx * CodecCtx * AudioDecoder) :=
  match fuel with
  | O => None
  | S k =>
      if negb (isDecoding d) then Some (fc, cc, d)
      else
        match av_read_frame fc with
        | (ReadEOF, fc') =>
            let (_, cc') := avcodec_send_packet cc None in
            Some (fc', cc', d)
        | (ReadError _, fc') => Some (fc', cc, d)
        | (ReadPacket p, fc') =>
            if stream_index p =? audioStreamIndex d then
              let p' := mkPacket (stream_index p) (rescale_ts (pkt_pts p))
                                 (rescale_ts (pkt_dts p)) (payload p) in
              match avcodec_send_packet cc (Some p') with
              | (0, cc') =>
                  match receive_loop k cc' d with
                  | Some (cc'', d') => decodeLoop k fc' cc'' d'
                  | None => None
                  end
              | (_, cc') => decodeLoop k fc' cc' d
              end
            else decodeLoop k fc' cc d
        end
  end.

End DecodeLoop.

End Decoder.

(** ** AudioDecoder: a waiting pop beside a running [stop]

    [frameAvailable.wait(lock, pred)] is [while (!pred()) wait(lock);]: the
    predicate is evaluated with [frameQueueMutex] held, and [wait(lock)]
    releases the mutex and parks the thread until the condition variable is
    notified, after which the predicate is evaluated again.
    [AudioDecoder::stop] takes no mutex, so each of its statements may fall
    between two steps of a thread in [getAudioFrame].  The two threads are
    followed statement by statement; the decode thread has ended (it leaves
    its loop at the end of the file without lowering [isDecoding]), and no
    other thread pushes a frame. *)

Module Race.

Import Decoder.

(** A thread in [getAudioFrame(frame, timeout_ms)] with [timeout_ms < 0]:
    about to evaluate the predicate, about to call [wait(lock)] after the
    predicate was false, parked in [wait(lock)], or returned ([None] is
    [false]). *)
Inductive popper : Type :=
| AtPredicate
| BeforeWait
| InWait
| Popped (r : option AVFrame).

(** A thread in [AudioDecoder::stop], by the statement it is about to
    execute. *)
Inductive stopper : Type :=
| AtFlag
| AtNotifyAvailable
| AtNotifyNotFull
| AtJoin
| StopReturned.

Record threads : Type := mkThreads {
  dec : AudioDecoder;
  pop : popper;
  stp : stopper
}.

Definition step_popper (c : threads) : threads :=
  match pop c with
  | AtPredicate =>
      if available_pred (dec c) then
        let (r, d') :=
          getAudioFrame_tail (negb (queue_size (dec c) =? 0)) (dec c) in
        mkThreads d' (Popped r) (stp c)
      else mkThreads (dec c) BeforeWait (stp c)
  | BeforeWait => mkThreads (dec c) InWait (stp c)
  | InWait => c
  | Popped _ => c
  end.

(** [frameAvailable.notify_all()]: the threads parked on the condition
    variable at that moment go back to their predicate. *)
Definition notify_all (p : popper) : popper :=
  match p with
  | InWait => AtPredicate
  | _ => p
  end.

Definition step_stopper (c : threads) : threads :=
  match stp c with
  | AtFlag =>
      if isDecoding (dec c)
      then mkThreads (set_isDecoding false (dec c)) (pop c) AtNotifyAvailable
      else mkThreads (dec c) (pop c) StopReturned
  | AtNotifyAvailable => mkThreads (dec c) (notify_all (pop c)) AtNotifyNotFull
  | AtNotifyNotFull => mkThreads (dec c) (pop c) AtJoin
  | AtJoin => mkThreads (dec c) (pop c) StopReturned
  | StopReturned => c
  end.

Inductive thread : Type := ThePopper | TheStopper.

Definition step (c : threads) (t : thread) : threads :=
  match t with
  | ThePopper => step_popper c
  | TheStopper => step_stopper c
  end.

(** The threads run in the order [schedule] gives. *)
Definition run (schedule : list thread) (c : threads) : threads :=
  fold_left step schedule c.

End Race.

(** ** IEEE-754 binary32 arithmetic, as far as the fade computation uses it

    A non-negative [float] value is kept as an exact fraction [(n, d)] with
    [0 <= n] and [0 < d]; [f32_round] rounds a fraction to the nearest value
    with a 24-bit significand, ties to even.  The operands met here (byte
    values, buffer lengths and their quotients) stay within the normal
    range, so neither subnormals nor overflow are represented. *)

Module Float32.

Definition float : Type := (Z * Z)%type.

(** Nearest integer to [n / d], ties to even. *)
Definition round_half_even (n d : Z) : Z :=
  let q := n / d in
  let r := n mod d in
  if 2 * r <? d then q
  else if d <? 2 * r then q + 1
  else if Z.even q then q else q + 1.

(** [floor (log2 (n / d))] for [0 < n] and [0 < d]. *)
Definition ilog2_frac (n d : Z) : Z :=
  let k := Z.log2 n - Z.log2 d in
  if d * 2 ^ (Z.max 0 k) <=? n * 2 ^ (Z.max 0 (- k)) then k else k - 1.

Definition f32_round (x : float) : float :=
  let (n, d) := x in
  if n <=? 0 then (0, 1)
  else
    let e := ilog2_frac n d - 23 in
    let m := round_half_even (n * 2 ^ (Z.max 0 (- e))) (d * 2 ^ (Z.max 0 e)) in
    (m * 2 ^ (Z.max 0 e), 2 ^ (Z.max 0 (- e))).

(** [static_cast<float>(i)] for an integer [0 <= i]. *)
Definition of_int (i : Z) : float := f32_round (i, 1).

Definition fdiv (x y : float) : float :=
  f32_round (fst x * snd y, snd x * fst y).

Definition fmul (x y : float) : float :=
  f32_round (fst x * fst y, snd x * snd y).

(** Conversion to an integer type: truncation. *)
Definition trunc (x : float) : Z := fst x / snd x.

End Float32.

(** ** AudioPlayer (audio_player.cpp, resampling revision) *)

Module Player.

Import Decoder.

Inductive State : Type := STOPPED | PLAYING | PAUSED.

Definition State_eqb (a b : State) : bool :=
  match a, b with
  | STOPPED, STOPPED | PLAYING, PLAYING | PAUSED, PAUSED => true
  | _, _ => false
  end.

Definition MAX_QUEUE_SIZE : Z := 50.
Definition LOW_WATER_MARK : Z := 10.

(** *** The buffered-size counter

    [bufferedSize] is a [std::atomic<size_t>].  Before each
    [compare_exchange_weak] of the retry loop the environment may have
    moved the counter ([other_delta], the update of another thread) and the
    exchange itself may fail spuriously. *)

Record env_step : Type := mkEnv {
  other_delta : Z;
  spurious : bool
}.

Definition quiet : env_step := mkEnv 0 false.

(** [cell.compare_exchange_weak(expected, desired)]: the returned triple is
    the success flag, the new value of [expected] and the new cell. *)
Definition compare_exchange_weak (spur : bool) (cell expected desired : Z)
  : bool * Z * Z :=
  if (cell =? expected) && negb spur then (true, expected, desired)
  else (false, cell, cell).

(** The [while (!compare_exchange_weak(current, current + delta));] loop;
    the schedule is quiet once [sched] is used up. *)
Fixpoint cas_loop (fuel : nat) (sched : list env_step) (cell current delta : Z)
  : option Z :=
  match fuel with
  | O => None
  | S k =>
      let e := hd quiet sched in
      let cell1 := wrap64 (cell + other_delta e) in
      match compare_exchange_weak (spurious e) cell1 current
                                  (wrap64 (current + wrap64 delta)) with
      | (true, _, cell2) => Some cell2
      | (false, current', cell2) => cas_loop k (tl sched) cell2 current' delta
      end
  end.

(** [AudioPlayer::updateBufferSize] under a schedule: [current] is loaded,
    then the loop runs. *)
Definition updateBufferSize_under (fuel : nat) (sched : list env_step)
           (delta cell : Z) : option Z :=
  cas_loop fuel sched cell cell delta.

(** What a single [fetch_add(delta)] would leave, had it been executed at
    the moment the [n]-th exchange of the loop is attempted. *)
Definition fetch_add_after (n : nat) (sched : list env_step) (delta cell : Z) : Z :=
  wrap64 (fold_left (fun c e => wrap64 (c + other_delta e)) (firstn n sched) cell
          + delta).

(** [updateBufferSize] where the queue mutex is held (both call sites):
    nothing interferes. *)
Definition updateBufferSize (delta cell : Z) : Z :=
  match updateBufferSize_under 1 [] delta cell with
  | Some c => c
  | None => cell
  end.

(** *** The underrun fade of [fillAudioBuffer]

    [stream[i] = static_cast<Uint8>(data[i] * (static_cast<float>(i) / copyLen))]. *)
Definition fade_byte (b i copyLen : Z) : Z :=
  Float32.trunc
    (Float32.fmul (Float32.of_int b)
                  (Float32.fdiv (Float32.of_int i) (Float32.of_int copyLen))).

Fixpoint fade_from (i copyLen : Z) (l : list Z) : list Z :=
  match l with
  | [] => []
  | b :: l' => fade_byte b i copyLen :: fade_from (i + 1) copyLen l'
  end.

Definition fade_segment (data : list Z) (copyLen : Z) : list Z :=
  fade_from 0 copyLen (firstn (Z.to_nat copyLen) data).

(** Where the conversion thread ([decodingThread], which runs
    [decodingLoop]) stands when [stop] joins it: not joinable (never
    started, or joined already), somewhere in its loop outside the wait of
    [processDecodedFrame], or parked in that wait on [dataCondition]. *)
Inductive conversion_thread : Type :=
| NotJoinable
| InDecodingLoop
| OnDataCondition.

Section Controller.

(** Playback positions are C++ [double]s; the controller only stores
    them, so their type is left open.  [zero_seconds] is [0.0]. *)
Variable Seconds : Type.
Variable zero_seconds : Seconds.

(** The demuxer's answer to a reposition request. *)
Variable av_seek_ok : Seconds -> bool.

(** [SDL_MixAudioFormat(dst, src, AUDIO_S16SYS, len, volume)] as a
    function of the destination bytes, the source bytes and the volume,
    returning the new destination bytes. *)
Variable SDL_MixAudioFormat : list Z -> list Z -> Z -> list Z.

(** [devicePaused] is the argument of the last [SDL_PauseAudioDevice];
    [swrContext] tells whether a resampler is allocated. *)
Record AudioPlayer : Type := mkPlayer {
  decoder : option AudioDecoder;
  playerState : State;
  audioQueue : list (list Z);
  isPlaying : bool;
  isPaused : bool;
  volume : Z;
  currentPosition : Seconds;
  isDecodingThreadRunning : bool;
  devicePaused : bool;
  swrContext : bool;
  underrun : bool;
  bufferedSize : Z
}.

(** The constructor (SDL initialised). *)
Definition new_player : AudioPlayer :=
  mkPlayer (Some (mkDecoder (mkConfig 50 10 false) (-1) false [] []))
           STOPPED [] false false SDL_MIX_MAXVOLUME zero_seconds false
           true false false 0.

Definition set_decoder (d : option AudioDecoder) (s : AudioPlayer) :=
  mkPlayer d (playerState s) (audioQueue s) (isPlaying s) (isPaused s)
           (volume s) (currentPosition s) (isDecodingThreadRunning s)
           (devicePaused s) (swrContext s) (underrun s) (bufferedSize s).

Definition set_audioQueue (q : list (list Z)) (s : AudioPlayer) :=
  mkPlayer (decoder s) (playerState s) q (isPlaying s) (isPaused s)
           (volume s) (currentPosition s) (isDecodingThreadRunning s)
           (devicePaused s) (swrContext s) (underrun s) (bufferedSize s).

Definition set_currentPosition (t : Seconds) (s : AudioPlayer) :=
  mkPlayer (decoder s) (playerState s) (audioQueue s) (isPlaying s)
           (isPaused s) (volume s) t (isDecodingThreadRunning s)
           (devicePaused s) (swrContext s) (underrun s) (bufferedSize s).

Definition SDL_PauseAudioDevice (pause_on : bool) (s : AudioPlayer) :=
  mkPlayer (decoder s) (playerState s) (audioQueue s) (isPlaying s)
           (isPaused s) (volume s) (currentPosition s)
           (isDecodingThreadRunning s) pause_on (swrContext s) (underrun s)
           (bufferedSize s).

Definition set_underrun (b : bool) (s : AudioPlayer) :=
  mkPlayer (decoder s) (playerState s) (audioQueue s) (isPlaying s)
           (isPaused s) (volume s) (currentPosition s)
           (isDecodingThreadRunning s) (devicePaused s) (swrContext s) b
           (bufferedSize s).

Definition set_bufferedSize (b : Z) (s : AudioPlayer) :=
  mkPlayer (decoder s) (playerState s) (audioQueue s) (isPlaying s)
           (isPaused s) (volume s) (currentPosition s)
           (isDecodingThreadRunning s) (devicePaused s) (swrContext s)
           (underrun s) b.

Definition getState (s : AudioPlayer) : State := playerState s.
Definition getCurrentPosition (s : AudioPlayer) : Seconds := currentPosition s.
Definition getVolume (s : AudioPlayer) : Z := volume s.

Definition frame_queue (s : AudioPlayer) : list AVFrame :=
  match decoder s with
  | Some d => frameQueue d
  | None => []
  end.

(** [AudioPlayer::resume]. *)
Definition resume (s : AudioPlayer) : AudioPlayer :=
  match playerState s with
  | PAUSED =>
      mkPlayer (decoder s) PLAYING (audioQueue s) (isPlaying s) false
               (volume s) (currentPosition s) (isDecodingThreadRunning s)
               false (swrContext s) (underrun s) (bufferedSize s)
  | _ => s
  end.

(** [AudioPlayer::play]. *)
Definition play (s : AudioPlayer) : AudioPlayer :=
  match playerState s with
  | STOPPED =>
      match decoder s with
      | None => s
      | Some d =>
          mkPlayer (Some (Decoder.start d)) PLAYING (audioQueue s) true
                   (isPaused s) (volume s) (currentPosition s) true false
                   (swrContext s) (underrun s) (bufferedSize s)
      end
  | PAUSED => resume s
  | PLAYING => s
  end.

(** [AudioPlayer::pause]. *)
Definition pause (s : AudioPlayer) : AudioPlayer :=
  match playerState s with
  | PLAYING =>
      mkPlayer (decoder s) PAUSED (audioQueue s) (isPlaying s) true
               (volume s) (currentPosition s) (isDecodingThreadRunning s)
               true (swrContext s) (underrun s) (bufferedSize s)
  | _ => s
  end.

(** [AudioPlayer::stop]: the state a call that returns leaves, when no
    other thread moves meanwhile.  Whether the call returns is decided by
    the join of the conversion thread: see [stop_call] below. *)
Definition stop (s : AudioPlayer) : AudioPlayer :=
  match playerState s with
  | STOPPED => s
  | _ =>
      mkPlayer (option_map Decoder.stop (decoder s)) STOPPED [] false false
               (volume s) zero_seconds false true false (underrun s)
               (bufferedSize s)
  end.

(** The successful path of [AudioPlayer::loadFile]: [stop], then the
    decoder opens the file (audio stream number [stream]), the device is
    opened (SDL opens it paused) and the resampler is allocated. *)
Definition loadFile_opened (stream : Z) (s : AudioPlayer) : AudioPlayer :=
  let s1 := stop s in
  mkPlayer (option_map (fun d => mkDecoder (config d) stream (isDecoding d)
                                           (frameQueue d) (released d))
                       (decoder s1))
           (playerState s1) (audioQueue s1) (isPlaying s1) (isPaused s1)
           (volume s1) (currentPosition s1) (isDecodingThreadRunning s1)
           true true (underrun s1) (bufferedSize s1).

(** Modelled from the spec: [AudioDecoder::seek] is declared in
    audio_decoder.h and called by [AudioPlayer::seek], but no source file
    defines it.  Following the specification (the adapter repositions the
    stream and flushes, so that no stale frame is emitted, and reports
    whether repositioning succeeded; the queues are flushed whether or not
    it did), it empties the frame queue with [flush] and returns the
    demuxer's answer. *)
Definition AudioDecoder_seek (seconds : Seconds) (d : AudioDecoder)
  : bool * AudioDecoder :=
  (av_seek_ok seconds, Decoder.flush d).

(** [AudioPlayer::seek]. *)
Definition seek (seconds : Seconds) (s : AudioPlayer) : AudioPlayer :=
  match decoder s with
  | None => s
  | Some d =>
      let s1 := SDL_PauseAudioDevice true s in
      let s2 := set_audioQueue [] s1 in
      let (ok, d') := AudioDecoder_seek seconds d in
      let s3 := set_decoder (Some d') s2 in
      let s4 := if ok then set_currentPosition seconds s3 else s3 in
      match playerState s4 with
      | PLAYING => SDL_PauseAudioDevice false s4
      | _ => s4
      end
  end.

(** [std::clamp(vol, 0, SDL_MIX_MAXVOLUME)]. *)
Definition clamp (v lo hi : Z) : Z :=
  if v <? lo then lo else if hi <? v then hi else v.

(** [AudioPlayer::setVolume]. *)
Definition setVolume (vol : Z) (s : AudioPlayer) : AudioPlayer :=
  mkPlayer (decoder s) (playerState s) (audioQueue s) (isPlaying s)
           (isPaused s) (clamp vol 0 SDL_MIX_MAXVOLUME) (currentPosition s)
           (isDecodingThreadRunning s) (devicePaused s) (swrContext s)
           (underrun s) (bufferedSize s).

Definition chunk_size (data : list Z) : Z := Z.of_nat (length data).

(** The [while (len > 0 && !audioQueue.empty())] loop of
    [fillAudioBuffer].  [written] is what has been stored below the moving
    [stream] pointer; the bytes at and above it are still the zeros of the
    initial [SDL_memset].  When the front chunk is only partly consumed,
    [copyLen < data.size()] forces [copyLen = len], hence [len] drops to 0
    and the loop test fails: that branch ends the loop. *)
Fixpoint fill_loop (under : bool) (vol : Z) (q : list (list Z))
         (len totalCopied buffered : Z) (written : list Z)
  : list (list Z) * Z * Z * list Z :=
  match q with
  | [] => (q, len, buffered, written)
  | data :: rest =>
      if len <=? 0 then (q, len, buffered, written)
      else
        let copyLen := Z.min len (chunk_size data) in
        let seg :=
          if under && (totalCopied =? 0) then fade_segment data copyLen
          else SDL_MixAudioFormat (repeat 0 (Z.to_nat copyLen))
                                  (firstn (Z.to_nat copyLen) data) vol in
        if copyLen <? chunk_size data then
          (skipn (Z.to_nat copyLen) data :: rest, len - copyLen,
           updateBufferSize (- copyLen) buffered, written ++ seg)
        else
          fill_loop under vol rest (len - copyLen) (totalCopied + copyLen)
                    (updateBufferSize (- chunk_size data) buffered)
                    (written ++ seg)
  end.

(** [AudioPlayer::fillAudioBuffer]: the new player state and the
    contents of the [len] bytes of [stream] on return. *)
Definition fillAudioBuffer (len : Z) (s : AudioPlayer)
  : AudioPlayer * list Z :=
  match audioQueue s with
  | [] => (set_underrun true s, repeat 0 (Z.to_nat len))
  | _ :: _ =>
      let '(q', len', buffered', written) :=
        fill_loop (underrun s) (volume s) (audioQueue s) len 0
                  (bufferedSize s) [] in
      (set_underrun false (set_bufferedSize buffered' (set_audioQueue q' s)),
       written ++ repeat 0 (Z.to_nat len'))
  end.

Definition playback_size (s : AudioPlayer) : Z :=
  Z.of_nat (length (audioQueue s)).

(** The enqueue that ends [processDecodedFrame]; [data] is the chunk the
    resampler produced ([actualBufferSize] bytes).  A producer parked on
    [dataCondition] goes on with [enqueue_resumed] in the state in which
    it sees its predicate hold. *)
Definition enqueue_pred (s : AudioPlayer) : bool :=
  (playback_size s <? MAX_QUEUE_SIZE) || negb (isDecodingThreadRunning s).

Definition enqueue_push (data : list Z) (s : AudioPlayer) : AudioPlayer :=
  set_bufferedSize (updateBufferSize (chunk_size data) (bufferedSize s))
                   (set_audioQueue (audioQueue s ++ [data]) s).

Definition enqueue_resumed (data : list Z) (s : AudioPlayer) : AudioPlayer :=
  if negb (isDecodingThreadRunning s) then s else enqueue_push data s.

Definition processDecodedFrame_enqueue (data : list Z) (s : AudioPlayer)
  : outcome AudioPlayer :=
  if MAX_QUEUE_SIZE <=? playback_size s then
    if enqueue_pred s then Returns (enqueue_resumed data s) else Blocks
  else Returns (enqueue_push data s).

(** [AudioPlayer::pushAudioData]; [data] are the [size] bytes at [data]. *)
Definition pushAudioData_pred (s : AudioPlayer) : bool :=
  (playback_size s <? MAX_QUEUE_SIZE) || negb (isPlaying s).

Definition pushAudioData_resumed (data : list Z) (s : AudioPlayer)
  : bool * AudioPlayer :=
  if negb (isPlaying s) then (false, s)
  else (true, set_audioQueue (audioQueue s ++ [data]) s).

Definition pushAudioData (data : list Z) (s : AudioPlayer)
  : outcome (bool * AudioPlayer) :=
  if negb (isPlaying s) || (chunk_size data <=? 0) then Returns (false, s)
  else if MAX_QUEUE_SIZE <=? playback_size s then
    if pushAudioData_pred s then Returns (pushAudioData_resumed data s)
    else Blocks
  else Returns (true, set_audioQueue (audioQueue s ++ [data]) s).

(** *** [stop] and the join of the conversion thread *)

Definition set_isDecodingThreadRunning (b : bool) (s : AudioPlayer) :=
  mkPlayer (decoder s) (playerState s) (audioQueue s) (isPlaying s)
           (isPaused s) (volume s) (currentPosition s) b (devicePaused s)
           (swrContext s) (underrun s) (bufferedSize s).

(** Whether the callback that took the player from [s] to [s'] reached its
    [dataCondition.notify_one()]: on an empty queue it returns before that
    line, otherwise it notifies when fewer than [LOW_WATER_MARK] chunks are
    left. *)
Definition fill_notifies (s s' : AudioPlayer) : bool :=
  negb (playback_size s =? 0) && (playback_size s' <? LOW_WATER_MARK).

(** The join of a conversion thread that is parked on [dataCondition].
    The one [notify] on that condition variable is the callback's, so the
    thread stays parked until a callback notifies; [callbacks] are the
    lengths the device asks for, in order, while [stop] waits.  The woken
    thread sees [isDecodingThreadRunning] down, returns from
    [processDecodedFrame] without pushing and leaves [decodingLoop].  A
    spurious wake-up, which a wait may have but need not, is not counted
    on. *)
Fixpoint join_parked (callbacks : list Z) (s : AudioPlayer)
  : outcome AudioPlayer :=
  match callbacks with
  | [] => Blocks
  | len :: rest =>
      let s' := fst (fillAudioBuffer len s) in
      if fill_notifies s s' then Returns s' else join_parked rest s'
  end.

(** [if (decodingThread.joinable()) decodingThread.join();] with
    [isDecodingThreadRunning] already lowered.  A thread inside its loop
    ends its round ([getAudioFrame] has a timeout, and the predicate of
    the wait in [processDecodedFrame] holds now) and leaves at the loop
    test; what that round does to the player is a step of the thread like
    any other, taken before the call.  A paused device issues no
    callback. *)
Definition join (th : conversion_thread) (callbacks : list Z) (s : AudioPlayer)
  : outcome AudioPlayer :=
  match th with
  | NotJoinable => Returns s
  | InDecodingLoop => Returns s
  | OnDataCondition =>
      if devicePaused s then Blocks else join_parked callbacks s
  end.

(** [AudioPlayer::stop] as a call: [Blocks] when the join does not end. *)
Definition stop_call (th : conversion_thread) (callbacks : list Z)
           (s : AudioPlayer) : outcome AudioPlayer :=
  match playerState s with
  | STOPPED => Returns s
  | _ =>
      match join th callbacks (set_isDecodingThreadRunning false s) with
      | Blocks => Blocks
      | Returns s1 =>
          Returns (mkPlayer (option_map Decoder.stop (decoder s1)) STOPPED []
                            false false (volume s1) zero_seconds false true
                            false (underrun s1) (bufferedSize s1))
      end
  end.

End Controller.

Arguments mkPlayer {Seconds}.
Arguments decoder {Seconds} _.
Arguments playerState {Seconds} _.
Arguments audioQueue {Seconds} _.
Arguments isPlaying {Seconds} _.
Arguments isPaused {Seconds} _.
Arguments volume {Seconds} _.
Arguments currentPosition {Seconds} _.
Arguments isDecodingThreadRunning {Seconds} _.
Arguments devicePaused {Seconds} _.
Arguments swrContext {Seconds} _.
Arguments underrun {Seconds} _.
Arguments bufferedSize {Seconds} _.
Arguments new_player {Seconds} zero_seconds.
Arguments set_decoder {Seconds} d s.
Arguments set_audioQueue {Seconds} q s.
Arguments set_currentPosition {Seconds} t s.
Arguments SDL_PauseAudioDevice {Seconds} pause_on s.
Arguments set_underrun {Seconds} b s.
Arguments set_bufferedSize {Seconds} b s.
Arguments getState {Seconds} s.
Arguments getCurrentPosition {Seconds} s.
Arguments getVolume {Seconds} s.
Arguments frame_queue {Seconds} s.
Arguments resume {Seconds} s.
Arguments play {Seconds} s.
Arguments pause {Seconds} s.
Arguments stop {Seconds} zero_seconds s.
Arguments loadFile_opened {Seconds} zero_seconds stream s.
Arguments AudioDecoder_seek {Seconds} av_seek_ok seconds d.
Arguments seek {Seconds} av_seek_ok seconds s.
Arguments setVolume {Seconds} vol s.
Arguments fillAudioBuffer {Seconds} SDL_MixAudioFormat len s.
Arguments playback_size {Seconds} s.
Arguments enqueue_pred {Seconds} s.
Arguments enqueue_push {Seconds} data s.
Arguments enqueue_resumed {Seconds} data s.
Arguments processDecodedFrame_enqueue {Seconds} data s.
Arguments pushAudioData_pred {Seconds} s.
Arguments pushAudioData_resumed {Seconds} data s.
Arguments pushAudioData {Seconds} data s.
Arguments set_isDecodingThreadRunning {Seconds} b s.
Arguments fill_notifies {Seconds} s s'.
Arguments join_parked {Seconds} SDL_MixAudioFormat callbacks s.
Arguments join {Seconds} SDL_MixAudioFormat th callbacks s.
Arguments stop_call {Seconds} zero_seconds SDL_MixAudioFormat th callbacks s.

End Player.

(** ** AudioPlayer::processDecodedFrame (audio_player.cpp, first revision)

    The revision without a resampler repacks the decoded frame itself.
    [processDecodedFrame_buffer] is the PCM buffer the function has built
    when it goes on to update the position and to call [pushAudioData].
    [None] stands for a run that leaves defined behaviour: an [int]
    overflow, or a [memcpy] that reads past a plane, past the
    [AV_NUM_DATA_POINTERS] entries of [frame->data], or writes past the
    buffer. *)

Module PlayerV1.

(** Source side of [memcpy(_, src + off, n)]. *)
Definition read_bytes (src : list Z) (off n : nat) : option (list Z) :=
  if (off + n <=? length src)%nat then Some (firstn n (skipn off src)) else None.

(** Destination side of [memcpy(buf + dst, _, n)]. *)
Definition write_bytes (buf : list Z) (dst : nat) (bytes : list Z)
  : option (list Z) :=
  if (dst + length bytes <=? length buf)%nat
  then Some (firstn dst buf ++ bytes ++ skipn (dst + length bytes) buf)
  else None.

Definition memcpy (buf : list Z) (dst : nat) (src : list Z) (off n : nat)
  : option (list Z) :=
  match read_bytes src off n with
  | Some bytes => write_bytes buf dst bytes
  | None => None
  end.

(** [frame->data[channel]]. *)
Definition plane (frame : AVFrame) (channel : nat) : option (list Z) :=
  if (Z.of_nat channel <? AV_NUM_DATA_POINTERS)
  then nth_error (data frame) channel
  else None.

(** Body of the inner [for (channel ...)]: one [memcpy], then
    [dst += bytesPerSample]. *)
Definition copy_sample (frame : AVFrame) (bytesPerSample sample : nat)
           (st : option (list Z * nat)) (channel : nat)
  : option (list Z * nat) :=
  match st with
  | None => None
  | Some (buf, dst) =>
      match plane frame channel with
      | None => None
      | Some src =>
          match memcpy buf dst src (sample * bytesPerSample) bytesPerSample with
          | Some buf' => Some (buf', (dst + bytesPerSample)%nat)
          | None => None
          end
      end
  end.

(** Body of the outer [for (sample ...)]. *)
Definition copy_frame_row (frame : AVFrame) (bytesPerSample channels : nat)
           (st : option (list Z * nat)) (sample : nat)
  : option (list Z * nat) :=
  fold_left (copy_sample frame bytesPerSample sample) (seq 0 channels) st.

Definition processDecodedFrame_buffer (planar : bool)
           (bytesPerSample channels : Z) (frame : AVFrame) : option (list Z) :=
  let sampleBytes := nb_samples frame * bytesPerSample in
  let totalBytes := sampleBytes * channels in
  if (INT_MAX <? Z.abs sampleBytes) || (totalBytes <? 0)
     || (INT_MAX <? totalBytes)
  then None
  else
    let buffer := repeat 0 (Z.to_nat totalBytes) in
    if planar then
      match fold_left (copy_frame_row frame (Z.to_nat bytesPerSample)
                                      (Z.to_nat channels))
                      (seq 0 (Z.to_nat (nb_samples frame)))
                      (Some (buffer, O)) with
      | Some (buf, _) => Some buf
      | None => None
      end
    else
      match plane frame 0 with
      | Some src => memcpy buffer 0 src 0 (Z.to_nat totalBytes)
      | None => None
      end.

End PlayerV1.

(** ** Concrete stand-ins for the external libraries *)

Module Models.

(** A demuxer over a finite list of packets. *)
Definition list_read_frame (fc : list AVPacket) : read_result * list AVPacket :=
  match fc with
  | [] => (ReadEOF, [])
  | p :: fc' => (ReadPacket p, fc')
  end.

(** A decoder with a delay of [delay] frames, after the send/receive
    contract of libavcodec: a packet decodes to one frame, which becomes
    receivable once more than [delay] frames are held; the flush packet
    ([None]) makes every held frame receivable and ends the stream. *)
Record codec : Type := mkCodec {
  delay : nat;
  held : list AVFrame;
  ready : list AVFrame;
  draining : bool
}.

Definition decode_packet (p : AVPacket) : AVFrame :=
  mkFrame 1152 44100 (pkt_pts p) (pkt_pts p) [[payload p]].

Definition codec_send (cc : codec) (pkt : option AVPacket) : Z * codec :=
  match pkt with
  | Some p =>
      let h := held cc ++ [decode_packet p] in
      let n := (length h - delay cc)%nat in
      (0, mkCodec (delay cc) (skipn n h) (ready cc ++ firstn n h) (draining cc))
  | None => (0, mkCodec (delay cc) [] (ready cc ++ held cc) true)
  end.

Definition codec_receive (cc : codec) : recv_result * codec :=
  match ready cc with
  | f :: r => (RecvFrame f, mkCodec (delay cc) (held cc) r (draining cc))
  | [] => (if draining cc then RecvEOF else RecvEAGAIN, cc)
  end.

Definition run_decodeLoop (fuel : nat) (packets : list AVPacket) (cc : codec)
           (d : Decoder.AudioDecoder) :=
  Decoder.decodeLoop (list AVPacket) codec list_read_frame codec_send
                     codec_receive (fun t => t) (fun f => Some f)
                     fuel packets cc d.

(** [SDL_MixAudioFormat] for [AUDIO_S16SYS] on a little-endian host, after
    SDL's documentation: each 16-bit sample of [src] is scaled by
    [volume / 128], added to the sample of [dst] and clipped; volume 0
    leaves [dst] alone, as does a trailing odd byte. *)
Definition s16_of_bytes (lo hi : Z) : Z :=
  let u := lo + 256 * hi in if u <? 32768 then u else u - 65536.

Definition s16_clip (v : Z) : Z :=
  if 32767 <? v then 32767 else if v <? -32768 then -32768 else v.

Fixpoint mix_s16 (dst src : list Z) (vol : Z) : list Z :=
  match dst, src with
  | dl :: dh :: dst', sl :: sh :: src' =>
      let v := s16_clip (Z.quot (s16_of_bytes sl sh * vol) SDL_MIX_MAXVOLUME
                         + s16_of_bytes dl dh) in
      (v mod 256) :: ((v / 256) mod 256) :: mix_s16 dst' src' vol
  | _, _ => dst
  end.

Definition SDL_MixAudioFormat (dst src : list Z) (vol : Z) : list Z :=
  if vol =? 0 then dst else mix_s16 dst src vol.

End Models.

(** ** AudioDecoder::open (audio_decoder.cpp) *)

Module Open.

Import Decoder.

Inductive AVMediaType : Type :=
| AVMEDIA_TYPE_VIDEO
| AVMEDIA_TYPE_AUDIO
| AVMEDIA_TYPE_DATA
| AVMEDIA_TYPE_SUBTITLE
| AVMEDIA_TYPE_ATTACHMENT.

Definition is_audio (t : AVMediaType) : bool :=
  match t with
  | AVMEDIA_TYPE_AUDIO => true
  | _ => false
  end.

Inductive AudioDecoderError : Type :=
| SUCCESS
| FILE_OPEN_ERROR
| STREAM_INFO_ERROR
| NO_AUDIO_STREAM
| CODEC_NOT_FOUND
| CODEC_CONTEXT_ALLOC_ERROR
| CODEC_PARAMS_ERROR
| CODEC_OPEN_ERROR.

(** What libavformat and libavcodec answer for one file: the return codes
    of [avformat_open_input], [avformat_find_stream_info],
    [avcodec_parameters_to_context] and [avcodec_open2], the media type of
    each stream, whether [avcodec_find_decoder] knows the codec of a stream
    and whether [avcodec_alloc_context3] returns a context. *)
Record media : Type := mkMedia {
  open_input_ret : Z;
  stream_info_ret : Z;
  streams : list AVMediaType;
  decoder_found : Z -> bool;
  context_allocated : bool;
  parameters_ret : Z;
  open2_ret : Z
}.

(** The stream search of [open]:
    [for (i = 0; i < nb_streams; i++) if (type == AUDIO) { index = i; break; }],
    entered with [audioStreamIndex = -1]. *)
Fixpoint find_audio_stream_from (i : Z) (l : list AVMediaType) : Z :=
  match l with
  | [] => -1
  | t :: l' => if is_audio t then i else find_audio_stream_from (i + 1) l'
  end.

Definition find_audio_stream (l : list AVMediaType) : Z :=
  find_audio_stream_from 0 l.

Definition set_audioStreamIndex (i : Z) (d : AudioDecoder) : AudioDecoder :=
  mkDecoder (config d) i (isDecoding d) (frameQueue d) (released d).

(** How far [open] has brought a codec context: returned by
    [avcodec_alloc_context3], filled by [avcodec_parameters_to_context],
    opened by [avcodec_open2]. *)
Inductive codec_stage : Type :=
| Allocated
| Configured
| Opened.

(** [formatContext] and [codecContext], the two owning pointers of the
    decoder.  [None] is the null pointer; a context is named by the file it
    was made for. *)
Record contexts : Type := mkContexts {
  formatContext : option media;
  codecContext : option (media * codec_stage)
}.

(** [formatContext.reset(); codecContext.reset();] *)
Definition reset (c : contexts) : contexts := mkContexts None None.

(** [AudioDecoder::open]: the error code, the decoder and its two
    contexts.  [avformat_open_input] leaves [formatCtx] null when it
    fails. *)
Definition open (m : media) (d : AudioDecoder) (c : contexts)
  : AudioDecoderError * AudioDecoder * contexts :=
  let c0 := reset c in
  if open_input_ret m <? 0 then (FILE_OPEN_ERROR, d, c0)
  else
    let c1 := mkContexts (Some m) (codecContext c0) in
    if stream_info_ret m <? 0 then (STREAM_INFO_ERROR, d, c1)
    else
      let d1 := set_audioStreamIndex (find_audio_stream (streams m)) d in
      if audioStreamIndex d1 =? -1 then (NO_AUDIO_STREAM, d1, c1)
      else if negb (decoder_found m (audioStreamIndex d1))
      then (CODEC_NOT_FOUND, d1, c1)
      else if negb (context_allocated m)
      then (CODEC_CONTEXT_ALLOC_ERROR, d1, c1)
      else
        let c2 := mkContexts (formatContext c1) (Some (m, Allocated)) in
        if parameters_ret m <? 0 then (CODEC_PARAMS_ERROR, d1, c2)
        else if open2_ret m <? 0
        then (CODEC_OPEN_ERROR, d1,
              mkContexts (formatContext c1) (Some (m, Configured)))
        else (SUCCESS, d1, mkContexts (formatContext c1) (Some (m, Opened))).

(** [AudioDecoder::getSampleRate]:
    [codecContext ? codecContext->sample_rate : 0], where [sample_rate_of]
    is the rate a context of that file holds at that stage. *)
Definition getSampleRate (sample_rate_of : media -> codec_stage -> Z)
           (c : contexts) : Z :=
  match codecContext c with
  | Some (m, stage) => sample_rate_of m stage
  | None => 0
  end.

Definition is_success (e : AudioDecoderError) : bool :=
  match e with
  | SUCCESS => true
  | _ => false
  end.

End Open.

(** ** AudioPlayer: loading a file and converting a frame *)

Module Conversion.

Import Decoder Player.

(** How [initResampler] ends: [swr_alloc] fails, [swr_alloc_set_opts2]
    fails (it frees the context), [swr_init] fails (the context stays
    allocated), or the resampler is ready. *)
Inductive resampler_result : Type :=
| SwrAllocFails
| SwrOptsFail
| SwrInitFails
| SwrReady.

Section Conversion.

Variable Seconds : Type.
Variable zero_seconds : Seconds.
Variable SDL_MixAudioFormat : list Z -> list Z -> Z -> list Z.

(** [AudioPlayer::initResampler]: the returned flag and whether
    [swrContext] is non-null afterwards. *)
Definition initResampler (r : resampler_result) (s : AudioPlayer Seconds)
  : bool * AudioPlayer Seconds :=
  match decoder s with
  | None => (false, s)
  | Some _ =>
      let with_swr (b : bool) :=
        mkPlayer (decoder s) (playerState s) (audioQueue s) (isPlaying s)
                 (isPaused s) (volume s) (currentPosition s)
                 (isDecodingThreadRunning s) (devicePaused s) b (underrun s)
                 (bufferedSize s) in
      match r with
      | SwrAllocFails => (false, with_swr false)
      | SwrOptsFail => (false, with_swr false)
      | SwrInitFails => (false, with_swr true)
      | SwrReady => (true, with_swr true)
      end
  end.

(** [AudioPlayer::init]: [device_opened] tells whether
    [SDL_OpenAudioDevice] returns a device, which SDL opens paused. *)
Definition init (device_opened : bool) (s : AudioPlayer Seconds)
  : bool * AudioPlayer Seconds :=
  if device_opened then (true, SDL_PauseAudioDevice true s) else (false, s).

(** [AudioPlayer::loadFile].  It begins with [stop()], so [th] and
    [callbacks] are those of [stop_call], and the call is [Blocks] when
    that [stop()] does not return; [ctx] are the decoder's contexts.  The
    inner [None] is the dereference of a null [decoder]. *)
Definition loadFile (th : conversion_thread) (callbacks : list Z)
           (m : Open.media) (device_opened : bool) (r : resampler_result)
           (ctx : Open.contexts) (s : AudioPlayer Seconds)
  : outcome (option (bool * AudioPlayer Seconds * Open.contexts)) :=
  match stop_call zero_seconds SDL_MixAudioFormat th callbacks s with
  | Blocks => Blocks
  | Returns s1 =>
      Returns
        match decoder s1 with
        | None => None
        | Some d =>
            let '(err, d', ctx') := Open.open m d ctx in
            let s2 := set_decoder (Some d') s1 in
            if negb (Open.is_success err) then Some (false, s2, ctx')
            else
              let (ok, s3) := init device_opened s2 in
              if negb ok then Some (false, s3, ctx')
              else
                let (ok', s4) := initResampler r s3 in
                if negb ok' then Some (false, s4, ctx')
                else Some (true, s4, ctx')
        end
  end.

(** The resampler: its state is threaded through the calls. *)
Variable Swr : Type.
Variable swr_get_delay : Swr -> Z -> Z.
Variable swr_convert : Swr -> Z -> AVFrame -> Z * list Z * Swr.
Variable av_rescale_rnd_up : Z -> Z -> Z -> Z.

(** [frame->pts * av_q2d(timeBase)]. *)
Variable pts_to_seconds : Z -> Seconds.

(** [AudioPlayer::processDecodedFrame] (resampling revision).  The
    triple [swr_convert] returns is the sample count, the contents of
    [buffer] after the call and the resampler's new state. *)
Definition processDecodedFrame (deviceSampleRate deviceChannels : Z)
           (swr : Swr) (frame : AVFrame) (s : AudioPlayer Seconds)
  : outcome (Swr * AudioPlayer Seconds) :=
  if negb (swrContext s) then Returns (swr, s)
  else
    let delay := swr_get_delay swr (sample_rate frame) in
    let out_samples :=
      av_rescale_rnd_up (delay + nb_samples frame) deviceSampleRate
                        (sample_rate frame) in
    if out_samples <=? 0 then Returns (swr, s)
    else
      let bufferSize := out_samples * deviceChannels * 2 in
      if bufferSize =? 0 then Returns (swr, s)
      else
        let '(samples_out, buffer, swr') := swr_convert swr out_samples frame in
        if samples_out <? 0 then Returns (swr', s)
        else
          let s1 :=
            if pts frame =? AV_NOPTS_VALUE then s
            else set_currentPosition (pts_to_seconds (pts frame)) s in
          let actualBufferSize := samples_out * deviceChannels * 2 in
          let data := firstn (Z.to_nat actualBufferSize) buffer in
          match processDecodedFrame_enqueue data s1 with
          | Returns s2 => Returns (swr', s2)
          | Blocks => Blocks
          end.

End Conversion.

Arguments initResampler {Seconds} r s.
Arguments init {Seconds} device_opened s.
Arguments loadFile {Seconds} zero_seconds SDL_MixAudioFormat th callbacks m
  device_opened r ctx s.
Arguments processDecodedFrame {Seconds Swr} swr_get_delay swr_convert
  av_rescale_rnd_up pts_to_seconds deviceSampleRate deviceChannels swr frame s.

End Conversion.

(** ** Logger (logger.cpp) *)

From Stdlib Require Ascii String.

Module Logging.

Import Ascii.

(** [std::string] as the list of its characters. *)
Definition str : Type := list Ascii.ascii.

Fixpoint str_eqb (a b : str) : bool :=
  match a, b with
  | [], [] => true
  | x :: a', y :: b' => Ascii.eqb x y && str_eqb a' b'
  | _, _ => false
  end.

Definition dot : Ascii.ascii := "."%char.
Definition underscore : Ascii.ascii := "_"%char.
Definition slash : Ascii.ascii := "/"%char.

(** [s.find_last_of(c)], scanning from position [i]; [acc] is the last
    match so far and [None] is [npos]. *)
Fixpoint find_last_of_from (c : Ascii.ascii) (i : nat) (s : str) (acc : option nat)
  : option nat :=
  match s with
  | [] => acc
  | x :: s' =>
      find_last_of_from c (S i) s' (if Ascii.eqb x c then Some i else acc)
  end.

Definition find_last_of (c : Ascii.ascii) (s : str) : option nat :=
  find_last_of_from c 0 s None.

(** [s.insert(pos, t)] for [pos <= s.size()]. *)
Definition insert (pos : nat) (t s : str) : str :=
  firstn pos s ++ t ++ skipn pos s.

(** The file a named logger writes to, as [getLogger] derives it. *)
Definition logger_filename (filename name : str) : str :=
  match find_last_of dot filename with
  | Some dot_pos => insert dot_pos (underscore :: name) filename
  | None => filename
  end.

Inductive Level : Type := TRACE | DEBUG | INFO | WARN | ERROR | CRITICAL.

Inductive spdlog_level : Type :=
| level_trace | level_debug | level_info | level_warn | level_err
| level_critical | level_off.

Definition to_spdlog (l : Level) : spdlog_level :=
  match l with
  | TRACE => level_trace
  | DEBUG => level_debug
  | INFO => level_info
  | WARN => level_warn
  | ERROR => level_err
  | CRITICAL => level_critical
  end.

Record LoggerConfig : Type := mkLoggerConfig {
  filename : str;
  level : Level;
  max_file_size : Z;
  max_files : Z;
  console_output : bool;
  daily_rotation : bool;
  pattern : str
}.

(** An [spdlog::logger] with the sinks the code gives it. *)
Record spd_logger : Type := mkSpd {
  lg_name : str;
  lg_file : str;
  lg_console : bool;
  lg_daily : bool;
  lg_level : spdlog_level;
  lg_pattern : str
}.

Record Logger : Type := mkLogger {
  config_ : LoggerConfig;
  logger_ : option spd_logger;
  loggers_ : list (str * spd_logger)
}.

Definition set_lg_level (l : spdlog_level) (g : spd_logger) : spd_logger :=
  mkSpd (lg_name g) (lg_file g) (lg_console g) (lg_daily g) l (lg_pattern g).

(** [loggers_.find(name)]. *)
Fixpoint find (name : str) (m : list (str * spd_logger)) : option spd_logger :=
  match m with
  | [] => None
  | (k, g) :: m' => if str_eqb k name then Some g else find name m'
  end.

(** [Logger::setLevel]. *)
Definition setLevel (l : Level) (L : Logger) : Logger :=
  match logger_ L with
  | None => L
  | Some g => mkLogger (config_ L) (Some (set_lg_level (to_spdlog l) g)) (loggers_ L)
  end.

(** Whether [log_path.parent_path()] is the empty path: the file name has
    no directory separator. *)
Definition parent_path_empty (filename : str) : bool :=
  match find_last_of slash filename with
  | Some _ => false
  | None => true
  end.

(** [Logger::initialize].  [create_directories] throws
    [std::filesystem::filesystem_error] for the empty path and when a
    directory cannot be made ([dirs_ok] false); only [spdlog::spdlog_ex] is
    caught, so that exception leaves the function: [None].  [sinks_ok] is
    false when spdlog throws while the sinks are built.  A fresh
    [spdlog::logger] has level [info]. *)
Definition initialize (dirs_ok sinks_ok : bool) (c : LoggerConfig) (L : Logger)
  : option (bool * Logger) :=
  let L1 := mkLogger c (logger_ L) (loggers_ L) in
  if parent_path_empty (filename c) || negb dirs_ok then None
  else if sinks_ok then
    let main := mkSpd ["m"; "a"; "i"; "n"]%char (filename c)
                      (console_output c) (daily_rotation c) level_info
                      (pattern c) in
    Some (true, setLevel (level c) (mkLogger c (Some main) (loggers_ L)))
  else Some (false, L1).

(** [Logger::getLogger]: the logger returned ([None] is [nullptr]) and the
    new state; the outer [None] is the dereference of a null [logger_]. *)
Definition getLogger (sinks_ok : bool) (name : str) (L : Logger)
  : option (option spd_logger * Logger) :=
  match find name (loggers_ L) with
  | Some g => Some (Some g, L)
  | None =>
      if negb sinks_ok then Some (None, L)
      else
        match logger_ L with
        | None => None
        | Some main =>
            let g := mkSpd name
                           (logger_filename (filename (config_ L)) name)
                           (console_output (config_ L))
                           (daily_rotation (config_ L))
                           (lg_level main) (pattern (config_ L)) in
            Some (Some g,
                  mkLogger (config_ L) (logger_ L) ((name, g) :: loggers_ L))
        end
  end.

End Logging.

(** ** Vocabulary of the statements *)

Section Statements.

Import Decoder Player.

(** The frame queue is within its configured capacity. *)
Definition frame_queue_bounded (d : AudioDecoder) : Prop :=
  queue_size d <= maxQueueSize (config d).

(** The frame queue's own operations: a [pushFrame] that returns, a parked
    [pushFrame] that goes on in a state where its predicate holds,
    [getAudioFrame] and [flush]. *)
Inductive frame_queue_op : AudioDecoder -> AudioDecoder -> Prop :=
| op_push frame d b d' :
    pushFrame frame d = Returns (b, d') -> frame_queue_op d d'
| op_push_resumed frame d b d' :
    notFull_pred d = true -> pushFrame_tail frame d = (b, d') ->
    frame_queue_op d d'
| op_pop timeout_ms d r d' :
    getAudioFrame timeout_ms d = Returns (r, d') -> frame_queue_op d d'
| op_flush d : frame_queue_op d (flush d).

Inductive frame_queue_ops : AudioDecoder -> AudioDecoder -> Prop :=
| ops_nil d : frame_queue_ops d d
| ops_step d1 d2 d3 :
    frame_queue_ops d1 d2 -> frame_queue_op d2 d3 -> frame_queue_ops d1 d3.

(** The playback queue is within [MAX_QUEUE_SIZE]. *)
Definition playback_queue_bounded {Seconds : Type} (s : AudioPlayer Seconds)
  : Prop :=
  playback_size s <= MAX_QUEUE_SIZE.

(** Whatever touches the playback queue: the two producers (returning, or
    going on after their wait), the callback, [stop] and [seek]. *)
Inductive playback_queue_op {Seconds : Type} (zero_seconds : Seconds)
          (av_seek_ok : Seconds -> bool) (mix : list Z -> list Z -> Z -> list Z)
  : AudioPlayer Seconds -> AudioPlayer Seconds -> Prop :=
| pq_enqueue data s s' :
    processDecodedFrame_enqueue data s = Returns s' ->
    playback_queue_op zero_seconds av_seek_ok mix s s'
| pq_enqueue_resumed data s :
    enqueue_pred s = true ->
    playback_queue_op zero_seconds av_seek_ok mix s (enqueue_resumed data s)
| pq_push data s b s' :
    pushAudioData data s = Returns (b, s') ->
    playback_queue_op zero_seconds av_seek_ok mix s s'
| pq_push_resumed data s b s' :
    pushAudioData_pred s = true -> pushAudioData_resumed data s = (b, s') ->
    playback_queue_op zero_seconds av_seek_ok mix s s'
| pq_fill len s :
    playback_queue_op zero_seconds av_seek_ok mix s
                      (fst (fillAudioBuffer mix len s))
| pq_stop s :
    playback_queue_op zero_seconds av_seek_ok mix s (stop zero_seconds s)
| pq_seek t s :
    playback_queue_op zero_seconds av_seek_ok mix s (seek av_seek_ok t s).

(** What the specification says of [stop], called on one state: the call
    returns, the player is STOPPED, both queues are empty, the position is
    0, and a second call changes nothing. *)
Definition stop_claim (Seconds : Type) (zero_seconds : Seconds)
           (mix : list Z -> list Z -> Z -> list Z) (th : conversion_thread)
           (callbacks : list Z) (s : AudioPlayer Seconds) : Prop :=
  exists s',
    stop_call zero_seconds mix th callbacks s = Returns s'
    /\ playerState s' = STOPPED
    /\ frame_queue s' = []
    /\ audioQueue s' = []
    /\ currentPosition s' = zero_seconds
    /\ stop_call zero_seconds mix NotJoinable [] s' = Returns s'.

(** The calls of the controller's public interface. *)
Inductive controller_call {Seconds : Type} (zero_seconds : Seconds)
          (av_seek_ok : Seconds -> bool)
  : AudioPlayer Seconds -> AudioPlayer Seconds -> Prop :=
| call_loadFile stream s :
    decoder s <> None ->
    controller_call zero_seconds av_seek_ok s
                    (loadFile_opened zero_seconds stream s)
| call_play s : controller_call zero_seconds av_seek_ok s (play s)
| call_pause s : controller_call zero_seconds av_seek_ok s (pause s)
| call_resume s : controller_call zero_seconds av_seek_ok s (resume s)
| call_stop s :
    controller_call zero_seconds av_seek_ok s (stop zero_seconds s)
| call_seek t s :
    controller_call zero_seconds av_seek_ok s (seek av_seek_ok t s)
| call_setVolume v s :
    controller_call zero_seconds av_seek_ok s (setVolume v s).

Inductive controller_reaches {Seconds : Type} (zero_seconds : Seconds)
          (av_seek_ok : Seconds -> bool)
  : AudioPlayer Seconds -> Prop :=
| reaches_new :
    controller_reaches zero_seconds av_seek_ok (new_player zero_seconds)
| reaches_call s s' :
    controller_reaches zero_seconds av_seek_ok s ->
    controller_call zero_seconds av_seek_ok s s' ->
    controller_reaches zero_seconds av_seek_ok s'.

Definition controller_invariant {Seconds : Type} (s : AudioPlayer Seconds)
  : Prop :=
  decoder s <> None
  /\ devicePaused s = negb (State_eqb (playerState s) PLAYING).

(** One step of the player between two observation points: a call of the
    public interface that returns, or a step of one of the other threads.
    The conversion thread exists from [play] to the join in [stop], that
    is while the player is not STOPPED: it takes a frame, stores the
    position, queues a chunk (through the end of [processDecodedFrame], or
    through [pushAudioData] in the first revision).  The decode thread
    appends frames while [isDecoding] is up, and the device calls back
    while it is not paused. *)
Inductive pipeline_step {Seconds : Type} (zero_seconds : Seconds)
          (av_seek_ok : Seconds -> bool) (mix : list Z -> list Z -> Z -> list Z)
  : AudioPlayer Seconds -> AudioPlayer Seconds -> Prop :=
| step_call s s' :
    controller_call zero_seconds av_seek_ok s s' ->
    pipeline_step zero_seconds av_seek_ok mix s s'
| step_loadFile m device_opened r ctx ok s s' ctx' :
    Conversion.loadFile zero_seconds mix InDecodingLoop [] m device_opened r
                        ctx s = Returns (Some (ok, s', ctx')) ->
    pipeline_step zero_seconds av_seek_ok mix s s'
| step_decoded frame d s :
    decoder s = Some d -> isDecoding d = true ->
    pipeline_step zero_seconds av_seek_ok mix s
      (set_decoder (Some (set_frameQueue (frameQueue d ++ [frame]) d)) s)
| step_frame_taken d r d' s :
    playerState s <> STOPPED -> decoder s = Some d ->
    getAudioFrame 100 d = Returns (r, d') ->
    pipeline_step zero_seconds av_seek_ok mix s (set_decoder (Some d') s)
| step_position t s :
    playerState s <> STOPPED ->
    pipeline_step zero_seconds av_seek_ok mix s (set_currentPosition t s)
| step_enqueue data s s' :
    playerState s <> STOPPED ->
    processDecodedFrame_enqueue data s = Returns s' ->
    pipeline_step zero_seconds av_seek_ok mix s s'
| step_enqueue_resumed data s :
    playerState s <> STOPPED -> enqueue_pred s = true ->
    pipeline_step zero_seconds av_seek_ok mix s (enqueue_resumed data s)
| step_push data s b s' :
    playerState s <> STOPPED ->
    pushAudioData data s = Returns (b, s') ->
    pipeline_step zero_seconds av_seek_ok mix s s'
| step_push_resumed data s b s' :
    playerState s <> STOPPED ->
    pushAudioData_pred s = true -> pushAudioData_resumed data s = (b, s') ->
    pipeline_step zero_seconds av_seek_ok mix s s'
| step_callback len s :
    devicePaused s = false ->
    pipeline_step zero_seconds av_seek_ok mix s (fst (fillAudioBuffer mix len s)).

Inductive pipeline_reaches {Seconds : Type} (zero_seconds : Seconds)
          (av_seek_ok : Seconds -> bool) (mix : list Z -> list Z -> Z -> list Z)
  : AudioPlayer Seconds -> Prop :=
| pipeline_new :
    pipeline_reaches zero_seconds av_seek_ok mix (new_player zero_seconds)
| pipeline_next s s' :
    pipeline_reaches zero_seconds av_seek_ok mix s ->
    pipeline_step zero_seconds av_seek_ok mix s s' ->
    pipeline_reaches zero_seconds av_seek_ok mix s'.

(** The fade the specification describes: linear and toward silence, byte
    [i] of [n] keeping [(n - i) / n] of its level. *)
Fixpoint fade_to_silence_from (i n : Z) (l : list Z) : list Z :=
  match l with
  | [] => []
  | b :: l' => (b * (n - i) / n) :: fade_to_silence_from (i + 1) n l'
  end.

Definition fade_to_silence (data : list Z) : list Z :=
  fade_to_silence_from 0 (Z.of_nat (length data)) data.

(** The [b] bytes of sample [i] in a plane, the plane of a channel, and the
    [c * b] bytes of sample [i] across the channels. *)
Definition sample_bytes (b : nat) (src : list Z) (i : nat) : list Z :=
  firstn b (skipn (i * b) src).

Definition channel_plane (frame : AVFrame) (ch : nat) : list Z :=
  nth ch (data frame) [].

Definition row (frame : AVFrame) (c b i : nat) : list Z :=
  concat (map (fun ch => sample_bytes b (channel_plane frame ch) i) (seq 0 c)).

(** What the specification says of the buffer [processDecodedFrame] builds
    from a frame of [s] samples, [c] channels and [b] bytes per sample. *)
Definition interleave_claim (planar : bool) (s c b : nat) (frame : AVFrame)
  : Prop :=
  exists buf,
    PlayerV1.processDecodedFrame_buffer planar (Z.of_nat b) (Z.of_nat c) frame
    = Some buf
    /\ length buf = (s * c * b)%nat
    /\ (planar = true ->
        forall i ch j, (i < s)%nat -> (ch < c)%nat -> (j < b)%nat ->
        nth ((i * c + ch) * b + j) buf 0
        = nth (i * b + j) (channel_plane frame ch) 0)
    /\ (planar = false -> buf = firstn (s * c * b) (channel_plane frame 0)).

End Statements.

(** ** Runs of several calls *)

(** [pushFrame] on each frame in turn, all of them enqueued. *)
Fixpoint push_all (frames : list AVFrame) (d : Decoder.AudioDecoder)
  : option Decoder.AudioDecoder :=
  match frames with
  | [] => Some d
  | f :: fs =>
      match Decoder.pushFrame f d with
      | Returns (true, d') => push_all fs d'
      | _ => None
      end
  end.

(** Up to [n] calls of [getAudioFrame], stopping at the first that hands
    out no frame: the frames handed out, in order, and the decoder left. *)
Fixpoint pop_all (n : nat) (timeout_ms : Z) (d : Decoder.AudioDecoder)
  : list AVFrame * Decoder.AudioDecoder :=
  match n with
  | O => ([], d)
  | S k =>
      match Decoder.getAudioFrame timeout_ms d with
      | Returns (Some f, d') =>
          let (l, d'') := pop_all k timeout_ms d' in (f :: l, d'')
      | _ => ([], d)
      end
  end.

(** The bytes waiting in the playback queue, as one stream and as a count. *)
Definition queued_stream {Seconds : Type} (s : Player.AudioPlayer Seconds)
  : list Z :=
  concat (Player.audioQueue s).

Definition queued_bytes {Seconds : Type} (s : Player.AudioPlayer Seconds) : Z :=
  Z.of_nat (length (queued_stream s)).

(** What a callback asked for [len] bytes finds to take: the head of the
    queued byte stream. *)
Definition available_data {Seconds : Type} (len : Z)
           (s : Player.AudioPlayer Seconds) : list Z :=
  firstn (Z.to_nat len) (queued_stream s).

(** The buffer the specification describes for an underrun: the data at
    hand faded toward silence, then silence up to [len] bytes. *)
Definition faded_to_silence {Seconds : Type} (len : Z)
           (s : Player.AudioPlayer Seconds) : list Z :=
  fade_to_silence (available_data len s)
  ++ repeat 0 (Z.to_nat len - length (available_data len s)).

(** [bufferedSize] agrees with the bytes queued. *)
Definition counter_tracks_queue {Seconds : Type} (s : Player.AudioPlayer Seconds)
  : Prop :=
  Player.bufferedSize s = wrap64 (queued_bytes s).

(** The flags of the controller agree with its state. *)
Definition flags_consistent {Seconds : Type} (s : Player.AudioPlayer Seconds)
  : Prop :=
  Player.isPlaying s = negb (Player.State_eqb (Player.playerState s) Player.STOPPED)
  /\ Player.isPaused s = Player.State_eqb (Player.playerState s) Player.PAUSED
  /\ Player.isDecodingThreadRunning s
     = negb (Player.State_eqb (Player.playerState s) Player.STOPPED)
  /\ 0 <= Player.volume s <= SDL_MIX_MAXVOLUME
  /\ exists d, Player.decoder s = Some d
               /\ Decoder.isDecoding d
                  = negb (Player.State_eqb (Player.playerState s) Player.STOPPED).

(** ** Concrete inputs *)

Definition sample_frame (n : Z) : AVFrame := mkFrame 1152 44100 n n [[n]].

Definition full_dropping_decoder : Decoder.AudioDecoder :=
  Decoder.mkDecoder (Decoder.mkConfig 2 10 true) 0 true
                    [sample_frame 1; sample_frame 2] [].

Definition parked_decoder : Decoder.AudioDecoder :=
  Decoder.mkDecoder (Decoder.mkConfig 2 10 false) 0 true [] [].

Definition audio_packets (n : nat) : list AVPacket :=
  map (fun k => mkPacket 0 (Z.of_nat k) (Z.of_nat k) (Z.of_nat k)) (seq 1 n).

(** The decoder as the player's constructor configures it, file opened
    and decoding started. *)
Definition player_decoder : Decoder.AudioDecoder :=
  Decoder.mkDecoder (Decoder.mkConfig 50 10 false) 0 true [] [].

Definition packet1 : AVPacket := mkPacket 0 10 10 1.
Definition packet2 : AVPacket := mkPacket 0 20 20 2.

Definition always_seekable (t : Z) : bool := true.

Definition loaded_player : Player.AudioPlayer Z :=
  Player.loadFile_opened 0 0 (Player.new_player 0).

(** The decode thread has run over [packets] (decoder without delay). *)
Definition decode_thread (packets : list AVPacket) (s : Player.AudioPlayer Z)
  : Player.AudioPlayer Z :=
  match Player.decoder s with
  | Some d =>
      match Models.run_decodeLoop 100 packets (Models.mkCodec 0 [] [] false) d with
      | Some (_, _, d') => Player.set_decoder (Some d') s
      | None => s
      end
  | None => s
  end.

Definition playing_with_frame : Player.AudioPlayer Z :=
  Player.enqueue_push [1; 2; 3; 4]
    (decode_thread [packet1] (Player.play loaded_player)).

Definition stopped_after_seek : Player.AudioPlayer Z :=
  Player.seek always_seekable 5 loaded_player.

Definition playing_player : Player.AudioPlayer Z := Player.play loaded_player.

(** The device has called back on an empty queue. *)
Definition starved_player (mix : list Z -> list Z -> Z -> list Z)
  : Player.AudioPlayer Z :=
  fst (Player.fillAudioBuffer mix 4 playing_player).

(** ... then the conversion thread has queued one chunk. *)
Definition recovering_player : Player.AudioPlayer Z :=
  Player.enqueue_push [200; 200; 200; 200]
                      (starved_player Models.SDL_MixAudioFormat).

(** ... or the user has muted the player and one chunk has been queued. *)
Definition muted_recovering_player (mix : list Z -> list Z -> Z -> list Z)
  : Player.AudioPlayer Z :=
  Player.enqueue_push [255; 255] (Player.setVolume 0 (starved_player mix)).

Definition stereo_s16_frame : AVFrame :=
  mkFrame 2 44100 0 0 [[10; 11; 12; 13]; [20; 21; 22; 23]].

(** One sample of a planar 16-bit frame with nine channels.  [data] lists
    the nine planes, as [extended_data] does; [frame->data] has room for
    the first [AV_NUM_DATA_POINTERS] of them. *)
Definition nine_channel_frame : AVFrame :=
  mkFrame 1 44100 0 0
          [[1; 2]; [3; 4]; [5; 6]; [7; 8]; [9; 10]; [11; 12]; [13; 14];
           [15; 16]; [17; 18]].

(** The conversion thread has queued [n] chunks. *)
Definition queue_chunks (n : nat) (s : Player.AudioPlayer Z)
  : Player.AudioPlayer Z :=
  Nat.iter n (Player.enqueue_push [0; 0; 0; 0]) s.

(** The player was paused and the conversion thread went on until the
    playback queue was full; its next chunk finds no room. *)
Definition paused_full_player : Player.AudioPlayer Z :=
  queue_chunks 50 (Player.pause playing_player).

(** A started decoder whose file has been read to its end, and the
    threads about to call [getAudioFrame(frame, -1)] and [stop()]. *)
Definition pop_beside_stop : Race.threads :=
  Race.mkThreads parked_decoder Race.AtPredicate Race.AtFlag.

(** The popper tests its predicate, [stop] runs to its end, and only then
    the popper calls [wait(lock)]. *)
Definition stop_inside_the_window : list Race.thread :=
  [Race.ThePopper; Race.TheStopper; Race.TheStopper; Race.TheStopper;
   Race.TheStopper; Race.ThePopper].

(** A decoder with room for one more frame. *)
Definition roomy_decoder : Decoder.AudioDecoder :=
  Decoder.mkDecoder (Decoder.mkConfig 2 10 false) 0 true [sample_frame 1] [].

Definition video_packets : list AVPacket :=
  [mkPacket 1 0 0 7; mkPacket 1 40 40 8; mkPacket 2 0 0 9].

(** A file with a video stream in front of two audio streams. *)
Definition movie : Open.media :=
  Open.mkMedia 0 0
               [Open.AVMEDIA_TYPE_VIDEO; Open.AVMEDIA_TYPE_AUDIO;
                Open.AVMEDIA_TYPE_AUDIO]
               (fun _ => true) true 0 0.

(** A file that [avformat_open_input] cannot open, and the contexts of a
    decoder on which [movie] was opened before. *)
Definition missing_file : Open.media :=
  Open.mkMedia (-2) 0 [] (fun _ => false) false 0 0.

Definition movie_contexts : Open.contexts :=
  Open.mkContexts (Some movie) (Some (movie, Open.Opened)).

Definition no_contexts : Open.contexts := Open.mkContexts None None.

(** A player with ten bytes queued in three chunks, counter in step. *)
Definition buffered_player : Player.AudioPlayer Z :=
  Player.enqueue_push [8; 9; 10]
    (Player.enqueue_push [4; 5; 6; 7]
       (Player.enqueue_push [1; 2; 3] playing_player)).

(** A resampler that passes the first plane through, one sample per two
    bytes, with no delay. *)
Definition passthrough_convert (swr : unit) (out_samples : Z) (frame : AVFrame)
  : Z * list Z * unit :=
  (nb_samples frame, nth 0 (data frame) [], tt).

Definition rescale_up (a b c : Z) : Z := (a * b + c - 1) / c.

Definition mono_frame : AVFrame := mkFrame 2 44100 90 90 [[1; 2; 3; 4]].

Module LogNames.

Import String.

Definition app_log : Logging.str :=
  list_ascii_of_string "logs/app.log"%string.

Definition player_log : Logging.str :=
  list_ascii_of_string "logs/app_AudioPlayer.log"%string.

Definition no_extension : Logging.str :=
  list_ascii_of_string "logfile"%string.

Definition AudioPlayer_name : Logging.str :=
  list_ascii_of_string "AudioPlayer"%string.

Definition AudioDecoder_name : Logging.str :=
  list_ascii_of_string "AudioDecoder"%string.

Definition message_only : Logging.str :=
  list_ascii_of_string "%v"%string.

End LogNames.

Definition debug_config : Logging.LoggerConfig :=
  Logging.mkLoggerConfig LogNames.app_log Logging.DEBUG 10485760 5 false false
                         LogNames.message_only.

Definition initialized_logger : Logging.Logger :=
  match Logging.initialize true true debug_config
                           (Logging.mkLogger debug_config None []) with
  | Some (_, L) => L
  | None => Logging.mkLogger debug_config None []
  end.

(** * Properties *)

(** ** Frame queue: push and pop *)

Section FrameQueue.

Import Decoder.

Lemma queue_size_nonneg d : 0 <= queue_size d.
Proof. unfold queue_size. lia. Qed.

Lemma queue_size_zero d : queue_size d = 0 <-> frameQueue d = [].
Proof.
  unfold queue_size. destruct (frameQueue d); simpl; split; intros H;
    try reflexivity; try discriminate; lia.
Qed.

(** C6. Drop policy: with [dropFramesWhenFull] set and the frame queue at
    (or above) capacity, [pushFrame] returns [false] at once, hands the new
    frame to [av_frame_free] and leaves the queue as it was. *)
Theorem pushFrame_drops_when_full (frame : AVFrame) (d : AudioDecoder) :
  dropFramesWhenFull (config d) = true ->
  maxQueueSize (config d) <= queue_size d ->
  exists d',
    pushFrame frame d = Returns (false, d')
    /\ frameQueue d' = frameQueue d
    /\ queue_size d' = queue_size d
    /\ released d' = released d ++ [frame]
    /\ isDecoding d' = isDecoding d
    /\ config d' = config d.
Proof.
  intros Hdrop Hfull.
  exists (av_frame_free frame d).
  unfold pushFrame.
  apply Z.leb_le in Hfull. rewrite Hfull, Hdrop.
  repeat split.
Qed.

Lemma pushFrame_drops_when_full_witness :
  exists d',
    pushFrame (sample_frame 3) full_dropping_decoder = Returns (false, d')
    /\ frameQueue d' = [sample_frame 1; sample_frame 2]
    /\ queue_size d' = 2
    /\ released d' = [sample_frame 3]
    /\ isDecoding d' = true
    /\ config d' = mkConfig 2 10 true.
Proof.
  apply (pushFrame_drops_when_full (sample_frame 3) full_dropping_decoder).
  - reflexivity.
  - vm_compute. discriminate.
Defined.

Lemma available_pred_false d :
  available_pred d = false <-> frameQueue d = [] /\ isDecoding d = true.
Proof.
  unfold available_pred. rewrite orb_false_iff, !negb_false_iff, Z.eqb_eq.
  rewrite queue_size_zero. reflexivity.
Qed.

Lemma getAudioFrame_tail_empty b d :
  frameQueue d = [] -> getAudioFrame_tail b d = (None, d).
Proof.
  intros H. unfold getAudioFrame_tail.
  destruct (negb b || (queue_size d =? 0)); [reflexivity|].
  rewrite H. reflexivity.
Qed.

Lemma getAudioFrame_tail_front d f q :
  frameQueue d = f :: q ->
  getAudioFrame_tail true d = (Some f, set_frameQueue q d).
Proof.
  intros H. unfold getAudioFrame_tail, queue_size. rewrite H. reflexivity.
Qed.

(** [getAudioFrame] by cases on the queue the thread sees. *)
Lemma getAudioFrame_cases timeout_ms d :
  getAudioFrame timeout_ms d
  = match frameQueue d with
    | f :: q => Returns (Some f, set_frameQueue q d)
    | [] => if (timeout_ms <? 0) && isDecoding d then Blocks
            else Returns (None, d)
    end.
Proof.
  unfold getAudioFrame, getAudioFrame_tail, available_pred, queue_size.
  destruct (frameQueue d) as [|f q]; destruct (timeout_ms <? 0);
    destruct (isDecoding d); reflexivity.
Qed.

(** [getAudioFrame] on the state in which its predicate is evaluated.
    With a negative timeout the call stays parked exactly while the queue
    is empty and decoding goes on; when it returns it hands out the front
    frame, and returns [false] only on an empty queue.  With a timeout
    [>= 0] it always returns, with [false] when the wait expired on an
    unsatisfied predicate.  A call whose predicate is evaluated after
    [isDecoding] was lowered does not park. *)
Theorem getAudioFrame_wait_and_shutdown (timeout_ms : Z) (d : AudioDecoder) :
  (timeout_ms < 0 ->
     (getAudioFrame timeout_ms d = Blocks
        <-> frameQueue d = [] /\ isDecoding d = true)
     /\ (forall d', getAudioFrame timeout_ms d = Returns (None, d') ->
           frameQueue d = [] /\ isDecoding d = false /\ d' = d)
     /\ (forall f q, frameQueue d = f :: q ->
           getAudioFrame timeout_ms d = Returns (Some f, set_frameQueue q d)))
  /\ (0 <= timeout_ms ->
        getAudioFrame timeout_ms d <> Blocks
        /\ (available_pred d = false ->
              getAudioFrame timeout_ms d = Returns (None, d))
        /\ (forall f q, frameQueue d = f :: q ->
              getAudioFrame timeout_ms d = Returns (Some f, set_frameQueue q d)))
  /\ (isDecoding d = false -> getAudioFrame timeout_ms d <> Blocks)
  /\ getAudioFrame timeout_ms (stop d) <> Blocks.
Proof.
  rewrite !getAudioFrame_cases.
  assert (Hstop : isDecoding (stop d) = false).
  { unfold stop. destruct (isDecoding d) eqn:E; [reflexivity|exact E]. }
  split; [|split; [|split]].
  - intros Hneg. apply Z.ltb_lt in Hneg. rewrite Hneg.
    destruct (frameQueue d) as [|f q]; destruct (isDecoding d); simpl;
      (split; [split; [intros H; solve [discriminate H | split; reflexivity]
                      |intros [H1 H2]; solve [discriminate | reflexivity]]
              |split; [intros d' H; solve [discriminate H
                                          |inversion H; repeat split]
                      |intros f' q' H; solve [discriminate H
                                             |inversion H; reflexivity]]]).
  - intros Hpos. apply Z.ltb_ge in Hpos. rewrite Hpos. simpl.
    split; [destruct (frameQueue d); discriminate|].
    split.
    + intros E. apply available_pred_false in E. destruct E as [E _].
      rewrite E. reflexivity.
    + intros f q Q. rewrite Q. reflexivity.
  - intros Hd. rewrite Hd, andb_false_r.
    destruct (frameQueue d); discriminate.
  - rewrite Hstop, andb_false_r.
    destruct (frameQueue (stop d)); discriminate.
Qed.

End FrameQueue.

Lemma getAudioFrame_wait_and_shutdown_witness :
  Decoder.getAudioFrame (-1) parked_decoder = Blocks
  /\ Decoder.getAudioFrame 100 parked_decoder = Returns (None, parked_decoder)
  /\ Decoder.getAudioFrame (-1) (Decoder.stop parked_decoder) <> Blocks.
Proof.
  destruct (getAudioFrame_wait_and_shutdown (-1) parked_decoder)
    as (Hneg & _ & _ & Hstop).
  destruct (getAudioFrame_wait_and_shutdown 100 parked_decoder)
    as (_ & Hpos & _ & _).
  destruct (Hneg ltac:(lia)) as (Hpark & _ & _).
  destruct (Hpos ltac:(lia)) as (_ & Hexp & _).
  split; [|split].
  - apply Hpark. split; reflexivity.
  - apply Hexp. reflexivity.
  - exact Hstop.
Defined.

(** [stop] has no effect on a thread that is not parked yet, and a parked
    thread moves only when it is notified. *)
Lemma lost_wakeup_is_final :
  forall t,
    Race.step (Race.run stop_inside_the_window pop_beside_stop) t
    = Race.run stop_inside_the_window pop_beside_stop.
Proof. intros []; reflexivity. Qed.

(** C7. A pop that misses the shutdown.  On a started decoder with an
    empty queue a thread calls [getAudioFrame] with a negative timeout and
    finds its predicate false; before it reaches [wait(lock)] another
    thread runs [stop()], which lowers [isDecoding] and notifies without
    taking the mutex, so the notification finds nobody parked.  The first
    thread then parks, and stays parked whatever the two threads do next,
    although [isDecoding] is down and [stop()] has returned.  When [stop()]
    runs before the predicate is tested, or after the thread has parked,
    the pop returns [false]. *)
Theorem getAudioFrame_misses_shutdown :
  Decoder.frameQueue (Race.dec pop_beside_stop) = []
  /\ Decoder.isDecoding (Race.dec pop_beside_stop) = true
  /\ Decoder.isDecoding
       (Race.dec (Race.run stop_inside_the_window pop_beside_stop)) = false
  /\ Race.stp (Race.run stop_inside_the_window pop_beside_stop)
     = Race.StopReturned
  /\ Race.pop (Race.run stop_inside_the_window pop_beside_stop) = Race.InWait
  /\ (forall schedule,
        Race.pop (Race.run schedule
                           (Race.run stop_inside_the_window pop_beside_stop))
        = Race.InWait)
  /\ Race.pop (Race.run [Race.TheStopper; Race.TheStopper; Race.TheStopper;
                         Race.TheStopper; Race.ThePopper] pop_beside_stop)
     = Race.Popped None
  /\ Race.pop (Race.run [Race.ThePopper; Race.ThePopper; Race.TheStopper;
                         Race.TheStopper; Race.TheStopper; Race.TheStopper;
                         Race.ThePopper] pop_beside_stop)
     = Race.Popped None.
Proof.
  repeat split; try reflexivity.
  intros schedule.
  assert (H : Race.run schedule
                (Race.run stop_inside_the_window pop_beside_stop)
              = Race.run stop_inside_the_window pop_beside_stop).
  { induction schedule as [|t schedule IH]; [reflexivity|].
    unfold Race.run at 1. cbn [fold_left].
    rewrite lost_wakeup_is_final. exact IH. }
  rewrite H. reflexivity.
Qed.

(** ** The queue bound *)

Section QueueBound.

Import Decoder.

Lemma pushFrame_tail_bounded frame d b d' :
  (queue_size d < maxQueueSize (config d) \/ isDecoding d = false) ->
  pushFrame_tail frame d = (b, d') ->
  frame_queue_bounded d ->
  frame_queue_bounded d'.
Proof.
  intros Hroom Htail Hb. unfold pushFrame_tail in Htail.
  destruct (isDecoding d) eqn:E; simpl in Htail; inversion Htail; subst.
  - destruct Hroom as [Hroom|Hroom]; [|discriminate].
    unfold frame_queue_bounded, queue_size in *. simpl.
    rewrite length_app. simpl. lia.
  - exact Hb.
Qed.

Lemma notFull_pred_room d :
  notFull_pred d = true ->
  queue_size d < maxQueueSize (config d) \/ isDecoding d = false.
Proof.
  unfold notFull_pred. rewrite orb_true_iff, Z.ltb_lt, negb_true_iff. tauto.
Qed.

Lemma getAudioFrame_tail_bounded b d r d' :
  getAudioFrame_tail b d = (r, d') ->
  frame_queue_bounded d -> frame_queue_bounded d'.
Proof.
  unfold getAudioFrame_tail. intros H Hb.
  destruct (negb b || (queue_size d =? 0)); [inversion H; subst; exact Hb|].
  destruct (frameQueue d) as [|f q] eqn:Q; inversion H; subst; [exact Hb|].
  unfold frame_queue_bounded, queue_size in *. rewrite Q in Hb. simpl in *. lia.
Qed.

Lemma frame_queue_op_bounded d d' :
  frame_queue_op d d' -> frame_queue_bounded d -> frame_queue_bounded d'.
Proof.
  intros Hop Hb. destruct Hop as [frame d b d' H|frame d b d' Hp H|t d r d' H|d].
  - unfold pushFrame in H.
    destruct (maxQueueSize (config d) <=? queue_size d) eqn:Full.
    + destruct (dropFramesWhenFull (config d)).
      * inversion H; subst. exact Hb.
      * destruct (notFull_pred d) eqn:P; [|discriminate].
        inversion H as [H1]. apply notFull_pred_room in P.
        eapply pushFrame_tail_bounded; eauto.
    + apply Z.leb_gt in Full. inversion H as [H1].
      eapply pushFrame_tail_bounded; eauto.
  - apply notFull_pred_room in Hp. eapply pushFrame_tail_bounded; eauto.
  - unfold getAudioFrame in H.
    destruct (t <? 0); [destruct (available_pred d); [|discriminate]|];
      inversion H as [H1]; eapply getAudioFrame_tail_bounded; eauto.
  - unfold frame_queue_bounded, queue_size, flush in *. simpl.
    pose proof (queue_size_nonneg d). unfold queue_size in *. lia.
Qed.

(** X24. The frame queue's own operations keep it within capacity: after
    any sequence of [pushFrame] calls that return, parked [pushFrame] calls
    that go on once their predicate holds, [getAudioFrame] calls and
    [flush] calls, a queue that held at most [maxQueueSize] frames still
    does. *)
Lemma frame_queue_ops_bounded d d' :
  frame_queue_ops d d' -> frame_queue_bounded d -> frame_queue_bounded d'.
Proof.
  induction 1; intros Hb; [exact Hb|].
  eapply frame_queue_op_bounded; eauto.
Qed.

(** C3. The queue bound fails on the decode thread: [decodeLoop] appends
    each decoded frame with [frameQueue.push] and never goes through
    [pushFrame].  With the player's configuration ([maxQueueSize = 50],
    blocking policy) a stream of 51 audio packets leaves 51 frames queued
    when nothing is popped meanwhile. *)
Theorem decodeLoop_exceeds_maxQueueSize :
  frame_queue_bounded player_decoder
  /\ exists fc cc d',
       Models.run_decodeLoop 200 (audio_packets 51) (Models.mkCodec 0 [] [] false)
                             player_decoder = Some (fc, cc, d')
       /\ queue_size d' = 51
       /\ maxQueueSize (config d') = 50
       /\ ~ frame_queue_bounded d'.
Proof.
  split; [vm_compute; discriminate|].
  eexists. eexists. eexists.
  split; [vm_compute; reflexivity|].
  split; [vm_compute; reflexivity|].
  split; [vm_compute; reflexivity|].
  vm_compute. intros H. apply H. reflexivity.
Qed.

(** ** End of stream *)

(** C8. End of stream on a decoder that holds one frame back: at EOF the
    loop sends the flush packet and leaves, without receiving again.  The
    frame of the second packet is then ready inside the decoder but never
    reaches the frame queue. *)
Theorem decodeLoop_loses_held_frame :
  Models.run_decodeLoop 10 [packet1; packet2] (Models.mkCodec 1 [] [] false)
                        player_decoder
  = Some ([],
          Models.mkCodec 1 [] [Models.decode_packet packet2] true,
          set_frameQueue [Models.decode_packet packet1] player_decoder)
  /\ ~ In (Models.decode_packet packet2) [Models.decode_packet packet1].
Proof.
  split; [vm_compute; reflexivity|].
  simpl. intros [H|[]]. discriminate H.
Qed.

End QueueBound.

(** ** The buffered-size counter *)

Section BufferedSize.

Import Player.

Lemma wrap64_range z : 0 <= wrap64 z < 2 ^ 64.
Proof. unfold wrap64. apply Z.mod_pos_bound. reflexivity. Qed.

Lemma wrap64_small z : 0 <= z < 2 ^ 64 -> wrap64 z = z.
Proof. intros H. unfold wrap64. apply Z.mod_small. exact H. Qed.

Lemma wrap64_add_r a b : wrap64 (a + wrap64 b) = wrap64 (a + b).
Proof. unfold wrap64. apply Zplus_mod_idemp_r. Qed.

Lemma wrap64_add_l a b : wrap64 (wrap64 a + b) = wrap64 (a + b).
Proof. unfold wrap64. apply Zplus_mod_idemp_l. Qed.

Lemma fetch_add_after_cons n e sched delta cell :
  fetch_add_after (S n) (e :: sched) delta cell
  = fetch_add_after n sched delta (wrap64 (cell + other_delta e)).
Proof. reflexivity. Qed.

Lemma cas_loop_linearizes (delta : Z) (sched : list env_step) :
  forall cell, 0 <= cell < 2 ^ 64 ->
  exists n, (1 <= n <= S (length sched))%nat
            /\ cas_loop (S (length sched)) sched cell cell delta
               = Some (fetch_add_after n sched delta cell).
Proof.
  induction sched as [|e rest IH]; intros cell Hc.
  - exists 1%nat. split; [simpl; lia|].
    simpl. unfold compare_exchange_weak.
    rewrite Z.add_0_r, (wrap64_small cell Hc), Z.eqb_refl. simpl.
    unfold fetch_add_after. simpl. rewrite wrap64_add_r. reflexivity.
  - cbn [cas_loop length hd tl].
    set (cell1 := wrap64 (cell + other_delta e)).
    unfold compare_exchange_weak.
    destruct ((cell1 =? cell) && negb (spurious e)) eqn:E.
    + exists 1%nat. split; [simpl; lia|].
      apply andb_true_iff in E. destruct E as [E _]. apply Z.eqb_eq in E.
      rewrite fetch_add_after_cons. fold cell1. rewrite E.
      unfold fetch_add_after. simpl. rewrite wrap64_add_r. reflexivity.
    + destruct (IH cell1 (wrap64_range _)) as (n & Hn & Hrun).
      exists (S n). split; [simpl; lia|].
      rewrite fetch_add_after_cons. exact Hrun.
Qed.

Lemma In_firstn_In {A : Type} (x : A) (n : nat) (l : list A) :
  In x (firstn n l) -> In x l.
Proof.
  revert l. induction n as [|n IH]; intros [|a l] H; simpl in *; try tauto.
  destruct H as [H|H]; [left; exact H|right; apply IH; exact H].
Qed.

Lemma fold_no_interference (sched : list env_step) :
  (forall e, In e sched -> other_delta e = 0) ->
  forall cell, 0 <= cell < 2 ^ 64 ->
  fold_left (fun c e => wrap64 (c + other_delta e)) sched cell = cell.
Proof.
  induction sched as [|e rest IH]; intros Hq cell Hc; [reflexivity|].
  simpl. rewrite (Hq e (or_introl eq_refl)), Z.add_0_r, (wrap64_small _ Hc).
  apply IH; [|exact Hc]. intros e' He'. apply Hq. right. exact He'.
Qed.

(** C9. [updateBufferSize] is a fetch-add.  For every delta, every counter
    value [v] and every finite schedule of interference and spurious
    failures, the retry loop ends within [length sched + 1] exchanges and
    leaves what one atomic [fetch_add(delta)] executed at its successful
    exchange would leave; when no other thread moves the counter that is
    [v + delta] modulo [2^64], which is also what the call leaves at its
    two call sites, where the queue mutex is held. *)
Theorem updateBufferSize_is_fetch_add (sched : list env_step) (delta v : Z) :
  0 <= v < 2 ^ 64 ->
  (exists n, (1 <= n <= S (length sched))%nat
             /\ updateBufferSize_under (S (length sched)) sched delta v
                = Some (fetch_add_after n sched delta v))
  /\ ((forall e, In e sched -> other_delta e = 0) ->
      updateBufferSize_under (S (length sched)) sched delta v
      = Some (wrap64 (v + delta)))
  /\ updateBufferSize delta v = wrap64 (v + delta).
Proof.
  intros Hv. split; [|split].
  - apply cas_loop_linearizes. exact Hv.
  - intros Hq. destruct (cas_loop_linearizes delta sched v Hv) as (n & _ & Hrun).
    unfold updateBufferSize_under. rewrite Hrun. unfold fetch_add_after.
    rewrite fold_no_interference; [reflexivity| |exact Hv].
    intros e He. apply Hq. eapply In_firstn_In. exact He.
  - destruct (cas_loop_linearizes delta [] v Hv) as (n & _ & Hrun).
    unfold updateBufferSize, updateBufferSize_under.
    simpl length in Hrun. rewrite Hrun.
    unfold fetch_add_after. rewrite firstn_nil. reflexivity.
Qed.

Lemma updateBufferSize_is_fetch_add_witness :
  updateBufferSize_under 3 [mkEnv 0 true; mkEnv 0 true] (-4096) 8192
  = Some 4096
  /\ updateBufferSize (-1) 0 = 2 ^ 64 - 1.
Proof.
  destruct (updateBufferSize_is_fetch_add [mkEnv 0 true; mkEnv 0 true]
              (-4096) 8192 ltac:(lia)) as (_ & Hq & _).
  destruct (updateBufferSize_is_fetch_add [] (-1) 0 ltac:(lia)) as (_ & _ & Hs).
  split.
  - simpl length in Hq. rewrite Hq; [reflexivity|].
    intros e [He|[He|[]]]; subst e; reflexivity.
  - rewrite Hs. reflexivity.
Defined.

End BufferedSize.

(** ** The controller: seek and stop *)

Section ControllerProps.

Import Decoder Player.

Variable Seconds : Type.
Variable zero_seconds : Seconds.
Variable av_seek_ok : Seconds -> bool.

(** [seek] in closed form. *)
Lemma seek_unfold (t : Seconds) (s : AudioPlayer Seconds) (d : AudioDecoder) :
  decoder s = Some d ->
  seek av_seek_ok t s
  = mkPlayer (Some (Decoder.flush d)) (playerState s) [] (isPlaying s)
             (isPaused s) (volume s)
             (if av_seek_ok t then t else currentPosition s)
             (isDecodingThreadRunning s)
             (negb (State_eqb (playerState s) PLAYING))
             (swrContext s) (underrun s) (bufferedSize s).
Proof.
  intros Hd. unfold seek, AudioDecoder_seek. rewrite Hd.
  destruct s as [dec st q pl pa vol pos run dev swr un buf]. simpl in *.
  destruct (av_seek_ok t); destruct st; reflexivity.
Qed.

(** C1. Seek while PLAYING or PAUSED: afterwards the playback queue and
    the frame queue are empty; the position is the target when the decoder
    reports success and is left alone when it reports failure; the player
    state is kept, and the device is paused exactly when the player was
    PAUSED, which is the pause state the controller had given the device
    before the call. *)
Theorem seek_flushes_and_repositions
        (t : Seconds) (s : AudioPlayer Seconds) (d : AudioDecoder) :
  playerState s = PLAYING \/ playerState s = PAUSED ->
  decoder s = Some d ->
  audioQueue (seek av_seek_ok t s) = []
  /\ frame_queue (seek av_seek_ok t s) = []
  /\ (av_seek_ok t = true -> getCurrentPosition (seek av_seek_ok t s) = t)
  /\ (av_seek_ok t = false ->
      getCurrentPosition (seek av_seek_ok t s) = getCurrentPosition s)
  /\ playerState (seek av_seek_ok t s) = playerState s
  /\ devicePaused (seek av_seek_ok t s) = State_eqb (playerState s) PAUSED
  /\ (devicePaused s = State_eqb (playerState s) PAUSED ->
      devicePaused (seek av_seek_ok t s) = devicePaused s).
Proof.
  intros Hst Hd.
  rewrite (seek_unfold t s d Hd).
  unfold getCurrentPosition, frame_queue. simpl.
  assert (Hmute : negb (State_eqb (playerState s) PLAYING)
                  = State_eqb (playerState s) PAUSED).
  { destruct Hst as [Hst|Hst]; rewrite Hst; reflexivity. }
  split; [reflexivity|]. split; [reflexivity|].
  split; [intros Hok; rewrite Hok; reflexivity|].
  split; [intros Hok; rewrite Hok; reflexivity|].
  split; [reflexivity|].
  split; [exact Hmute|].
  intros Hpre. rewrite Hmute, Hpre. reflexivity.
Qed.

End ControllerProps.

Section ControllerInvariant.

Import Decoder Player.

Variable Seconds : Type.
Variable zero_seconds : Seconds.
Variable av_seek_ok : Seconds -> bool.

Lemma controller_call_invariant (s s' : AudioPlayer Seconds) :
  controller_call zero_seconds av_seek_ok s s' ->
  controller_invariant s -> controller_invariant s'.
Proof.
  intros Hc [Hd Hm]. unfold controller_invariant.
  destruct Hc as [stream s _|s|s|s|s|t s|v s];
    destruct s as [dec st q pl pa vol pos run dev swr un buf]; simpl in *;
    (destruct dec as [d|]; [|congruence]).
  - unfold loadFile_opened, stop. destruct st; simpl; split;
      solve [discriminate | reflexivity].
  - unfold play, resume. destruct st; simpl in *; split;
      solve [discriminate | reflexivity | assumption].
  - unfold pause. destruct st; simpl in *; split;
      solve [discriminate | reflexivity | assumption].
  - unfold resume. destruct st; simpl in *; split;
      solve [discriminate | reflexivity | assumption].
  - unfold stop. destruct st; simpl in *; split;
      solve [discriminate | reflexivity | assumption].
  - rewrite (seek_unfold Seconds av_seek_ok t
               (mkPlayer (Some d) st q pl pa vol pos run dev swr un buf) d eq_refl).
    simpl. split; solve [discriminate | reflexivity].
  - unfold setVolume. simpl. split; solve [discriminate | assumption].
Qed.

(** Every state the public interface reaches from a fresh player has a
    decoder, and its device is paused exactly when the player is not
    PLAYING. *)
Lemma controller_reaches_invariant (s : AudioPlayer Seconds) :
  controller_reaches zero_seconds av_seek_ok s -> controller_invariant s.
Proof.
  induction 1 as [|s s' _ IH Hc].
  - split; [discriminate|reflexivity].
  - eapply controller_call_invariant; eauto.
Qed.

End ControllerInvariant.

Lemma seek_flushes_and_repositions_witness :
  Player.frame_queue playing_with_frame <> []
  /\ Player.audioQueue playing_with_frame <> []
  /\ Player.audioQueue (Player.seek always_seekable 5 playing_with_frame) = []
  /\ Player.frame_queue (Player.seek always_seekable 5 playing_with_frame) = []
  /\ Player.getCurrentPosition (Player.seek always_seekable 5 playing_with_frame) = 5
  /\ Player.devicePaused (Player.seek always_seekable 5 playing_with_frame) = false.
Proof.
  destruct (seek_flushes_and_repositions Z always_seekable 5 playing_with_frame
              (Decoder.set_frameQueue [Models.decode_packet packet1]
                 (Decoder.start
                    (Decoder.mkDecoder (Decoder.mkConfig 50 10 false) 0 false [] [])))
              (or_introl eq_refl) eq_refl)
    as (Hq & Hf & Hok & _ & _ & Hmute & _).
  split; [vm_compute; discriminate|].
  split; [vm_compute; discriminate|].
  split; [exact Hq|].
  split; [exact Hf|].
  split; [apply Hok; reflexivity|].
  exact Hmute.
Defined.

(** ** The realtime callback *)

Section Callback.

Import Decoder Player.

Variable Seconds : Type.
Variable mix : list Z -> list Z -> Z -> list Z.

Local Abbreviation fill_loop := (Player.fill_loop mix).

Lemma fill_loop_written under vol q :
  forall len tc buf w q' len' buf' w',
    fill_loop under vol q len tc buf w = (q', len', buf', w') ->
    exists tail, w' = w ++ tail.
Proof.
  induction q as [|data rest IH]; intros len tc buf w q' len' buf' w' H.
  - inversion H; subst. exists []. rewrite app_nil_r. reflexivity.
  - simpl in H. destruct (len <=? 0).
    + inversion H; subst. exists []. rewrite app_nil_r. reflexivity.
    + destruct (Z.min len (chunk_size data) <? chunk_size data).
      * inversion H; subst. eexists. reflexivity.
      * apply IH in H. destruct H as [tail H]. rewrite <- app_assoc in H.
        eexists. exact H.
Qed.

Lemma fill_loop_cons under vol data rest len tc buf w :
  fill_loop under vol (data :: rest) len tc buf w
  = if len <=? 0 then (data :: rest, len, buf, w)
    else
      let copyLen := Z.min len (chunk_size data) in
      let seg :=
        if under && (tc =? 0) then fade_segment data copyLen
        else mix (repeat 0 (Z.to_nat copyLen)) (firstn (Z.to_nat copyLen) data) vol in
      if copyLen <? chunk_size data then
        (skipn (Z.to_nat copyLen) data :: rest, len - copyLen,
         updateBufferSize (- copyLen) buf, w ++ seg)
      else
        fill_loop under vol rest (len - copyLen) (tc + copyLen)
                  (updateBufferSize (- chunk_size data) buf) (w ++ seg).
Proof. reflexivity. Qed.

(** The first chunk of a callback that runs with the underrun flag up is
    written through [fade_segment]. *)
Lemma fill_loop_fades_first vol data rest len buf :
  0 < len ->
  exists q' len' buf' tail,
    fill_loop true vol (data :: rest) len 0 buf []
    = (q', len', buf',
       fade_segment data (Z.min len (chunk_size data)) ++ tail).
Proof.
  intros Hlen. rewrite fill_loop_cons.
  destruct (len <=? 0) eqn:E; [apply Z.leb_le in E; lia|].
  cbv zeta. rewrite Z.eqb_refl. cbn [andb app].
  destruct (Z.min len (chunk_size data) <? chunk_size data).
  - do 3 eexists. exists []. rewrite app_nil_r. reflexivity.
  - match goal with
    | |- context [Player.fill_loop ?m ?a ?b ?c ?d ?e ?f ?g] =>
        destruct (Player.fill_loop m a b c d e f g)
          as [[[q' len'] buf'] w'] eqn:R
    end.
    destruct (fill_loop_written _ _ _ _ _ _ _ _ _ _ _ R) as [tail Ht].
    subst w'. do 3 eexists. exists tail. reflexivity.
Qed.

Lemma fade_byte_first b n : fade_byte b 0 n = 0.
Proof.
  unfold fade_byte, Float32.fmul, Float32.fdiv.
  replace (Float32.of_int 0) with ((0, 1) : Float32.float) by reflexivity.
  cbn [fst snd]. rewrite Z.mul_0_l.
  replace (Float32.f32_round (0, 1 * fst (Float32.of_int n)))
    with ((0, 1) : Float32.float) by reflexivity.
  cbn [fst snd]. rewrite Z.mul_0_r. reflexivity.
Qed.

End Callback.

Section CallbackVolume.

Import Decoder Player.

Variable Seconds : Type.

(** What a callback takes off the queue does not depend on the volume, on
    the underrun flag or on the mixer. *)
Lemma fill_loop_consumption mix1 mix2 under1 under2 vol1 vol2 q :
  forall len tc1 tc2 buf w1 w2,
    fst (Player.fill_loop mix1 under1 vol1 q len tc1 buf w1)
    = fst (Player.fill_loop mix2 under2 vol2 q len tc2 buf w2).
Proof.
  induction q as [|data rest IH]; intros len tc1 tc2 buf w1 w2;
    [reflexivity|].
  simpl. destruct (len <=? 0); [reflexivity|].
  destruct (Z.min len (chunk_size data) <? chunk_size data); [reflexivity|].
  apply IH.
Qed.

Lemma repeat_add {A : Type} (x : A) (a b : Z) :
  0 <= a -> 0 <= b ->
  repeat x (Z.to_nat a) ++ repeat x (Z.to_nat b) = repeat x (Z.to_nat (a + b)).
Proof.
  intros Ha Hb. rewrite Z2Nat.inj_add by assumption.
  symmetry. apply repeat_app.
Qed.

Lemma fill_loop_cons_neg mix under vol data rest len tc buf w :
  len <= 0 ->
  Player.fill_loop mix under vol (data :: rest) len tc buf w
  = (data :: rest, len, buf, w).
Proof.
  intros H. simpl. apply Z.leb_le in H. rewrite H. reflexivity.
Qed.

Lemma chunk_size_nonneg data : 0 <= chunk_size data.
Proof. unfold chunk_size. lia. Qed.

(** With the underrun flag down and a mixer that leaves its destination
    alone at volume 0, the loop writes zeros only. *)
Lemma fill_loop_silent mix q :
  (forall dst src, mix dst src 0 = dst) ->
  forall len tc buf w q' len' buf' w',
    0 <= len ->
    Player.fill_loop mix false 0 q len tc buf w = (q', len', buf', w') ->
    0 <= len' <= len /\ w' = w ++ repeat 0 (Z.to_nat (len - len')).
Proof.
  intros Hmix. induction q as [|data rest IH];
    intros len tc buf w q' len' buf' w' Hlen H.
  - inversion H; subst. rewrite Z.sub_diag, app_nil_r. split; [lia|reflexivity].
  - simpl in H. destruct (len <=? 0) eqn:E.
    + inversion H; subst. rewrite Z.sub_diag, app_nil_r. split; [lia|reflexivity].
    + apply Z.leb_gt in E. pose proof (chunk_size_nonneg data) as Hs.
      rewrite Hmix in H.
      destruct (Z.min len (chunk_size data) <? chunk_size data) eqn:P.
      * inversion H; subst. split; [lia|].
        f_equal. f_equal. f_equal. lia.
      * apply IH in H; [|lia]. destruct H as [Hr Hw]. split; [lia|].
        rewrite Hw, <- app_assoc. f_equal.
        rewrite repeat_add by lia. f_equal. f_equal. lia.
Qed.

Lemma fillAudioBuffer_cons mix len (s : AudioPlayer Seconds) data rest q' len' buf' w' :
  audioQueue s = data :: rest ->
  Player.fill_loop mix (underrun s) (volume s) (data :: rest) len 0
                   (bufferedSize s) [] = (q', len', buf', w') ->
  fillAudioBuffer mix len s
  = (set_underrun false (set_bufferedSize buf' (set_audioQueue q' s)),
     w' ++ repeat 0 (Z.to_nat len')).
Proof.
  intros Hq Hrun. unfold fillAudioBuffer. rewrite Hq, Hrun. reflexivity.
Qed.

(** X26. Volume zero outside underrun recovery: with the underrun flag
    down and a mixer that leaves its destination alone at volume 0, the
    callback after [setVolume(0)] returns silence, and it takes from the
    queue and off the counter exactly what it takes at any other volume and
    with any other mixer. *)
Lemma fillAudioBuffer_volume_zero mix (len : Z) (s : AudioPlayer Seconds) :
  (forall dst src, mix dst src 0 = dst) ->
  underrun s = false ->
  snd (fillAudioBuffer mix len (setVolume 0 s)) = repeat 0 (Z.to_nat len)
  /\ forall mix' v,
       audioQueue (fst (fillAudioBuffer mix len (setVolume 0 s)))
       = audioQueue (fst (fillAudioBuffer mix' len (setVolume v s)))
       /\ bufferedSize (fst (fillAudioBuffer mix len (setVolume 0 s)))
          = bufferedSize (fst (fillAudioBuffer mix' len (setVolume v s))).
Proof.
  intros Hmix Hu.
  destruct (audioQueue s) as [|data rest] eqn:Q.
  - unfold fillAudioBuffer, setVolume. simpl. rewrite Q.
    split; [reflexivity|]. intros; split; reflexivity.
  - destruct (Player.fill_loop mix false 0 (data :: rest) len 0
                               (bufferedSize s) [])
      as [[[q' len'] buf'] w'] eqn:R.
    assert (E0 : fillAudioBuffer mix len (setVolume 0 s)
                 = (set_underrun false
                      (set_bufferedSize buf' (set_audioQueue q' (setVolume 0 s))),
                    w' ++ repeat 0 (Z.to_nat len'))).
    { apply (fillAudioBuffer_cons mix len (setVolume 0 s) data rest).
      - exact Q.
      - simpl. rewrite Hu. exact R. }
    rewrite E0. split.
    + cbn [snd]. destruct (Z.le_gt_cases 0 len) as [Hlen|Hlen].
      * apply fill_loop_silent in R; [|assumption|assumption].
        destruct R as [Hr Hw]. subst w'. cbn [app].
        rewrite repeat_add by lia. f_equal. f_equal. lia.
      * rewrite fill_loop_cons_neg in R by lia. inversion R; subst. reflexivity.
    + intros mix' v.
      destruct (Player.fill_loop mix' false (clamp v 0 SDL_MIX_MAXVOLUME)
                                 (data :: rest) len 0 (bufferedSize s) [])
        as [[[q2 len2] buf2] w2] eqn:R2.
      assert (Ev : fillAudioBuffer mix' len (setVolume v s)
                   = (set_underrun false
                        (set_bufferedSize buf2 (set_audioQueue q2 (setVolume v s))),
                      w2 ++ repeat 0 (Z.to_nat len2))).
      { apply (fillAudioBuffer_cons mix' len (setVolume v s) data rest).
        - exact Q.
        - simpl. rewrite Hu. exact R2. }
      rewrite Ev. cbn [fst].
      pose proof (fill_loop_consumption mix mix' false false 0
                    (clamp v 0 SDL_MIX_MAXVOLUME)
                    (data :: rest) len 0 0 (bufferedSize s) [] []) as Hc.
      rewrite R, R2 in Hc. simpl in Hc. inversion Hc; subst.
      split; reflexivity.
Qed.

End CallbackVolume.

(** A callback that runs dry half-way neither fades what it had nor
    raises the flag. *)
Example dry_callback_is_not_faded :
  let s := Player.enqueue_push [200; 100] playing_player in
  snd (Player.fillAudioBuffer Models.SDL_MixAudioFormat 4 s) = [200; 100; 0; 0]
  /\ Player.underrun (fst (Player.fillAudioBuffer Models.SDL_MixAudioFormat 4 s))
     = false.
Proof. split; vm_compute; reflexivity. Qed.

(** C5. Volume zero during underrun recovery: after a callback on an
    empty queue, [setVolume(0)] and one queued chunk, the next callback
    takes the chunk off the queue but writes it through the fade, which
    does not look at the volume; the buffer holds 0, 127 rather than
    zeros, whatever the mixer is. *)
Theorem fade_ignores_volume_zero (mix : list Z -> list Z -> Z -> list Z) :
  Player.getVolume (muted_recovering_player mix) = 0
  /\ Player.audioQueue (muted_recovering_player mix) = [[255; 255]]
  /\ Player.underrun (muted_recovering_player mix) = true
  /\ snd (Player.fillAudioBuffer mix 2 (muted_recovering_player mix)) = [0; 127]
  /\ Player.audioQueue
       (fst (Player.fillAudioBuffer mix 2 (muted_recovering_player mix))) = [].
Proof.
  repeat split; vm_compute; reflexivity.
Qed.

(** ** Repacking a decoded frame (first revision) *)

Section Interleave.

Import PlayerV1.
Local Open Scope nat_scope.

Lemma sample_bytes_length b src i :
  i * b + b <= length src -> length (sample_bytes b src i) = b.
Proof.
  intros H. unfold sample_bytes. rewrite length_firstn, length_skipn. lia.
Qed.

Lemma sample_bytes_nth b src i j :
  j < b -> nth j (sample_bytes b src i) 0%Z = nth (i * b + j) src 0%Z.
Proof.
  intros H. unfold sample_bytes. rewrite nth_firstn.
  destruct (j <? b) eqn:E; [|apply Nat.ltb_ge in E; lia].
  rewrite nth_skipn. reflexivity.
Qed.

Lemma write_bytes_prefix buf dst bytes :
  dst + length bytes <= length buf ->
  exists buf',
    write_bytes buf dst bytes = Some buf'
    /\ length buf' = length buf
    /\ firstn (dst + length bytes) buf' = firstn dst buf ++ bytes.
Proof.
  intros H. unfold write_bytes.
  destruct (dst + length bytes <=? length buf) eqn:E;
    [|apply Nat.leb_gt in E; lia].
  eexists. split; [reflexivity|]. split.
  - rewrite !length_app, length_firstn, length_skipn. lia.
  - rewrite app_assoc. rewrite firstn_app.
    rewrite length_app, length_firstn.
    replace (dst + length bytes - (Nat.min dst (length buf) + length bytes))
      with 0 by lia.
    rewrite firstn_O, app_nil_r. apply firstn_all2.
    rewrite length_app, length_firstn. lia.
Qed.

Lemma length_concat_uniform (k : nat) (ls : list (list Z)) :
  (forall l, In l ls -> length l = k) -> length (concat ls) = length ls * k.
Proof.
  induction ls as [|l ls IH]; intros H; [reflexivity|].
  simpl. rewrite length_app, (H l (or_introl eq_refl)), IH; [lia|].
  intros l' Hl'. apply H. right. exact Hl'.
Qed.

Lemma nth_concat_uniform (k : nat) (ls : list (list Z)) :
  (forall l, In l ls -> length l = k) ->
  forall a j, j < k -> a < length ls ->
  nth (a * k + j) (concat ls) 0%Z = nth j (nth a ls []) 0%Z.
Proof.
  induction ls as [|l ls IH]; intros H a j Hj Ha; [simpl in Ha; lia|].
  pose proof (H l (or_introl eq_refl)) as Hl.
  destruct a as [|a]; simpl.
  - rewrite app_nth1 by lia. reflexivity.
  - rewrite app_nth2 by lia.
    replace (k + a * k + j - length l) with (a * k + j) by lia.
    apply IH; [|exact Hj|simpl in Ha; lia].
    intros l' Hl'. apply H. right. exact Hl'.
Qed.

Section Planar.

Variable frame : AVFrame.
Variables s c b : nat.

(** The planes of a planar frame: one per channel, within the
    [AV_NUM_DATA_POINTERS] slots of [frame->data], each holding the [s]
    samples. *)
Hypothesis planes_fit : (Z.of_nat c <= AV_NUM_DATA_POINTERS)%Z.
Hypothesis planes_hold :
  forall ch, ch < c ->
  exists src, nth_error (data frame) ch = Some src /\ s * b <= length src.

Lemma plane_channel ch :
  ch < c -> plane frame ch = Some (channel_plane frame ch)
            /\ s * b <= length (channel_plane frame ch).
Proof.
  intros Hch. destruct (planes_hold ch Hch) as (src & Hsrc & Hlen).
  unfold plane, channel_plane.
  destruct (Z.of_nat ch <? AV_NUM_DATA_POINTERS)%Z eqn:E;
    [|apply Z.ltb_ge in E; lia].
  rewrite Hsrc. rewrite (nth_error_nth _ _ _ Hsrc). split; [reflexivity|exact Hlen].
Qed.

Lemma copy_row i :
  i < s ->
  forall chs buf dst,
    (forall ch, In ch chs -> ch < c) ->
    dst + length chs * b <= length buf ->
    exists buf',
      fold_left (copy_sample frame b i) chs (Some (buf, dst))
      = Some (buf', dst + length chs * b)
      /\ length buf' = length buf
      /\ firstn (dst + length chs * b) buf'
         = firstn dst buf
           ++ concat (map (fun ch => sample_bytes b (channel_plane frame ch) i) chs).
Proof.
  intros Hi. induction chs as [|ch chs IH]; intros buf dst Hchs Hroom.
  - exists buf. simpl. rewrite Nat.add_0_r, app_nil_r. repeat split.
  - simpl in Hroom.
    destruct (plane_channel ch (Hchs ch (or_introl eq_refl))) as [Hp Hlen].
    assert (Hsample : i * b + b <= length (channel_plane frame ch)) by nia.
    destruct (write_bytes_prefix buf dst (sample_bytes b (channel_plane frame ch) i))
      as (buf1 & Hw & Hl1 & Hf1).
    { rewrite sample_bytes_length by exact Hsample. lia. }
    rewrite sample_bytes_length in Hf1 by exact Hsample.
    destruct (IH buf1 (dst + b)) as (buf' & Hrun & Hl' & Hf').
    { intros ch' Hch'. apply Hchs. right. exact Hch'. }
    { rewrite Hl1. lia. }
    exists buf'. split; [|split].
    + cbn [fold_left copy_sample]. rewrite Hp. unfold memcpy, read_bytes.
      destruct (i * b + b <=? length (channel_plane frame ch)) eqn:E;
        [|apply Nat.leb_gt in E; lia].
      fold (sample_bytes b (channel_plane frame ch) i). rewrite Hw.
      rewrite Hrun. f_equal. f_equal. simpl. lia.
    + rewrite Hl'. exact Hl1.
    + replace (dst + length (ch :: chs) * b)
        with (dst + b + length chs * b) by (simpl; lia).
      rewrite Hf', Hf1, <- app_assoc. reflexivity.
Qed.

Lemma row_length i : i < s -> length (row frame c b i) = c * b.
Proof.
  intros Hi. unfold row.
  rewrite (length_concat_uniform b).
  - rewrite length_map, length_seq. reflexivity.
  - intros l Hl. apply in_map_iff in Hl. destruct Hl as (ch & <- & Hch).
    apply in_seq in Hch. destruct (plane_channel ch) as [_ Hlen]; [lia|].
    apply sample_bytes_length. nia.
Qed.

Lemma copy_rows :
  forall rows buf dst,
    (forall i, In i rows -> i < s) ->
    dst + length rows * (c * b) <= length buf ->
    exists buf',
      fold_left (copy_frame_row frame b c) rows (Some (buf, dst))
      = Some (buf', dst + length rows * (c * b))
      /\ length buf' = length buf
      /\ firstn (dst + length rows * (c * b)) buf'
         = firstn dst buf ++ concat (map (row frame c b) rows).
Proof.
  induction rows as [|i rows IH]; intros buf dst Hrows Hroom.
  - exists buf. simpl. rewrite Nat.add_0_r, app_nil_r. repeat split.
  - simpl in Hroom.
    destruct (copy_row i (Hrows i (or_introl eq_refl)) (seq 0 c) buf dst)
      as (buf1 & Hrun1 & Hl1 & Hf1).
    { intros ch Hch. apply in_seq in Hch. lia. }
    { rewrite length_seq. lia. }
    rewrite length_seq in Hrun1, Hf1.
    destruct (IH buf1 (dst + c * b)) as (buf' & Hrun & Hl' & Hf').
    { intros i' Hi'. apply Hrows. right. exact Hi'. }
    { rewrite Hl1. lia. }
    exists buf'. split; [|split].
    + cbn [fold_left]. unfold copy_frame_row at 2. rewrite Hrun1, Hrun.
      f_equal. f_equal. simpl. lia.
    + rewrite Hl'. exact Hl1.
    + replace (dst + length (i :: rows) * (c * b))
        with (dst + c * b + length rows * (c * b)) by (simpl; lia).
      rewrite Hf', Hf1, <- app_assoc. reflexivity.
Qed.

Lemma interleaved_nth i ch j :
  i < s -> ch < c -> j < b ->
  nth ((i * c + ch) * b + j) (concat (map (row frame c b) (seq 0 s))) 0%Z
  = nth (i * b + j) (channel_plane frame ch) 0%Z.
Proof.
  intros Hi Hch Hj.
  replace ((i * c + ch) * b + j) with (i * (c * b) + (ch * b + j)) by lia.
  rewrite (nth_concat_uniform (c * b)).
  - replace (nth i (map (row frame c b) (seq 0 s)) []) with (row frame c b i).
    + unfold row. rewrite (nth_concat_uniform b).
      * replace (nth ch (map (fun ch0 => sample_bytes b (channel_plane frame ch0) i)
                             (seq 0 c)) [])
          with (sample_bytes b (channel_plane frame ch) i).
        -- apply sample_bytes_nth. exact Hj.
        -- rewrite (nth_indep _ [] (sample_bytes b (channel_plane frame 0) i))
             by (rewrite length_map, length_seq; exact Hch).
           rewrite (map_nth (fun ch0 => sample_bytes b (channel_plane frame ch0) i)).
           rewrite seq_nth by exact Hch. reflexivity.
      * intros l Hl. apply in_map_iff in Hl. destruct Hl as (ch' & <- & Hch').
        apply in_seq in Hch'. destruct (plane_channel ch') as [_ Hlen]; [lia|].
        apply sample_bytes_length. nia.
      * exact Hj.
      * rewrite length_map, length_seq. exact Hch.
    + rewrite (nth_indep _ [] (row frame c b 0))
        by (rewrite length_map, length_seq; exact Hi).
      rewrite (map_nth (row frame c b)). rewrite seq_nth by exact Hi. reflexivity.
  - intros l Hl. apply in_map_iff in Hl. destruct Hl as (i' & <- & Hi').
    apply in_seq in Hi'. apply row_length. lia.
  - nia.
  - rewrite length_map, length_seq. exact Hi.
Qed.

End Planar.

End Interleave.

Section InterleaveClaim.

Import PlayerV1.
Local Open Scope nat_scope.

(** Repacking within the reach of [frame->data]: for a frame of [s]
    samples, [c] channels and [b] bytes per sample (planes present and long
    enough, sizes within [int], at most [AV_NUM_DATA_POINTERS] channels
    when planar) [processDecodedFrame] builds a buffer of exactly
    [s * c * b] bytes.  For a planar format byte [j] of channel [ch] at
    sample [i] lands at offset [(i * c + ch) * b + j]; for an interleaved
    format the buffer is the first [s * c * b] bytes of plane 0. *)
Theorem processDecodedFrame_interleaves
        (planar : bool) (s c b : nat) (frame : AVFrame) :
  nb_samples frame = Z.of_nat s ->
  (Z.of_nat (s * b) <= INT_MAX)%Z ->
  (Z.of_nat (s * c * b) <= INT_MAX)%Z ->
  (if planar
   then (Z.of_nat c <= AV_NUM_DATA_POINTERS)%Z
        /\ forall ch, ch < c ->
           exists src, nth_error (data frame) ch = Some src
                       /\ s * b <= length src
   else exists src, nth_error (data frame) 0 = Some src
                    /\ s * c * b <= length src) ->
  exists buf,
    processDecodedFrame_buffer planar (Z.of_nat b) (Z.of_nat c) frame = Some buf
    /\ length buf = s * c * b
    /\ (planar = true ->
        forall i ch j, i < s -> ch < c -> j < b ->
        nth ((i * c + ch) * b + j) buf 0%Z
        = nth (i * b + j) (nth ch (data frame) []) 0%Z)
    /\ (planar = false -> buf = firstn (s * c * b) (nth 0 (data frame) [])).
Proof.
  intros Hs Hrow Hmax Hwf. unfold processDecodedFrame_buffer.
  rewrite Hs, <- !Nat2Z.inj_mul.
  assert (Htot : (s * b * c = s * c * b)) by lia.
  destruct ((INT_MAX <? Z.abs (Z.of_nat (s * b)))%Z
            || (Z.of_nat (s * b * c) <? 0)%Z
            || (INT_MAX <? Z.of_nat (s * b * c))%Z) eqn:E.
  { apply orb_true_iff in E. destruct E as [E|E].
    - apply orb_true_iff in E. destruct E as [E|E].
      + apply Z.ltb_lt in E. lia.
      + apply Z.ltb_lt in E. lia.
    - apply Z.ltb_lt in E. lia. }
  rewrite !Nat2Z.id.
  destruct planar.
  - destruct Hwf as [Hfit Hhold].
    destruct (copy_rows frame s c b Hfit Hhold (seq 0 s)
                        (repeat 0%Z (s * b * c)) 0)
      as (buf & Hrun & Hlen & Hpre).
    { intros i Hi. apply in_seq in Hi. lia. }
    { rewrite length_seq, repeat_length. lia. }
    rewrite length_seq in Hrun, Hpre. rewrite repeat_length in Hlen.
    rewrite Hrun. exists buf.
    assert (Hbuf : buf = concat (map (row frame c b) (seq 0 s))).
    { cbn [firstn app Nat.add] in Hpre. rewrite <- Hpre.
      symmetry. apply firstn_all2. lia. }
    split; [reflexivity|]. split; [lia|]. split; [|discriminate].
    intros _ i ch j Hi Hch Hj. rewrite Hbuf.
    apply (interleaved_nth frame s c b Hfit Hhold); assumption.
  - destruct Hwf as (src & Hsrc & Hlen).
    unfold plane. change (Z.of_nat 0 <? AV_NUM_DATA_POINTERS)%Z with true.
    cbv iota. rewrite Hsrc. unfold memcpy, read_bytes.
    change (0 + s * b * c) with (s * b * c).
    destruct (s * b * c <=? length src) eqn:E1; [|apply Nat.leb_gt in E1; lia].
    change (skipn 0 src) with src.
    unfold write_bytes. rewrite length_firstn, repeat_length.
    change (0 + Nat.min (s * b * c) (length src))
      with (Nat.min (s * b * c) (length src)).
    destruct (Nat.min (s * b * c) (length src) <=? s * b * c) eqn:E2;
      [|apply Nat.leb_gt in E2; lia].
    eexists. split; [reflexivity|].
    rewrite (nth_error_nth _ _ _ Hsrc).
    change (firstn 0 (repeat 0%Z (s * b * c))) with (@nil Z).
    rewrite skipn_all2, app_nil_r by (rewrite repeat_length; lia).
    split; [simpl; rewrite length_firstn; lia|].
    split; [discriminate|]. intros _. rewrite Htot. reflexivity.
Qed.

End InterleaveClaim.

Lemma processDecodedFrame_interleaves_witness :
  PlayerV1.processDecodedFrame_buffer true 2 2 stereo_s16_frame
  = Some [10; 11; 20; 21; 12; 13; 22; 23]
  /\ PlayerV1.processDecodedFrame_buffer false 1 2
       (mkFrame 2 44100 0 0 [[1; 2; 3; 4; 5]]) = Some [1; 2; 3; 4].
Proof.
  destruct (processDecodedFrame_interleaves true 2 2 2 stereo_s16_frame)
    as (buf & Hbuf & _).
  - reflexivity.
  - vm_compute. discriminate.
  - vm_compute. discriminate.
  - split; [vm_compute; discriminate|].
    intros ch Hch.
    destruct ch as [|[|ch]]; [eexists; split; [reflexivity|simpl; lia]..|lia].
  - destruct (processDecodedFrame_interleaves false 2 2 1
                (mkFrame 2 44100 0 0 [[1; 2; 3; 4; 5]]))
      as (buf2 & Hbuf2 & _).
    + reflexivity.
    + vm_compute. discriminate.
    + vm_compute. discriminate.
    + eexists. split; [reflexivity|simpl; lia].
    + split; reflexivity.
Defined.

(** C10. Repacking a planar frame of nine channels.  The inner loop
    indexes [frame->data] with the channel number, and that array has
    [AV_NUM_DATA_POINTERS = 8] entries: at channel 8 the read leaves the
    array, so no buffer with the nine channels interleaved is built.  The
    first eight channels of the same frame are repacked as stated. *)
Theorem processDecodedFrame_reads_past_data :
  length (data nine_channel_frame) = 9%nat
  /\ PlayerV1.plane nine_channel_frame 7 = Some [15; 16]
  /\ PlayerV1.plane nine_channel_frame 8 = None
  /\ PlayerV1.processDecodedFrame_buffer true 2 9 nine_channel_frame = None
  /\ ~ interleave_claim true 1 9 2 nine_channel_frame
  /\ interleave_claim true 1 8 2 nine_channel_frame
  /\ PlayerV1.processDecodedFrame_buffer true 2 8 nine_channel_frame
     = Some [1; 2; 3; 4; 5; 6; 7; 8; 9; 10; 11; 12; 13; 14; 15; 16].
Proof.
  split; [reflexivity|]. split; [reflexivity|]. split; [reflexivity|].
  split; [reflexivity|].
  split.
  - intros (buf & Hbuf & _). vm_compute in Hbuf. discriminate Hbuf.
  - split; [|reflexivity].
    destruct (processDecodedFrame_interleaves true 1 8 2 nine_channel_frame)
      as (buf & Hbuf & Hlen & Hpl & Hil).
    + reflexivity.
    + vm_compute. discriminate.
    + vm_compute. discriminate.
    + split; [vm_compute; discriminate|].
      intros ch Hch.
      do 8 (destruct ch as [|ch];
            [eexists; split; [reflexivity|simpl; lia]|]).
      lia.
    + exists buf. repeat split; assumption.
Qed.

(** ** The playback queue stays within its bound *)

Section PlaybackBound.

Import Decoder Player.

Variable Seconds : Type.
Variable zero_seconds : Seconds.
Variable av_seek_ok : Seconds -> bool.
Variable mix : list Z -> list Z -> Z -> list Z.

(** A chunk that is only partly consumed uses up the whole remaining
    length, so the callback's loop ends there. *)
Lemma partial_chunk_ends_loop (len : Z) (data : list Z) :
  Z.min len (chunk_size data) < chunk_size data ->
  len - Z.min len (chunk_size data) = 0.
Proof. intros H. lia. Qed.

Lemma fill_loop_shrinks under vol q :
  forall len tc buf w q' len' buf' w',
    Player.fill_loop mix under vol q len tc buf w = (q', len', buf', w') ->
    (length q' <= length q)%nat.
Proof.
  induction q as [|data rest IH]; intros len tc buf w q' len' buf' w' H.
  - inversion H; subst. apply Nat.le_refl.
  - simpl in H. destruct (len <=? 0).
    + inversion H; subst. apply Nat.le_refl.
    + destruct (Z.min len (chunk_size data) <? chunk_size data).
      * inversion H; subst. apply Nat.le_refl.
      * apply IH in H. simpl. apply le_S. exact H.
Qed.

Lemma fillAudioBuffer_shrinks len (s : AudioPlayer Seconds) :
  playback_size (fst (fillAudioBuffer mix len s)) <= playback_size s.
Proof.
  unfold fillAudioBuffer, playback_size.
  destruct (audioQueue s) as [|data rest] eqn:Q.
  - simpl. rewrite Q. simpl. lia.
  - destruct (Player.fill_loop mix (underrun s) (volume s) (data :: rest) len 0
                               (bufferedSize s) [])
      as [[[q' len'] buf'] w'] eqn:R.
    apply fill_loop_shrinks in R. simpl in *. lia.
Qed.

Lemma enqueue_push_size data (s : AudioPlayer Seconds) :
  playback_size (enqueue_push data s) = playback_size s + 1.
Proof.
  unfold enqueue_push, playback_size. simpl. rewrite length_app. simpl. lia.
Qed.

(** X25. Every operation on the playback queue keeps it within
    [MAX_QUEUE_SIZE]: the enqueue of [processDecodedFrame] and
    [pushAudioData] (returning at once or going on after their wait), the
    callback, [stop] and [seek] each turn a queue of at most 50 chunks
    into a queue of at most 50 chunks. *)
Lemma playback_queue_op_bounded (s s' : AudioPlayer Seconds) :
  playback_queue_op zero_seconds av_seek_ok mix s s' ->
  playback_queue_bounded s -> playback_queue_bounded s'.
Proof.
  unfold playback_queue_bounded.
  intros Hop Hb.
  destruct Hop as [data s s' H|data s Hp|data s b s' H|data s b s' Hp H
                   |len s|s|t s].
  - unfold processDecodedFrame_enqueue in H.
    destruct (MAX_QUEUE_SIZE <=? playback_size s) eqn:Full.
    + destruct (enqueue_pred s) eqn:P; [|discriminate].
      inversion H; subst. unfold enqueue_resumed.
      unfold enqueue_pred in P. apply Z.leb_le in Full.
      destruct (isDecodingThreadRunning s); simpl in *; [|exact Hb].
      rewrite orb_false_r in P. apply Z.ltb_lt in P. lia.
    + apply Z.leb_gt in Full. inversion H; subst.
      rewrite enqueue_push_size. lia.
  - unfold enqueue_resumed. unfold enqueue_pred in Hp.
    destruct (isDecodingThreadRunning s); simpl in *; [|exact Hb].
    rewrite orb_false_r in Hp. apply Z.ltb_lt in Hp.
    rewrite enqueue_push_size. lia.
  - unfold pushAudioData in H.
    destruct (negb (isPlaying s) || (chunk_size data <=? 0)) eqn:G.
    + inversion H; subst. exact Hb.
    + apply orb_false_iff in G. destruct G as [G _].
      apply negb_false_iff in G.
      destruct (MAX_QUEUE_SIZE <=? playback_size s) eqn:Full.
      * destruct (pushAudioData_pred s) eqn:P; [|discriminate].
        unfold pushAudioData_pred in P. rewrite G in P. simpl in P.
        rewrite orb_false_r in P. apply Z.ltb_lt in P. apply Z.leb_le in Full.
        lia.
      * apply Z.leb_gt in Full. inversion H; subst.
        unfold playback_size in *. simpl. rewrite length_app. simpl. lia.
  - unfold pushAudioData_resumed in H. unfold pushAudioData_pred in Hp.
    destruct (isPlaying s); simpl in *; inversion H; subst; [|exact Hb].
    rewrite orb_false_r in Hp. apply Z.ltb_lt in Hp.
    unfold playback_size in *. simpl. rewrite length_app. simpl. lia.
  - pose proof (fillAudioBuffer_shrinks len s). lia.
  - unfold stop, playback_size in *.
    destruct (playerState s); simpl; [exact Hb|unfold MAX_QUEUE_SIZE; lia..].
  - unfold playback_size in *.
    destruct (decoder s) as [d|] eqn:Hd.
    + rewrite (seek_unfold Seconds av_seek_ok t s d Hd). simpl.
      unfold MAX_QUEUE_SIZE. lia.
    + unfold seek. rewrite Hd. exact Hb.
Qed.

End PlaybackBound.

(** ** End of stream, for any decoder *)

Section EndOfStream.

Import Decoder.

Variables FormatCtx CodecCtx : Type.
Variable av_read_frame : FormatCtx -> read_result * FormatCtx.
Variable avcodec_send_packet : CodecCtx -> option AVPacket -> Z * CodecCtx.
Variable avcodec_receive_frame : CodecCtx -> recv_result * CodecCtx.
Variable av_rescale_q : Z -> Z.
Variable av_frame_clone : AVFrame -> option AVFrame.

(** On [AVERROR_EOF] the loop sends the flush packet and returns; the
    frame queue is what it was before the read, and [isDecoding] stays up. *)
Lemma decodeLoop_at_eof fuel fc fc' cc d :
  isDecoding d = true ->
  av_read_frame fc = (ReadEOF, fc') ->
  decodeLoop FormatCtx CodecCtx av_read_frame avcodec_send_packet
             avcodec_receive_frame av_rescale_q av_frame_clone
             (S fuel) fc cc d
  = Some (fc', snd (avcodec_send_packet cc None), d).
Proof.
  intros Hd Hr. simpl. rewrite Hd, Hr. simpl.
  destruct (avcodec_send_packet cc None). reflexivity.
Qed.

End EndOfStream.

(** ** The binary32 model on known values *)

Example f32_third :
  Float32.fdiv (Float32.of_int 1) (Float32.of_int 3) = (11184811, 33554432).
Proof. vm_compute. reflexivity. Qed.

Example f32_tenth :
  Float32.fdiv (Float32.of_int 1) (Float32.of_int 10) = (13421773, 134217728).
Proof. vm_compute. reflexivity. Qed.

Example f32_2_pow_24_plus_1 : Float32.of_int 16777217 = (16777216, 1).
Proof. vm_compute. reflexivity. Qed.

Example fade_ramp :
  Player.fade_segment [200; 200; 200; 200] 4 = [0; 50; 100; 150].
Proof. vm_compute. reflexivity. Qed.

(** * Further properties of the code *)

(** ** AudioDecoder: ownership of frames and order of delivery *)

Section FrameOwnership.

Import Decoder.

(** X1. [pushFrame] accounts for its frame exactly once.  A call that
    returns [true] has appended the frame to the queue and freed nothing,
    and this happens only while decoding is on and the queue is below
    capacity; a call that returns [false] has left the queue alone and
    handed the frame to [av_frame_free]; and the call parks exactly when
    the queue is full, the policy is to block and decoding is on. *)
Theorem pushFrame_accounts_for_frame (frame : AVFrame) (d : AudioDecoder) :
  (forall d', pushFrame frame d = Returns (true, d') ->
     isDecoding d = true
     /\ queue_size d < maxQueueSize (config d)
     /\ frameQueue d' = frameQueue d ++ [frame]
     /\ released d' = released d)
  /\ (forall d', pushFrame frame d = Returns (false, d') ->
        frameQueue d' = frameQueue d
        /\ released d' = released d ++ [frame]
        /\ (isDecoding d = false
            \/ (maxQueueSize (config d) <= queue_size d
                /\ dropFramesWhenFull (config d) = true)))
  /\ (pushFrame frame d = Blocks
      <-> maxQueueSize (config d) <= queue_size d
          /\ dropFramesWhenFull (config d) = false
          /\ isDecoding d = true).
Proof.
  unfold pushFrame, pushFrame_tail, notFull_pred.
  destruct (maxQueueSize (config d) <=? queue_size d) eqn:Full;
    [apply Z.leb_le in Full | apply Z.leb_gt in Full];
    destruct (dropFramesWhenFull (config d)) eqn:Drop;
    destruct (isDecoding d) eqn:Dec;
    try (assert (Hlt : (queue_size d <? maxQueueSize (config d)) = false)
          by (apply Z.ltb_ge; lia); rewrite Hlt);
    simpl;
    (split; [|split]);
    try (intros d' H; inversion H; subst; simpl; repeat split;
         solve [reflexivity | lia | auto]);
    try (intros d' H; discriminate H);
    try (split; [intros H; discriminate H | intros (H1 & H2 & H3); solve [discriminate | lia]]);
    try (split; [intros _; repeat split; solve [reflexivity | lia] | reflexivity]).
Qed.

Lemma pushFrame_accounts_for_frame_aux frame d d' :
  pushFrame frame d = Returns (true, d') ->
  frameQueue d' = frameQueue d ++ [frame]
  /\ released d' = released d
  /\ isDecoding d' = isDecoding d.
Proof.
  unfold pushFrame, pushFrame_tail.
  destruct (maxQueueSize (config d) <=? queue_size d);
    [destruct (dropFramesWhenFull (config d));
     [|destruct (notFull_pred d)]|];
    destruct (isDecoding d) eqn:Dec; simpl; intros H;
    try discriminate H; inversion H; subst; simpl; repeat split;
    exact Dec.
Qed.

Lemma flush_loop_appends (q rel : list AVFrame) : flush_loop q rel = rel ++ q.
Proof.
  revert rel. induction q as [|f q IH]; intros rel; simpl.
  - rewrite app_nil_r. reflexivity.
  - rewrite IH, <- app_assoc. reflexivity.
Qed.

(** X2. [flush] frees every queued frame exactly once, oldest first, and
    leaves the queue empty; configuration and [isDecoding] are kept, and a
    second [flush] changes nothing. *)
Theorem flush_releases_every_frame (d : AudioDecoder) :
  frameQueue (flush d) = []
  /\ released (flush d) = released d ++ frameQueue d
  /\ config (flush d) = config d
  /\ isDecoding (flush d) = isDecoding d
  /\ flush (flush d) = flush d.
Proof.
  unfold flush. simpl. rewrite flush_loop_appends.
  repeat split.
Qed.

Lemma push_all_appends frames :
  forall d d', push_all frames d = Some d' ->
               frameQueue d' = frameQueue d ++ frames
               /\ released d' = released d
               /\ isDecoding d' = isDecoding d.
Proof.
  induction frames as [|f fs IH]; intros d d' H; simpl in H.
  - inversion H; subst. rewrite app_nil_r. repeat split.
  - destruct (pushFrame f d) as [[[|] d1]|] eqn:P; try discriminate.
    destruct (pushFrame_accounts_for_frame_aux f d d1 P) as (Hq & Hr & Hd).
    destruct (IH d1 d' H) as (Hq' & Hr' & Hd').
    rewrite Hq', Hq, Hr', Hr, Hd', Hd, <- app_assoc. repeat split.
Qed.

Lemma pop_all_drains timeout_ms q :
  forall d, frameQueue d = q ->
            pop_all (length q) timeout_ms d = (q, set_frameQueue [] d).
Proof.
  induction q as [|f q IH]; intros d Hq; simpl.
  - destruct d as [c i dec fq rel]. simpl in *. subst. reflexivity.
  - rewrite getAudioFrame_cases, Hq.
    rewrite (IH (set_frameQueue q d) eq_refl). reflexivity.
Qed.

(** X3. First in, first out: when every [pushFrame] of a run of frames
    returns [true], the frames stand in the queue behind those already
    there, in the order pushed, and as many [getAudioFrame] calls (whatever
    their timeout) hand all of them out in that order and empty the
    queue. *)
Theorem frame_queue_is_fifo (frames : list AVFrame) (timeout_ms : Z)
        (d d' : AudioDecoder) :
  push_all frames d = Some d' ->
  frameQueue d' = frameQueue d ++ frames
  /\ pop_all (length (frameQueue d ++ frames)) timeout_ms d'
     = (frameQueue d ++ frames, set_frameQueue [] d').
Proof.
  intros H. destruct (push_all_appends frames d d' H) as (Hq & _ & _).
  split; [exact Hq|]. apply pop_all_drains. exact Hq.
Qed.

End FrameOwnership.

(** ** AudioDecoder: what the decode thread does to the decoder *)

Section DecodeThread.

Import Decoder.

Variables FormatCtx CodecCtx : Type.
Variable av_read_frame : FormatCtx -> read_result * FormatCtx.
Variable avcodec_send_packet : CodecCtx -> option AVPacket -> Z * CodecCtx.
Variable avcodec_receive_frame : CodecCtx -> recv_result * CodecCtx.
Variable av_rescale_q : Z -> Z.
Variable av_frame_clone : AVFrame -> option AVFrame.

Local Abbreviation receive_loop :=
  (Decoder.receive_loop CodecCtx avcodec_receive_frame av_frame_clone).
Local Abbreviation decodeLoop :=
  (Decoder.decodeLoop FormatCtx CodecCtx av_read_frame avcodec_send_packet
                      avcodec_receive_frame av_rescale_q av_frame_clone).

Lemma receive_loop_only_appends fuel :
  forall cc d cc' d',
    receive_loop fuel cc d = Some (cc', d') ->
    exists new, d' = set_frameQueue (frameQueue d ++ new) d.
Proof.
  induction fuel as [|k IH]; intros cc d cc' d' H; simpl in H; [discriminate|].
  destruct (avcodec_receive_frame cc) as [[f| | |code] cc1].
  - destruct (av_frame_clone (fix_pts f)) as [clone|].
    + apply IH in H. destruct H as [new H]. exists (clone :: new).
      rewrite H. unfold set_frameQueue. simpl. rewrite <- app_assoc. reflexivity.
    + apply IH in H. exact H.
  - inversion H; subst. exists []. rewrite app_nil_r.
    destruct d'; reflexivity.
  - inversion H; subst. exists []. rewrite app_nil_r.
    destruct d'; reflexivity.
  - inversion H; subst. exists []. rewrite app_nil_r.
    destruct d'; reflexivity.
Qed.

(** X5. Whatever the demuxer and the codec do, a [decodeLoop] that ends
    has only appended to the frame queue: the frames queued before are
    still there, in front and in order; nothing has been freed, and the
    configuration, the stream index and [isDecoding] are as before.  In
    particular the loop neither drops a frame nor lowers [isDecoding] at
    the end of the stream. *)
Theorem decodeLoop_only_appends (fuel : nat) :
  forall fc cc d fc' cc' d',
    decodeLoop fuel fc cc d = Some (fc', cc', d') ->
    exists new, d' = set_frameQueue (frameQueue d ++ new) d.
Proof.
  assert (Hrefl : forall d, d = set_frameQueue (frameQueue d ++ []) d).
  { intros d. rewrite app_nil_r. destruct d; reflexivity. }
  induction fuel as [|k IH]; intros fc cc d fc' cc' d' H; simpl in H;
    [discriminate|].
  destruct (isDecoding d).
  2:{ inversion H; subst. exists []. apply Hrefl. }
  simpl in H.
  destruct (av_read_frame fc) as [[p| |code] fc1].
  - destruct (stream_index p =? audioStreamIndex d).
    + destruct (avcodec_send_packet cc _) as [[|r|r] cc1].
      * destruct (receive_loop k cc1 d) as [[cc2 d2]|] eqn:R; [|discriminate].
        apply receive_loop_only_appends in R. destruct R as [new1 R].
        apply IH in H. destruct H as [new2 H].
        exists (new1 ++ new2). rewrite H, R. unfold set_frameQueue. simpl.
        rewrite <- app_assoc. reflexivity.
      * apply IH in H. exact H.
      * apply IH in H. exact H.
    + apply IH in H. exact H.
  - destruct (avcodec_send_packet cc None) as [r cc1].
    inversion H; subst. exists []. apply Hrefl.
  - inversion H; subst. exists []. apply Hrefl.
Qed.

End DecodeThread.

Section ForeignPackets.

Import Decoder.

Variable CodecCtx : Type.
Variable avcodec_send_packet : CodecCtx -> option AVPacket -> Z * CodecCtx.
Variable avcodec_receive_frame : CodecCtx -> recv_result * CodecCtx.
Variable av_rescale_q : Z -> Z.
Variable av_frame_clone : AVFrame -> option AVFrame.

Lemma decodeLoop_foreign_step k p ps (cc : CodecCtx) (d : AudioDecoder) :
  isDecoding d = true ->
  stream_index p <> audioStreamIndex d ->
  Decoder.decodeLoop (list AVPacket) CodecCtx Models.list_read_frame
                     avcodec_send_packet avcodec_receive_frame av_rescale_q
                     av_frame_clone (S k) (p :: ps) cc d
  = Decoder.decodeLoop (list AVPacket) CodecCtx Models.list_read_frame
                       avcodec_send_packet avcodec_receive_frame av_rescale_q
                       av_frame_clone k ps cc d.
Proof.
  intros Hd Hp. apply Z.eqb_neq in Hp.
  cbn [Decoder.decodeLoop]. rewrite Hd. cbn [negb Models.list_read_frame].
  rewrite Hp. reflexivity.
Qed.

(** X6. Packets of other streams never reach the codec: on a file whose
    packets all belong to streams other than the audio stream, the loop
    reads to the end, sends the codec nothing but the final flush packet
    and leaves the decoder as it was.  One round per packet and one for the
    end of the stream are enough. *)
Theorem decodeLoop_skips_foreign_packets
        (packets : list AVPacket) (cc : CodecCtx) (d : AudioDecoder) :
  isDecoding d = true ->
  (forall p, In p packets -> stream_index p <> audioStreamIndex d) ->
  Decoder.decodeLoop (list AVPacket) CodecCtx Models.list_read_frame
                     avcodec_send_packet avcodec_receive_frame av_rescale_q
                     av_frame_clone (S (length packets)) packets cc d
  = Some ([], snd (avcodec_send_packet cc None), d).
Proof.
  intros Hd. induction packets as [|p ps IH]; intros Hforeign.
  - simpl. rewrite Hd. simpl. destruct (avcodec_send_packet cc None).
    reflexivity.
  - cbn [length]. rewrite decodeLoop_foreign_step.
    + apply IH. intros q Hq. apply Hforeign. right. exact Hq.
    + exact Hd.
    + apply Hforeign. left. reflexivity.
Qed.

End ForeignPackets.

(** ** AudioDecoder::open *)

Section OpenProps.

Import Decoder Open.

Lemma find_audio_stream_from_spec (l : list AVMediaType) :
  forall k,
    (find_audio_stream_from k l = -1 /\ forall t, In t l -> is_audio t = false)
    \/ (exists n, find_audio_stream_from k l = k + Z.of_nat n
                  /\ (n < length l)%nat
                  /\ is_audio (nth n l AVMEDIA_TYPE_VIDEO) = true
                  /\ forall j, (j < n)%nat ->
                               is_audio (nth j l AVMEDIA_TYPE_VIDEO) = false).
Proof.
  induction l as [|t l IH]; intros k.
  - left. split; [reflexivity|]. intros t [].
  - simpl. destruct (is_audio t) eqn:E.
    + right. exists O. repeat split.
      * lia.
      * simpl. lia.
      * exact E.
      * intros j Hj. lia.
    + destruct (IH (k + 1)) as [[Hnone Hall]|(n & Hn & Hlt & Ha & Hbefore)].
      * left. split; [exact Hnone|]. intros t' [<-|H]; [exact E|apply Hall; exact H].
      * right. exists (S n). repeat split.
        -- rewrite Hn. lia.
        -- simpl. lia.
        -- exact Ha.
        -- intros [|j] Hj; [exact E|]. simpl. apply Hbefore. lia.
Qed.

(** X7. The stream search of [open] picks the first audio stream: the
    result is [-1] exactly when no stream is an audio stream, and otherwise
    it is the position of an audio stream before which there is none. *)
Theorem find_audio_stream_is_first (l : list AVMediaType) :
  (find_audio_stream l = -1 <-> forall t, In t l -> is_audio t = false)
  /\ (find_audio_stream l <> -1 ->
      exists n, find_audio_stream l = Z.of_nat n
                /\ (n < length l)%nat
                /\ nth n l AVMEDIA_TYPE_VIDEO = AVMEDIA_TYPE_AUDIO
                /\ forall j, (j < n)%nat ->
                             nth j l AVMEDIA_TYPE_VIDEO <> AVMEDIA_TYPE_AUDIO).
Proof.
  unfold find_audio_stream.
  destruct (find_audio_stream_from_spec l 0)
    as [[Hnone Hall]|(n & Hn & Hlt & Ha & Hbefore)].
  - split; [split; [intros _; exact Hall|intros _; exact Hnone]|].
    intros H. contradiction.
  - split.
    + split; [intros H; lia|].
      intros Hall. exfalso.
      assert (Hin : In (nth n l AVMEDIA_TYPE_VIDEO) l) by (apply nth_In; exact Hlt).
      apply Hall in Hin. congruence.
    + intros _. exists n. split; [rewrite Hn; lia|]. split; [exact Hlt|].
      split.
      * destruct (nth n l AVMEDIA_TYPE_VIDEO); try discriminate Ha. reflexivity.
      * intros j Hj E. apply Hbefore in Hj. rewrite E in Hj. discriminate Hj.
Qed.

Lemma open_fields (m : media) (d : AudioDecoder) (c : contexts) :
  let '(err, d', c') := open m d c in
  frameQueue d' = frameQueue d /\ released d' = released d
  /\ isDecoding d' = isDecoding d /\ config d' = config d
  /\ (err = FILE_OPEN_ERROR \/ err = STREAM_INFO_ERROR -> d' = d)
  /\ (err <> FILE_OPEN_ERROR -> err <> STREAM_INFO_ERROR ->
      audioStreamIndex d' = find_audio_stream (streams m)).
Proof.
  unfold open. simpl.
  destruct (open_input_ret m <? 0);
    [repeat split; intros; congruence|].
  destruct (stream_info_ret m <? 0);
    [repeat split; intros; congruence|].
  destruct (find_audio_stream (streams m) =? -1);
    [repeat split; intros [H|H]; discriminate H|].
  destruct (negb (decoder_found m _));
    [repeat split; intros [H|H]; discriminate H|].
  destruct (negb (context_allocated m));
    [repeat split; intros [H|H]; discriminate H|].
  destruct (parameters_ret m <? 0);
    [repeat split; intros [H|H]; discriminate H|].
  destruct (open2_ret m <? 0);
    repeat split; intros [H|H]; discriminate H.
Qed.

Lemma open_error (m : media) (d : AudioDecoder) (c : contexts) :
  fst (fst (open m d c))
  = if open_input_ret m <? 0 then FILE_OPEN_ERROR
    else if stream_info_ret m <? 0 then STREAM_INFO_ERROR
    else if find_audio_stream (streams m) =? -1 then NO_AUDIO_STREAM
    else if negb (decoder_found m (find_audio_stream (streams m)))
    then CODEC_NOT_FOUND
    else if negb (context_allocated m) then CODEC_CONTEXT_ALLOC_ERROR
    else if parameters_ret m <? 0 then CODEC_PARAMS_ERROR
    else if open2_ret m <? 0 then CODEC_OPEN_ERROR
    else SUCCESS.
Proof.
  unfold open. simpl.
  destruct (open_input_ret m <? 0); [reflexivity|].
  destruct (stream_info_ret m <? 0); [reflexivity|].
  destruct (find_audio_stream (streams m) =? -1); [reflexivity|].
  destruct (negb (decoder_found m _)); [reflexivity|].
  destruct (negb (context_allocated m)); [reflexivity|].
  destruct (parameters_ret m <? 0); [reflexivity|].
  destruct (open2_ret m <? 0); reflexivity.
Qed.

(** What [open] leaves in the two contexts, by its error code. *)
Lemma open_contexts (m : media) (d : AudioDecoder) (c : contexts) :
  snd (open m d c)
  = match fst (fst (open m d c)) with
    | FILE_OPEN_ERROR => mkContexts None None
    | STREAM_INFO_ERROR | NO_AUDIO_STREAM | CODEC_NOT_FOUND
    | CODEC_CONTEXT_ALLOC_ERROR => mkContexts (Some m) None
    | CODEC_PARAMS_ERROR => mkContexts (Some m) (Some (m, Allocated))
    | CODEC_OPEN_ERROR => mkContexts (Some m) (Some (m, Configured))
    | SUCCESS => mkContexts (Some m) (Some (m, Opened))
    end.
Proof.
  unfold open. simpl.
  destruct (open_input_ret m <? 0); [reflexivity|].
  destruct (stream_info_ret m <? 0); [reflexivity|].
  destruct (find_audio_stream (streams m) =? -1); [reflexivity|].
  destruct (negb (decoder_found m _)); [reflexivity|].
  destruct (negb (context_allocated m)); [reflexivity|].
  destruct (parameters_ret m <? 0); [reflexivity|].
  destruct (open2_ret m <? 0); reflexivity.
Qed.

(** X8. [open] succeeds exactly when every library call succeeds and the
    file has an audio stream; then the stream index is the first audio
    stream and both contexts are those of the new file, the codec opened.
    Whatever the outcome, [open] leaves the frame queue, the released
    frames, [isDecoding] and the configuration alone (frames of a file
    opened before stay queued), but the contexts of the file opened before
    are gone: what is left depends on the new file alone.  A file that
    cannot be opened leaves both contexts null and the stream index of the
    old file; whenever the call fails before a codec context is allocated,
    [getSampleRate] returns 0 afterwards. *)
Theorem open_outcome (m : media) (d : AudioDecoder) (c : contexts) :
  let err := fst (fst (open m d c)) in
  let d' := snd (fst (open m d c)) in
  let c' := snd (open m d c) in
  frameQueue d' = frameQueue d
  /\ released d' = released d
  /\ isDecoding d' = isDecoding d
  /\ config d' = config d
  /\ (err = SUCCESS <->
      0 <= open_input_ret m /\ 0 <= stream_info_ret m
      /\ find_audio_stream (streams m) <> -1
      /\ decoder_found m (find_audio_stream (streams m)) = true
      /\ context_allocated m = true
      /\ 0 <= parameters_ret m /\ 0 <= open2_ret m)
  /\ (err = SUCCESS ->
      audioStreamIndex d' = find_audio_stream (streams m)
      /\ c' = mkContexts (Some m) (Some (m, Opened)))
  /\ (forall d2 c2, fst (fst (open m d2 c2)) = err /\ snd (open m d2 c2) = c')
  /\ (err = FILE_OPEN_ERROR ->
      d' = d /\ formatContext c' = None /\ codecContext c' = None)
  /\ (err <> FILE_OPEN_ERROR -> formatContext c' = Some m)
  /\ (err = STREAM_INFO_ERROR -> d' = d)
  /\ (codecContext c' = None <->
      err = FILE_OPEN_ERROR \/ err = STREAM_INFO_ERROR
      \/ err = NO_AUDIO_STREAM \/ err = CODEC_NOT_FOUND
      \/ err = CODEC_CONTEXT_ALLOC_ERROR)
  /\ (codecContext c' = None -> forall rate, getSampleRate rate c' = 0).
Proof.
  intros err d' c'.
  pose proof (open_fields m d c) as Hf.
  pose proof (open_error m d c) as He.
  pose proof (open_contexts m d c) as Hc.
  fold err in He, Hc. fold c' in Hc.
  assert (Hf' : frameQueue d' = frameQueue d /\ released d' = released d
                /\ isDecoding d' = isDecoding d /\ config d' = config d
                /\ (err = FILE_OPEN_ERROR \/ err = STREAM_INFO_ERROR -> d' = d)
                /\ (err <> FILE_OPEN_ERROR -> err <> STREAM_INFO_ERROR ->
                    audioStreamIndex d' = find_audio_stream (streams m))).
  { unfold err, d'. destruct (open m d c) as [[e0 d0] c0]. exact Hf. }
  destruct Hf' as (Hq & Hr & Hi & Hcfg & Hsame & Hidx).
  split; [exact Hq|]. split; [exact Hr|]. split; [exact Hi|].
  split; [exact Hcfg|].
  split.
  { rewrite He.
    destruct (open_input_ret m <? 0) eqn:E1;
      [apply Z.ltb_lt in E1|apply Z.ltb_ge in E1].
    { split; [discriminate|intros; lia]. }
    destruct (stream_info_ret m <? 0) eqn:E2;
      [apply Z.ltb_lt in E2|apply Z.ltb_ge in E2].
    { split; [discriminate|intros; lia]. }
    destruct (find_audio_stream (streams m) =? -1) eqn:E3;
      [apply Z.eqb_eq in E3|apply Z.eqb_neq in E3].
    { split; [discriminate|intros; tauto]. }
    destruct (decoder_found m (find_audio_stream (streams m))) eqn:E4; simpl.
    2:{ split; [discriminate|intros; intuition discriminate]. }
    destruct (context_allocated m) eqn:E5; simpl.
    2:{ split; [discriminate|intros; intuition discriminate]. }
    destruct (parameters_ret m <? 0) eqn:E6;
      [apply Z.ltb_lt in E6|apply Z.ltb_ge in E6].
    { split; [discriminate|intros; lia]. }
    destruct (open2_ret m <? 0) eqn:E7;
      [apply Z.ltb_lt in E7|apply Z.ltb_ge in E7].
    { split; [discriminate|intros; lia]. }
    split; [intros _; repeat split; assumption|reflexivity]. }
  split.
  { intros Hs. split; [apply Hidx; rewrite Hs; discriminate|].
    rewrite Hc, Hs. reflexivity. }
  split.
  { intros d2 c2.
    assert (E : fst (fst (open m d2 c2)) = err).
    { rewrite He. apply open_error. }
    split; [exact E|]. rewrite (open_contexts m d2 c2), E, Hc. reflexivity. }
  split.
  { intros Hs. split; [apply Hsame; left; exact Hs|].
    rewrite Hc, Hs. split; reflexivity. }
  split.
  { intros Hs. rewrite Hc. destruct err; try reflexivity. congruence. }
  split.
  { intros Hs. apply Hsame. right. exact Hs. }
  split.
  { rewrite Hc. destruct err; simpl; split; intros H;
      try discriminate H; try reflexivity; auto;
      repeat (destruct H as [H|H]; try discriminate H). }
  intros Hn rate. unfold getSampleRate. rewrite Hn. reflexivity.
Qed.

End OpenProps.

(** ** AudioPlayer: the controller's calls *)

Section ControllerCalls.

Import Decoder Player.

Variable Seconds : Type.
Variable zero_seconds : Seconds.
Variable av_seek_ok : Seconds -> bool.

Lemma clamp_range v : 0 <= clamp v 0 SDL_MIX_MAXVOLUME <= SDL_MIX_MAXVOLUME.
Proof.
  unfold clamp, SDL_MIX_MAXVOLUME.
  destruct (v <? 0) eqn:A; [lia|]. destruct (128 <? v) eqn:B; [lia|].
  apply Z.ltb_ge in A. apply Z.ltb_ge in B. lia.
Qed.

Lemma flush_idempotent d : Decoder.flush (Decoder.flush d) = Decoder.flush d.
Proof. unfold Decoder.flush. simpl. reflexivity. Qed.

Lemma controller_call_flags (s s' : AudioPlayer Seconds) :
  controller_call zero_seconds av_seek_ok s s' ->
  flags_consistent s -> flags_consistent s'.
Proof.
  intros Hc (Hpl & Hpa & Hrun & Hvol & d & Hd & Hdec).
  unfold flags_consistent.
  destruct Hc as [stream s _|s|s|s|s|t s|v s].
  - destruct s as [dec st q pl pa vol pos run dev swr un buf]. simpl in *.
    subst dec. unfold loadFile_opened, stop.
    destruct st; simpl in *; repeat split; try assumption; try lia;
      eexists; (split; [reflexivity|]); simpl; unfold Decoder.stop;
      try rewrite Hdec; reflexivity.
  - destruct s as [dec st q pl pa vol pos run dev swr un buf]. simpl in *.
    subst dec. unfold play, resume.
    destruct st; simpl in *; repeat split; try assumption; try lia;
      eexists; (split; [reflexivity|]); simpl; unfold Decoder.start;
      try rewrite Hdec; reflexivity.
  - destruct s as [dec st q pl pa vol pos run dev swr un buf]. simpl in *.
    subst dec. unfold pause.
    destruct st; simpl in *; repeat split; try assumption; try lia;
      eexists; (split; [reflexivity|]); assumption.
  - destruct s as [dec st q pl pa vol pos run dev swr un buf]. simpl in *.
    subst dec. unfold resume.
    destruct st; simpl in *; repeat split; try assumption; try lia;
      eexists; (split; [reflexivity|]); assumption.
  - destruct s as [dec st q pl pa vol pos run dev swr un buf]. simpl in *.
    subst dec. unfold stop.
    destruct st; simpl in *; repeat split; try assumption; try lia;
      eexists; (split; [reflexivity|]); simpl; unfold Decoder.stop;
      try rewrite Hdec; reflexivity.
  - rewrite (seek_unfold Seconds av_seek_ok t s d Hd). simpl.
    repeat split; try assumption; try lia.
    eexists. split; [reflexivity|]. exact Hdec.
  - unfold setVolume. simpl. pose proof (clamp_range v).
    repeat split; try assumption; try lia.
    eexists. split; [exact Hd|exact Hdec].
Qed.

(** X9. The controller's flags follow its state.  In every state the
    public interface reaches from a fresh player, [isPlaying] and
    [isDecodingThreadRunning] hold exactly when the player is not STOPPED,
    [isPaused] holds exactly when it is PAUSED, the decoder's [isDecoding]
    holds exactly when it is not STOPPED, and the volume lies in
    [0, 128]. *)
Theorem controller_flags_follow_state (s : AudioPlayer Seconds) :
  controller_reaches zero_seconds av_seek_ok s -> flags_consistent s.
Proof.
  induction 1 as [|s s' _ IH Hc].
  - unfold flags_consistent, new_player, SDL_MIX_MAXVOLUME. simpl.
    repeat split; try reflexivity; try lia.
    eexists. split; reflexivity.
  - eapply controller_call_flags; eauto.
Qed.

(** X10. [setVolume] clamps: the volume read back is the argument brought
    into [0, 128], so it is the argument itself when that lies in range;
    the last of two calls wins, and nothing but the volume changes. *)
Theorem setVolume_clamps (v w : Z) (s : AudioPlayer Seconds) :
  getVolume (setVolume v s) = Z.max 0 (Z.min v SDL_MIX_MAXVOLUME)
  /\ (0 <= v <= SDL_MIX_MAXVOLUME -> getVolume (setVolume v s) = v)
  /\ setVolume w (setVolume v s) = setVolume w s
  /\ playerState (setVolume v s) = playerState s
  /\ audioQueue (setVolume v s) = audioQueue s
  /\ currentPosition (setVolume v s) = currentPosition s
  /\ decoder (setVolume v s) = decoder s.
Proof.
  unfold getVolume, setVolume, clamp, SDL_MIX_MAXVOLUME. simpl.
  repeat split.
  - destruct (v <? 0) eqn:A; [apply Z.ltb_lt in A; lia|apply Z.ltb_ge in A].
    destruct (128 <? v) eqn:B; [apply Z.ltb_lt in B; lia|apply Z.ltb_ge in B].
    lia.
  - intros Hv.
    destruct (v <? 0) eqn:A; [apply Z.ltb_lt in A; lia|].
    destruct (128 <? v) eqn:B; [apply Z.ltb_lt in B; lia|reflexivity].
Qed.

(** X11. Pause and resume undo each other.  On a PLAYING player whose
    device runs and whose [isPaused] is down, [resume] after [pause] gives
    the player back unchanged; on a PAUSED player whose device is paused and
    whose [isPaused] is up, [pause] after [resume] does.  Neither call
    touches the queues, the position or the decoder, and each is ignored in
    any other state. *)
Theorem pause_resume_round_trip (s : AudioPlayer Seconds) :
  (playerState s = PLAYING -> isPaused s = false -> devicePaused s = false ->
   resume (pause s) = s)
  /\ (playerState s = PAUSED -> isPaused s = true -> devicePaused s = true ->
      pause (resume s) = s)
  /\ (playerState s <> PLAYING -> pause s = s)
  /\ (playerState s <> PAUSED -> resume s = s)
  /\ audioQueue (pause s) = audioQueue s /\ audioQueue (resume s) = audioQueue s
  /\ currentPosition (pause s) = currentPosition s
  /\ currentPosition (resume s) = currentPosition s
  /\ decoder (pause s) = decoder s /\ decoder (resume s) = decoder s.
Proof.
  destruct s as [dec st q pl pa vol pos run dev swr un buf].
  unfold pause, resume. simpl.
  destruct st; simpl; repeat split; intros; subst;
    try reflexivity; try discriminate; congruence.
Qed.

(** X12. [play] is idempotent; on a PAUSED player it is [resume], on a
    PLAYING player it does nothing, and on a STOPPED player without a
    decoder it does nothing either.  From STOPPED with a decoder it starts
    the decoder and unpauses the device without touching the queue or the
    position. *)
Theorem play_idempotent (s : AudioPlayer Seconds) :
  play (play s) = play s
  /\ (playerState s = PAUSED -> play s = resume s)
  /\ (playerState s = PLAYING -> play s = s)
  /\ (playerState s = STOPPED -> decoder s = None -> play s = s)
  /\ (forall d, playerState s = STOPPED -> decoder s = Some d ->
        playerState (play s) = PLAYING
        /\ decoder (play s) = Some (Decoder.start d)
        /\ devicePaused (play s) = false
        /\ audioQueue (play s) = audioQueue s
        /\ currentPosition (play s) = currentPosition s).
Proof.
  destruct s as [dec st q pl pa vol pos run dev swr un buf].
  unfold play, resume. simpl.
  destruct st; destruct dec as [d|]; simpl; repeat split; intros;
    try reflexivity; try discriminate;
    match goal with
    | H : Some _ = Some _ |- _ => inversion H; subst; reflexivity
    end.
Qed.

(** X13. Seeks compose: after any seek, a seek the decoder accepts gives
    the same player as that seek alone (the last accepted target wins), and
    a seek the decoder refuses changes nothing at all.  [seek] is accepted in
    every state, STOPPED included, and never changes the player state. *)
Theorem seek_composes (t1 t2 : Seconds) (s : AudioPlayer Seconds) :
  (av_seek_ok t2 = true ->
   seek av_seek_ok t2 (seek av_seek_ok t1 s) = seek av_seek_ok t2 s)
  /\ (av_seek_ok t2 = false ->
      seek av_seek_ok t2 (seek av_seek_ok t1 s) = seek av_seek_ok t1 s)
  /\ playerState (seek av_seek_ok t1 s) = playerState s
  /\ (decoder s = None -> seek av_seek_ok t1 s = s).
Proof.
  destruct (decoder s) as [d|] eqn:Hd.
  - assert (Hd1 : decoder (seek av_seek_ok t1 s) = Some (Decoder.flush d)).
    { rewrite (seek_unfold Seconds av_seek_ok t1 s d Hd). reflexivity. }
    rewrite (seek_unfold Seconds av_seek_ok t2 _ _ Hd1).
    rewrite (seek_unfold Seconds av_seek_ok t2 s d Hd).
    rewrite (seek_unfold Seconds av_seek_ok t1 s d Hd). simpl.
    rewrite flush_idempotent.
    repeat split; try discriminate; intros H; rewrite H; reflexivity.
  - unfold seek. rewrite Hd. unfold seek. rewrite Hd. repeat split.
Qed.

End ControllerCalls.

(** ** AudioPlayer: what the callback takes and what it writes *)

Section CallbackStream.

Import Decoder Player.

Variable Seconds : Type.
Variable mix : list Z -> list Z -> Z -> list Z.

Lemma updateBufferSize_adds delta cell :
  0 <= cell < 2 ^ 64 -> updateBufferSize delta cell = wrap64 (cell + delta).
Proof.
  intros Hc. destruct (cas_loop_linearizes delta [] cell Hc) as (n & _ & Hrun).
  unfold updateBufferSize, updateBufferSize_under. simpl length in Hrun.
  rewrite Hrun. unfold fetch_add_after. rewrite firstn_nil. reflexivity.
Qed.

Lemma fade_from_length i n l : length (fade_from i n l) = length l.
Proof.
  revert i. induction l as [|b l IH]; intros i; simpl; [reflexivity|].
  rewrite IH. reflexivity.
Qed.

Lemma fade_segment_length data copyLen :
  0 <= copyLen <= chunk_size data ->
  length (fade_segment data copyLen) = Z.to_nat copyLen.
Proof.
  intros H. unfold fade_segment, chunk_size in *.
  rewrite fade_from_length, length_firstn. lia.
Qed.

(** What one run of the callback's loop takes off the queue. *)
Lemma fill_loop_takes_prefix under vol q :
  forall len tc buf w q' len' buf' w',
    0 <= len ->
    Player.fill_loop mix under vol q len tc buf w = (q', len', buf', w') ->
    0 <= len' <= len
    /\ (0 < len' -> q' = [])
    /\ exists taken, concat q = taken ++ concat q'
                     /\ Z.of_nat (length taken) = len - len'.
Proof.
  induction q as [|data rest IH]; intros len tc buf w q' len' buf' w' Hlen H.
  - inversion H; subst. split; [lia|]. split; [reflexivity|].
    exists []. split; [reflexivity|simpl; lia].
  - rewrite fill_loop_cons in H. destruct (len <=? 0) eqn:E.
    + apply Z.leb_le in E. inversion H; subst.
      split; [lia|]. split; [lia|]. exists []. split; [reflexivity|simpl; lia].
    + apply Z.leb_gt in E. cbv zeta in H.
      pose proof (chunk_size_nonneg data) as Hs. unfold chunk_size in *.
      destruct (Z.min len (Z.of_nat (length data)) <? Z.of_nat (length data))
        eqn:P.
      * apply Z.ltb_lt in P. inversion H; subst.
        split; [lia|]. split; [lia|].
        exists (firstn (Z.to_nat (Z.min len (Z.of_nat (length data)))) data).
        split.
        -- simpl. rewrite app_assoc, firstn_skipn. reflexivity.
        -- rewrite length_firstn. lia.
      * apply Z.ltb_ge in P. apply IH in H; [|lia].
        destruct H as (Hr & Hq & taken & Hcat & Htaken).
        split; [lia|]. split; [exact Hq|].
        exists (data ++ taken). split.
        -- simpl. rewrite Hcat, app_assoc. reflexivity.
        -- rewrite length_app. lia.
Qed.

(** The number of bytes one run of the loop writes. *)
Lemma fill_loop_writes under vol q :
  (forall dst src v, length (mix dst src v) = length dst) ->
  forall len tc buf w q' len' buf' w',
    0 <= len ->
    Player.fill_loop mix under vol q len tc buf w = (q', len', buf', w') ->
    length w' = (length w + Z.to_nat (len - len'))%nat.
Proof.
  intros Hmix.
  induction q as [|data rest IH];
    intros len tc buf w q' len' buf' w' Hlen H.
  - inversion H; subst. rewrite Z.sub_diag. simpl. lia.
  - rewrite fill_loop_cons in H. destruct (len <=? 0) eqn:E.
    + inversion H; subst. rewrite Z.sub_diag. simpl. lia.
    + apply Z.leb_gt in E. cbv zeta in H.
      pose proof (chunk_size_nonneg data) as Hs.
      assert (Hseg : length (if under && (tc =? 0)
                             then fade_segment data (Z.min len (chunk_size data))
                             else mix (repeat 0 (Z.to_nat (Z.min len (chunk_size data))))
                                      (firstn (Z.to_nat (Z.min len (chunk_size data))) data)
                                      vol)
                     = Z.to_nat (Z.min len (chunk_size data))).
      { destruct (under && (tc =? 0)).
        - apply fade_segment_length. lia.
        - rewrite Hmix, repeat_length. reflexivity. }
      destruct (Z.min len (chunk_size data) <? chunk_size data) eqn:P.
      * apply Z.ltb_lt in P. inversion H; subst.
        rewrite length_app, Hseg. f_equal. f_equal. lia.
      * apply Z.ltb_ge in P.
        assert (Hlen1 : 0 <= len - Z.min len (chunk_size data)) by lia.
        destruct (fill_loop_takes_prefix _ _ _ _ _ _ _ _ _ _ _ Hlen1 H)
          as (Hr & _).
        apply IH in H; [|lia].
        rewrite length_app, Hseg in H. rewrite H. lia.
Qed.

(** The counter one run of the loop leaves. *)
Lemma fill_loop_counts under vol q :
  forall len tc buf w q' len' buf' w',
    0 <= len -> 0 <= buf < 2 ^ 64 ->
    Player.fill_loop mix under vol q len tc buf w = (q', len', buf', w') ->
    buf' = wrap64 (buf - (len - len')).
Proof.
  induction q as [|data rest IH];
    intros len tc buf w q' len' buf' w' Hlen Hbuf H.
  - inversion H; subst. rewrite Z.sub_diag, Z.sub_0_r.
    symmetry. apply wrap64_small. assumption.
  - rewrite fill_loop_cons in H. destruct (len <=? 0) eqn:E.
    + inversion H; subst. rewrite Z.sub_diag, Z.sub_0_r.
      symmetry. apply wrap64_small. assumption.
    + apply Z.leb_gt in E. cbv zeta in H.
      pose proof (chunk_size_nonneg data) as Hs.
      destruct (Z.min len (chunk_size data) <? chunk_size data) eqn:P.
      * apply Z.ltb_lt in P. inversion H; subst.
        rewrite updateBufferSize_adds by assumption. f_equal. lia.
      * apply Z.ltb_ge in P.
        rewrite updateBufferSize_adds in H by assumption.
        apply IH in H; [|lia|apply wrap64_range].
        rewrite H. unfold wrap64.
        rewrite Zminus_mod_idemp_l. f_equal. lia.
Qed.

(** X14. The callback fills exactly the buffer it is given: with a mixer
    that keeps the length of its destination, [fillAudioBuffer(stream, len)]
    determines [len] bytes, neither fewer nor more, whatever is queued. *)
Theorem fillAudioBuffer_fills_len (len : Z) (s : AudioPlayer Seconds) :
  (forall dst src v, length (mix dst src v) = length dst) ->
  0 <= len ->
  length (snd (fillAudioBuffer mix len s)) = Z.to_nat len.
Proof.
  intros Hmix Hlen. unfold fillAudioBuffer.
  destruct (audioQueue s) as [|data rest] eqn:Q.
  - simpl. apply repeat_length.
  - destruct (Player.fill_loop mix (underrun s) (volume s) (data :: rest) len 0
                               (bufferedSize s) [])
      as [[[q' len'] buf'] w'] eqn:R.
    destruct (fill_loop_takes_prefix _ _ _ _ _ _ _ _ _ _ _ Hlen R) as (Hr & _).
    apply (fill_loop_writes _ _ _ Hmix) in R; [|exact Hlen].
    simpl. rewrite length_app, R, repeat_length. simpl. lia.
Qed.

(** X15. The callback takes the queued bytes in order: seen as one byte
    stream, the queue after [fillAudioBuffer(stream, len)] is the stream
    before without its first [len] bytes (or empty when fewer were queued),
    whatever the volume, the underrun flag and the mixer are. *)
Theorem fillAudioBuffer_takes_prefix (len : Z) (s : AudioPlayer Seconds) :
  0 <= len ->
  queued_stream (fst (fillAudioBuffer mix len s))
  = skipn (Z.to_nat len) (queued_stream s).
Proof.
  intros Hlen. unfold fillAudioBuffer, queued_stream.
  destruct (audioQueue s) as [|data rest] eqn:Q.
  - simpl. rewrite Q. simpl. rewrite skipn_nil. reflexivity.
  - destruct (Player.fill_loop mix (underrun s) (volume s) (data :: rest) len 0
                               (bufferedSize s) [])
      as [[[q' len'] buf'] w'] eqn:R.
    destruct (fill_loop_takes_prefix _ _ _ _ _ _ _ _ _ _ _ Hlen R)
      as (Hr & Hq & taken & Hcat & Htaken).
    cbn [fst audioQueue set_underrun set_bufferedSize set_audioQueue].
    rewrite Hcat.
    destruct (Z.eq_dec len' 0) as [E|E].
    + rewrite skipn_app.
      replace (Z.to_nat len) with (length taken) by lia.
      rewrite skipn_all, Nat.sub_diag. reflexivity.
    + rewrite Hq by lia. simpl. rewrite app_nil_r.
      symmetry. apply skipn_all2. lia.
Qed.

(** X16. The buffered-size counter follows the queue through the producer
    and the callback, and through nothing else: when [bufferedSize] equals
    the number of queued bytes (modulo [2^64]), it still does after
    [processDecodedFrame] has queued a chunk and after a callback; but
    [stop] empties the queue and leaves the counter as it was, so that a
    player stopped with bytes queued has a counter that overstates. *)
Theorem bufferedSize_follows_queue (zero_seconds : Seconds) (len : Z)
        (data : list Z) (s : AudioPlayer Seconds) :
  counter_tracks_queue s ->
  counter_tracks_queue (enqueue_push data s)
  /\ (0 <= len -> counter_tracks_queue (fst (fillAudioBuffer mix len s)))
  /\ bufferedSize (stop zero_seconds s) = bufferedSize s
  /\ (playerState s <> STOPPED -> 0 < queued_bytes s < 2 ^ 64 ->
      ~ counter_tracks_queue (stop zero_seconds s)).
Proof.
  unfold counter_tracks_queue, queued_bytes, queued_stream. intros Ht.
  assert (Hrange : 0 <= bufferedSize s < 2 ^ 64)
    by (rewrite Ht; apply wrap64_range).
  split; [|split; [|split]].
  - unfold enqueue_push. simpl.
    rewrite updateBufferSize_adds by exact Hrange.
    rewrite Ht, concat_app, length_app. simpl. rewrite app_nil_r.
    rewrite wrap64_add_l. unfold chunk_size. f_equal. lia.
  - intros Hlen. unfold fillAudioBuffer.
    destruct (audioQueue s) as [|chunk rest] eqn:Q.
    + simpl. rewrite Q. exact Ht.
    + destruct (Player.fill_loop mix (underrun s) (volume s) (chunk :: rest)
                                 len 0 (bufferedSize s) [])
        as [[[q' len'] buf'] w'] eqn:R.
      destruct (fill_loop_takes_prefix _ _ _ _ _ _ _ _ _ _ _ Hlen R)
        as (Hr & Hq & taken & Hcat & Htaken).
      apply fill_loop_counts in R; [|exact Hlen|exact Hrange].
      cbn [fst audioQueue bufferedSize set_underrun set_bufferedSize
               set_audioQueue].
      rewrite R, Ht, Hcat, length_app. unfold wrap64.
      rewrite Zminus_mod_idemp_l. f_equal. lia.
  - unfold stop. destruct (playerState s); reflexivity.
  - intros Hst Hq Hstop. unfold stop in Hstop.
    destruct (playerState s) eqn:St; [congruence| |];
      simpl in Hstop; rewrite Ht in Hstop;
      rewrite wrap64_small in Hstop by lia;
      change (wrap64 0) with 0 in Hstop; lia.
Qed.

End CallbackStream.

(** ** AudioPlayer: stop as a call *)

Section StopCall.

Import Decoder Player.

Variable Seconds : Type.
Variable zero_seconds : Seconds.
Variable mix : list Z -> list Z -> Z -> list Z.

(** The callback touches the playback queue, the underrun flag and the
    counter, and nothing else. *)
Lemma fillAudioBuffer_frame len (s : AudioPlayer Seconds) :
  exists q u b,
    fst (fillAudioBuffer mix len s)
    = mkPlayer (decoder s) (playerState s) q (isPlaying s) (isPaused s)
               (volume s) (currentPosition s) (isDecodingThreadRunning s)
               (devicePaused s) (swrContext s) u b.
Proof.
  unfold fillAudioBuffer. destruct (audioQueue s) as [|data rest] eqn:Q.
  - exists [], true, (bufferedSize s).
    destruct s; simpl in *; subst; reflexivity.
  - destruct (fill_loop mix (underrun s) (volume s) (data :: rest) len 0
                        (bufferedSize s) []) as [[[q' len'] b'] w'].
    exists q', false, b'. reflexivity.
Qed.

Lemma join_parked_frame callbacks :
  forall (s s1 : AudioPlayer Seconds),
    join_parked mix callbacks s = Returns s1 ->
    exists q u b,
      s1 = mkPlayer (decoder s) (playerState s) q (isPlaying s) (isPaused s)
                    (volume s) (currentPosition s) (isDecodingThreadRunning s)
                    (devicePaused s) (swrContext s) u b.
Proof.
  induction callbacks as [|len rest IH]; intros s s1 H; simpl in H;
    [discriminate|].
  destruct (fillAudioBuffer_frame len s) as (q & u & b & E).
  destruct (fill_notifies s (fst (fillAudioBuffer mix len s))).
  - inversion H; subst. eauto.
  - apply IH in H. destruct H as (q' & u' & b' & H).
    rewrite E in H. simpl in H. eauto.
Qed.

Lemma join_frame th callbacks (s s1 : AudioPlayer Seconds) :
  join mix th callbacks s = Returns s1 ->
  exists q u b,
    s1 = mkPlayer (decoder s) (playerState s) q (isPlaying s) (isPaused s)
                  (volume s) (currentPosition s) (isDecodingThreadRunning s)
                  (devicePaused s) (swrContext s) u b.
Proof.
  unfold join. destruct th.
  - intros H; inversion H; subst. destruct s1. simpl. eauto.
  - intros H; inversion H; subst. destruct s1. simpl. eauto.
  - intros H. apply (join_parked_frame callbacks).
    destruct (devicePaused s); [discriminate H|exact H].
Qed.

(** A [stop] that returns: at its guard on a STOPPED player, and otherwise
    with every field but the underrun flag and the counter decided by the
    state at the call. *)
Lemma stop_call_returns th callbacks (s s1 : AudioPlayer Seconds) :
  stop_call zero_seconds mix th callbacks s = Returns s1 ->
  (playerState s = STOPPED /\ s1 = s)
  \/ (playerState s <> STOPPED
      /\ exists u b,
           s1 = mkPlayer (option_map Decoder.stop (decoder s)) STOPPED []
                         false false (volume s) zero_seconds false true false
                         u b).
Proof.
  unfold stop_call.
  destruct (playerState s) eqn:St.
  - intros H; inversion H; subst. left. split; reflexivity.
  - destruct (join mix th callbacks (set_isDecodingThreadRunning false s))
      as [s0|] eqn:J; [|discriminate].
    intros H; inversion H; subst. right. split; [discriminate|].
    apply join_frame in J. destruct J as (q & u & b & J). subst s0.
    simpl. eauto.
  - destruct (join mix th callbacks (set_isDecodingThreadRunning false s))
      as [s0|] eqn:J; [|discriminate].
    intros H; inversion H; subst. right. split; [discriminate|].
    apply join_frame in J. destruct J as (q & u & b & J). subst s0.
    simpl. eauto.
Qed.

(** Unless the conversion thread is parked on [dataCondition], [stop]
    returns, with the state [Player.stop] gives. *)
Lemma stop_call_unparked th callbacks (s : AudioPlayer Seconds) :
  th <> OnDataCondition ->
  stop_call zero_seconds mix th callbacks s = Returns (stop zero_seconds s).
Proof.
  intros Hth. unfold stop_call, stop, join.
  destruct (playerState s); [reflexivity| |];
    destruct th; try congruence; reflexivity.
Qed.

(** On a STOPPED player [stop] returns at its guard, whatever the threads
    do. *)
Lemma stop_call_stopped th callbacks (s : AudioPlayer Seconds) :
  playerState s = STOPPED ->
  stop_call zero_seconds mix th callbacks s = Returns s.
Proof. intros H. unfold stop_call. rewrite H. reflexivity. Qed.

(** With the conversion thread parked and the device paused, [stop] does
    not return. *)
Lemma stop_call_parked_paused callbacks (s : AudioPlayer Seconds) :
  playerState s <> STOPPED -> devicePaused s = true ->
  stop_call zero_seconds mix OnDataCondition callbacks s = Blocks.
Proof.
  intros Hst Hdev. unfold stop_call, join.
  destruct (playerState s); [congruence| |]; simpl; rewrite Hdev; reflexivity.
Qed.

End StopCall.

(** ** AudioPlayer: loading a file, converting a frame *)

Section LoadAndConvert.

Import Decoder Player Conversion.

Variable Seconds : Type.
Variable zero_seconds : Seconds.
Variable mix : list Z -> list Z -> Z -> list Z.

(** What [loadFile] does once its [stop()] has returned with [s1]. *)
Lemma loadFile_after_stop th callbacks m device_opened r ctx
      (s s1 : AudioPlayer Seconds) (d1 : AudioDecoder) :
  stop_call zero_seconds mix th callbacks s = Returns s1 ->
  decoder s1 = Some d1 ->
  exists ok u,
    loadFile zero_seconds mix th callbacks m device_opened r ctx s
    = Returns
        (Some (ok,
               mkPlayer (Some (snd (fst (Open.open m d1 ctx)))) (playerState s1)
                        (audioQueue s1) (isPlaying s1) (isPaused s1) (volume s1)
                        (currentPosition s1) (isDecodingThreadRunning s1)
                        (if Open.is_success (fst (fst (Open.open m d1 ctx)))
                            && device_opened
                         then true else devicePaused s1)
                        u (underrun s1) (bufferedSize s1),
               snd (Open.open m d1 ctx)))
    /\ (ok = true <->
        fst (fst (Open.open m d1 ctx)) = Open.SUCCESS /\ device_opened = true
        /\ r = SwrReady)
    /\ (ok = true -> u = true).
Proof.
  intros Hstop Hd. unfold loadFile. rewrite Hstop, Hd.
  destruct (Open.open m d1 ctx) as [[err d'] ctx'] eqn:O. cbn [fst snd].
  destruct err; cbn [Open.is_success negb andb];
    try (exists false, (swrContext s1); split;
         [destruct s1; reflexivity|];
         split; [split; [discriminate|intros (H & _); discriminate H]
                |discriminate]).
  unfold init. destruct device_opened; cbn [negb].
  2:{ exists false, (swrContext s1). split; [destruct s1; reflexivity|].
      split; [split; [discriminate|intros (_ & H & _); discriminate H]
             |discriminate]. }
  unfold initResampler. cbn.
  destruct r; cbn.
  - exists false, false. split; [reflexivity|].
    split; [split; [discriminate|intros (_ & _ & H); discriminate H]
           |discriminate].
  - exists false, false. split; [reflexivity|].
    split; [split; [discriminate|intros (_ & _ & H); discriminate H]
           |discriminate].
  - exists false, true. split; [reflexivity|].
    split; [split; [discriminate|intros (_ & _ & H); discriminate H]
           |discriminate].
  - exists true, true. split; [reflexivity|].
    split; [split; [intros _; repeat split|reflexivity]|reflexivity].
Qed.

(** X17. [loadFile] begins with [stop()]: it returns exactly when that
    [stop()] returns, so it does whenever the conversion thread is not
    parked on the full playback queue, and it does not when that thread is
    parked and the device is paused.  On a player that has a decoder a
    call that returns leaves the player STOPPED; it returns [true] exactly
    when the file opens, the device opens and the resampler initialises,
    and then the decoder points at the first audio stream, the device is
    paused and a resampler is in place.  Whether it succeeds or fails, and
    at whichever step, the frame queue is left as it was: frames decoded
    from the file loaded before are still queued. *)
Theorem loadFile_outcome (th : conversion_thread) (callbacks : list Z)
        (m : Open.media) (device_opened : bool) (r : resampler_result)
        (ctx : Open.contexts) (s : AudioPlayer Seconds) (d : AudioDecoder) :
  decoder s = Some d ->
  (loadFile zero_seconds mix th callbacks m device_opened r ctx s = Blocks
   <-> stop_call zero_seconds mix th callbacks s = Blocks)
  /\ (th <> OnDataCondition ->
      loadFile zero_seconds mix th callbacks m device_opened r ctx s <> Blocks)
  /\ (th = OnDataCondition -> playerState s <> STOPPED ->
      devicePaused s = true ->
      loadFile zero_seconds mix th callbacks m device_opened r ctx s = Blocks)
  /\ (forall s1,
        stop_call zero_seconds mix th callbacks s = Returns s1 ->
        exists ok s' ctx',
          loadFile zero_seconds mix th callbacks m device_opened r ctx s
          = Returns (Some (ok, s', ctx'))
          /\ playerState s' = STOPPED
          /\ frame_queue s' = frame_queue s
          /\ (ok = true <->
              fst (fst (Open.open m d ctx)) = Open.SUCCESS
              /\ device_opened = true /\ r = SwrReady)
          /\ (ok = true ->
              s' = loadFile_opened zero_seconds
                                   (Open.find_audio_stream (Open.streams m)) s1)).
Proof.
  intros Hd.
  assert (Hblocks :
            loadFile zero_seconds mix th callbacks m device_opened r ctx s
            = Blocks
            <-> stop_call zero_seconds mix th callbacks s = Blocks).
  { unfold loadFile.
    destruct (stop_call zero_seconds mix th callbacks s);
      split; intros H; solve [discriminate H | reflexivity]. }
  split; [exact Hblocks|].
  split.
  { intros Hth H. apply Hblocks in H.
    rewrite (stop_call_unparked _ zero_seconds mix th callbacks s Hth) in H.
    discriminate H. }
  split.
  { intros Hth Hst Hdev. subst th. apply Hblocks.
    apply stop_call_parked_paused; assumption. }
  intros s1 Hstop.
  assert (Hs1 : playerState s1 = STOPPED
                /\ exists d1, decoder s1 = Some d1
                              /\ frameQueue d1 = frameQueue d
                              /\ config d1 = config d
                              /\ released d1 = released d
                              /\ isDecoding d1
                                 = match playerState s with
                                   | STOPPED => isDecoding d
                                   | _ => false
                                   end).
  { destruct (stop_call_returns _ _ _ _ _ _ _ Hstop)
      as [[Hst E]|(Hst & u & b & E)]; subst s1.
    - split; [exact Hst|]. exists d. rewrite Hst. repeat split. exact Hd.
    - split; [reflexivity|]. simpl. rewrite Hd. simpl.
      exists (Decoder.stop d).
      unfold Decoder.stop.
      destruct (playerState s); [congruence| |];
        destruct (isDecoding d) eqn:I; simpl; repeat split; auto. }
  destruct Hs1 as (Hst1 & d1 & Hd1 & Hq1 & Hc1 & Hr1 & Hi1).
  destruct (loadFile_after_stop th callbacks m device_opened r ctx s s1 d1
              Hstop Hd1) as (ok & u & Hrun & Hok & Hu).
  assert (Herr : fst (fst (Open.open m d1 ctx)) = fst (fst (Open.open m d ctx))).
  { rewrite !open_error. reflexivity. }
  pose proof (open_fields m d1 ctx) as Hf.
  destruct (Open.open m d1 ctx) as [[err d'] ctx'] eqn:O.
  cbn [fst snd] in Hrun, Hok, Herr.
  destruct Hf as (Hq & Hr & Hi & Hcfg & _ & Hidx).
  eexists. eexists. eexists. split; [exact Hrun|].
  split; [exact Hst1|].
  split.
  { unfold frame_queue. simpl. rewrite Hd, Hq, Hq1. reflexivity. }
  split.
  { rewrite <- Herr. exact Hok. }
  intros Hok1. pose proof (Hu Hok1) as Hu1.
  apply Hok in Hok1. destruct Hok1 as (He & Hdev & _).
  rewrite He, Hdev, Hu1. cbn [Open.is_success andb].
  unfold loadFile_opened, stop. rewrite Hst1, Hd1. cbn.
  rewrite <- Hq, <- Hr, <- Hi, <- Hcfg.
  rewrite <- Hidx by (rewrite He; discriminate).
  rewrite ?Hst1. destruct d'. reflexivity.
Qed.

Variable Swr : Type.
Variable swr_get_delay : Swr -> Z -> Z.
Variable swr_convert : Swr -> Z -> AVFrame -> Z * list Z * Swr.
Variable av_rescale_rnd_up : Z -> Z -> Z -> Z.
Variable pts_to_seconds : Z -> Seconds.

Local Abbreviation convert :=
  (processDecodedFrame swr_get_delay swr_convert av_rescale_rnd_up
                       pts_to_seconds).

Lemma enqueue_effect data (s s' : AudioPlayer Seconds) :
  processDecodedFrame_enqueue data s = Returns s' ->
  s' = s \/ s' = enqueue_push data s.
Proof.
  unfold processDecodedFrame_enqueue, enqueue_resumed.
  destruct (MAX_QUEUE_SIZE <=? playback_size s).
  - destruct (enqueue_pred s); [|discriminate].
    destruct (negb (isDecodingThreadRunning s)); intros H; inversion H; auto.
  - intros H; inversion H; auto.
Qed.

(** X18. One frame through [processDecodedFrame]: when the call returns,
    the playback queue is either as before or longer by exactly one chunk
    at its tail, with the counter raised by that chunk's size; the position
    is either as before or the frame's timestamp in seconds, and it is as
    before when the frame carries no timestamp; the player state, the
    volume, the decoder and the flags are untouched. *)
Theorem processDecodedFrame_effect (rate channels : Z) (swr swr' : Swr)
        (frame : AVFrame) (s s' : AudioPlayer Seconds) :
  convert rate channels swr frame s = Returns (swr', s') ->
  playerState s' = playerState s
  /\ decoder s' = decoder s
  /\ volume s' = volume s
  /\ isDecodingThreadRunning s' = isDecodingThreadRunning s
  /\ underrun s' = underrun s
  /\ (audioQueue s' = audioQueue s /\ bufferedSize s' = bufferedSize s
      \/ exists data,
           audioQueue s' = audioQueue s ++ [data]
           /\ bufferedSize s'
              = updateBufferSize (chunk_size data) (bufferedSize s))
  /\ (currentPosition s' = currentPosition s
      \/ currentPosition s' = pts_to_seconds (pts frame))
  /\ (pts frame = AV_NOPTS_VALUE -> currentPosition s' = currentPosition s).
Proof.
  unfold processDecodedFrame.
  destruct (negb (swrContext s)).
  { intros H; inversion H; subst. repeat split; auto. }
  destruct (av_rescale_rnd_up _ _ _ <=? 0).
  { intros H; inversion H; subst. repeat split; auto. }
  destruct (_ * channels * 2 =? 0).
  { intros H; inversion H; subst. repeat split; auto. }
  destruct (swr_convert swr _ frame) as [[samples_out buffer] swr1].
  destruct (samples_out <? 0).
  { intros H; inversion H; subst. repeat split; auto. }
  match goal with
  | |- context [processDecodedFrame_enqueue ?data ?s1] =>
      destruct (processDecodedFrame_enqueue data s1) as [s2|] eqn:E;
        [|discriminate]
  end.
  intros H; inversion H; subst.
  apply enqueue_effect in E.
  destruct (pts frame =? AV_NOPTS_VALUE) eqn:P;
    [apply Z.eqb_eq in P|apply Z.eqb_neq in P];
    destruct E as [E|E]; subst s'; simpl;
    repeat split; auto; try (right; eexists; split; reflexivity);
    intros Hn; congruence.
Qed.

(** X19. A frame that cannot be converted is absorbed: without a
    resampler, with a non-positive output estimate, with no device channels
    or when [swr_convert] reports an error, [processDecodedFrame] returns
    without waiting and leaves the player exactly as it was. *)
Theorem processDecodedFrame_absorbs_errors (rate channels : Z) (swr : Swr)
        (frame : AVFrame) (s : AudioPlayer Seconds) :
  let out_samples :=
    av_rescale_rnd_up (swr_get_delay swr (sample_rate frame) + nb_samples frame)
                      rate (sample_rate frame) in
  swrContext s = false \/ out_samples <= 0 \/ channels = 0
  \/ fst (fst (swr_convert swr out_samples frame)) < 0 ->
  exists swr', convert rate channels swr frame s = Returns (swr', s).
Proof.
  intros out_samples H. unfold processDecodedFrame. fold out_samples.
  destruct (swrContext s) eqn:Hswr; simpl; [|eexists; reflexivity].
  destruct (out_samples <=? 0) eqn:Hout; [eexists; reflexivity|].
  apply Z.leb_gt in Hout.
  destruct (out_samples * channels * 2 =? 0) eqn:Hsize; [eexists; reflexivity|].
  apply Z.eqb_neq in Hsize.
  destruct H as [H|[H|[H|H]]]; [discriminate|lia|subst; lia|].
  destruct (swr_convert swr out_samples frame) as [[samples_out buffer] swr1].
  simpl in H. apply Z.ltb_lt in H. rewrite H. eexists. reflexivity.
Qed.

End LoadAndConvert.

(** ** Logger: file names and named loggers *)

Section LoggerProps.

Import Logging.

Lemma str_eqb_refl (a : str) : str_eqb a a = true.
Proof.
  induction a as [|x a IH]; simpl; [reflexivity|].
  rewrite Ascii.eqb_refl, IH. reflexivity.
Qed.

Lemma str_eqb_eq (a b : str) : str_eqb a b = true <-> a = b.
Proof.
  split; [|intros <-; apply str_eqb_refl].
  revert b. induction a as [|x a IH]; intros [|y b] H; simpl in H;
    try discriminate; [reflexivity|].
  apply andb_true_iff in H. destruct H as [Hx Ha].
  apply Ascii.eqb_eq in Hx. apply IH in Ha. subst. reflexivity.
Qed.

Lemma find_last_of_from_app c (a b : str) :
  forall i acc,
    find_last_of_from c i (a ++ b) acc
    = find_last_of_from c (i + length a) b (find_last_of_from c i a acc).
Proof.
  induction a as [|x a IH]; intros i acc; simpl.
  - rewrite Nat.add_0_r. reflexivity.
  - rewrite IH. f_equal. lia.
Qed.

Lemma find_last_of_from_absent c (s : str) :
  ~ In c s -> forall i acc, find_last_of_from c i s acc = acc.
Proof.
  induction s as [|x s IH]; intros Hc i acc; simpl; [reflexivity|].
  destruct (Ascii.eqb x c) eqn:E.
  - apply Ascii.eqb_eq in E. subst. exfalso. apply Hc. left. reflexivity.
  - apply IH. intros H. apply Hc. right. exact H.
Qed.

Lemma find_last_of_split c (stem ext : str) :
  ~ In c ext -> find_last_of c (stem ++ c :: ext) = Some (length stem).
Proof.
  intros Hc. unfold find_last_of. rewrite find_last_of_from_app. simpl.
  rewrite Ascii.eqb_refl. apply find_last_of_from_absent. exact Hc.
Qed.

Lemma insert_at_split (stem rest t : str) :
  insert (length stem) t (stem ++ rest) = stem ++ t ++ rest.
Proof.
  unfold insert. rewrite firstn_app, skipn_app, Nat.sub_diag.
  rewrite firstn_all, skipn_all. simpl. rewrite app_nil_r. reflexivity.
Qed.

Lemma last_occurrence (c : Ascii.ascii) (s : str) :
  In c s -> exists stem ext, s = stem ++ c :: ext /\ ~ In c ext.
Proof.
  induction s as [|x s IH]; intros H; [contradiction|].
  destruct (in_dec Ascii.ascii_dec c s) as [Hin|Hout].
  - destruct (IH Hin) as (stem & ext & -> & Hext).
    exists (x :: stem), ext. split; [reflexivity|exact Hext].
  - destruct H as [->|H]; [|contradiction].
    exists [], s. split; [reflexivity|exact Hout].
Qed.

(** X20. The file of a named logger: the name is put, behind an
    underscore, in front of the last dot of the configured file name, so
    that the stem and the extension are kept; a configured name without a
    dot is used as it is, for every logger name. *)
Theorem logger_filename_splits_at_last_dot (name : str) :
  (forall stem ext,
     ~ In dot ext ->
     logger_filename (stem ++ dot :: ext) name
     = stem ++ underscore :: name ++ dot :: ext)
  /\ (forall file, ~ In dot file -> logger_filename file name = file).
Proof.
  split.
  - intros stem ext Hext. unfold logger_filename.
    rewrite (find_last_of_split dot stem ext Hext).
    apply (insert_at_split stem (dot :: ext) (underscore :: name)).
  - intros file Hfile. unfold logger_filename, find_last_of.
    rewrite find_last_of_from_absent by exact Hfile. reflexivity.
Qed.

(** X21. Loggers of different names write to different files, provided
    the configured file name has a dot: the derived file name determines
    the logger name. *)
Theorem logger_filename_injective (file name1 name2 : str) :
  In dot file ->
  logger_filename file name1 = logger_filename file name2 ->
  name1 = name2.
Proof.
  intros Hdot Heq.
  destruct (last_occurrence dot file Hdot) as (stem & ext & -> & Hext).
  unfold logger_filename in Heq.
  rewrite (find_last_of_split dot stem ext Hext) in Heq.
  rewrite !(insert_at_split stem (dot :: ext)) in Heq.
  apply app_inv_head in Heq. simpl in Heq. inversion Heq as [H].
  apply app_inv_tail in H. exact H.
Qed.

Lemma find_head name g m : find name ((name, g) :: m) = Some g.
Proof. simpl. rewrite str_eqb_refl. reflexivity. Qed.

Lemma getLogger_found ok name L g :
  find name (loggers_ L) = Some g -> getLogger ok name L = Some (Some g, L).
Proof. intros H. unfold getLogger. rewrite H. reflexivity. Qed.

Lemma getLogger_registers ok name L g L' :
  getLogger ok name L = Some (Some g, L') ->
  find name (loggers_ L') = Some g.
Proof.
  unfold getLogger. destruct (find name (loggers_ L)) as [g0|] eqn:F.
  - intros H; inversion H; subst. exact F.
  - destruct ok; simpl; [|discriminate].
    destruct (logger_ L) as [main|]; [|discriminate].
    intros H; inversion H; subst. simpl. rewrite str_eqb_refl. reflexivity.
Qed.

(** X22. Named loggers are created once: after [getLogger(name)] has
    returned a logger, every later [getLogger(name)] returns that same
    logger and changes nothing, even if the sinks could no longer be
    built; and creating it has not changed what other names find. *)
Theorem getLogger_caches (ok ok' : bool) (name : str) (L L' : Logger)
        (g : spd_logger) :
  getLogger ok name L = Some (Some g, L') ->
  getLogger ok' name L' = Some (Some g, L')
  /\ forall other, other <> name ->
                   find other (loggers_ L') = find other (loggers_ L).
Proof.
  intros H. split.
  - apply getLogger_found. eapply getLogger_registers. exact H.
  - intros other Hother. unfold getLogger in H.
    destruct (find name (loggers_ L)) as [g0|] eqn:F.
    + inversion H; subst. reflexivity.
    + destruct ok; simpl in H; [|discriminate].
      destruct (logger_ L) as [main|]; [|discriminate].
      inversion H; subst. simpl.
      destruct (str_eqb name other) eqn:E; [|reflexivity].
      apply str_eqb_eq in E. congruence.
Qed.

(** X23. A named logger takes the level the main logger has when it is
    created and keeps it: a logger created by [getLogger] has the main
    logger's level and the derived file name, and a later [setLevel]
    changes the main logger only, so that [getLogger] still returns the
    named logger with its old level. *)
Theorem named_logger_keeps_level (name : str) (lvl : Level) (ok : bool)
        (L L' : Logger) (main g : spd_logger) :
  find name (loggers_ L) = None ->
  logger_ L = Some main ->
  getLogger true name L = Some (Some g, L') ->
  lg_level g = lg_level main
  /\ lg_file g = logger_filename (filename (config_ L)) name
  /\ getLogger ok name (setLevel lvl L') = Some (Some g, setLevel lvl L')
  /\ logger_ (setLevel lvl L') = Some (set_lg_level (to_spdlog lvl) main).
Proof.
  intros Hnew Hmain H.
  assert (Hreg : find name (loggers_ L') = Some g)
    by (eapply getLogger_registers; exact H).
  unfold getLogger in H. rewrite Hnew, Hmain in H. simpl in H.
  inversion H; subst. simpl.
  split; [reflexivity|]. split; [reflexivity|].
  unfold setLevel. simpl.
  split; [|reflexivity].
  apply getLogger_found. simpl. rewrite str_eqb_refl. reflexivity.
Qed.

End LoggerProps.

(** ** The further properties on concrete runs *)

Lemma pushFrame_accounts_for_frame_witness :
  Decoder.frameQueue
    (Decoder.set_frameQueue [sample_frame 1; sample_frame 9] roomy_decoder)
  = Decoder.frameQueue roomy_decoder ++ [sample_frame 9]
  /\ Decoder.pushFrame (sample_frame 9)
       (Decoder.set_frameQueue [sample_frame 1; sample_frame 2] roomy_decoder)
     = Blocks.
Proof.
  destruct (pushFrame_accounts_for_frame (sample_frame 9) roomy_decoder)
    as (Htrue & _ & _).
  destruct (pushFrame_accounts_for_frame (sample_frame 9)
              (Decoder.set_frameQueue [sample_frame 1; sample_frame 2]
                                      roomy_decoder)) as (_ & _ & Hblocks).
  split.
  - destruct (Htrue _ eq_refl) as (_ & _ & Hq & _). exact Hq.
  - apply Hblocks. repeat split. vm_compute. discriminate.
Defined.

Lemma frame_queue_is_fifo_witness :
  pop_all 2 100
          (Decoder.set_frameQueue [sample_frame 1; sample_frame 2] roomy_decoder)
  = ([sample_frame 1; sample_frame 2],
     Decoder.set_frameQueue [] roomy_decoder).
Proof.
  destruct (frame_queue_is_fifo [sample_frame 2] 100 roomy_decoder
              (Decoder.set_frameQueue [sample_frame 1; sample_frame 2]
                                      roomy_decoder) eq_refl) as (_ & Hpop).
  exact Hpop.
Defined.

Lemma decodeLoop_only_appends_witness :
  exists fc cc d' new,
    Models.run_decodeLoop 10 [packet1; packet2] (Models.mkCodec 0 [] [] false)
                          roomy_decoder = Some (fc, cc, d')
    /\ Decoder.frameQueue d' = sample_frame 1 :: new.
Proof.
  destruct (Models.run_decodeLoop 10 [packet1; packet2]
              (Models.mkCodec 0 [] [] false) roomy_decoder)
    as [[[fc cc] d']|] eqn:R; [|vm_compute in R; discriminate R].
  unfold Models.run_decodeLoop in R.
  destruct (decodeLoop_only_appends _ _ _ _ _ _ _ _ _ _ _ _ _ _ R) as [new Hnew].
  exists fc, cc, d', new. split; [reflexivity|]. rewrite Hnew. reflexivity.
Defined.

Lemma decodeLoop_skips_foreign_packets_witness :
  Models.run_decodeLoop 4 video_packets (Models.mkCodec 1 [] [] false)
                        player_decoder
  = Some ([], Models.mkCodec 1 [] [] true, player_decoder).
Proof.
  apply (decodeLoop_skips_foreign_packets Models.codec Models.codec_send
           Models.codec_receive (fun t => t) (fun f => Some f) video_packets
           (Models.mkCodec 1 [] [] false) player_decoder).
  - reflexivity.
  - intros p [H|[H|[H|[]]]]; subst p; discriminate.
Defined.

Lemma find_audio_stream_is_first_witness :
  exists n, Open.find_audio_stream (Open.streams movie) = Z.of_nat n
            /\ nth n (Open.streams movie) Open.AVMEDIA_TYPE_VIDEO
               = Open.AVMEDIA_TYPE_AUDIO.
Proof.
  destruct (find_audio_stream_is_first (Open.streams movie)) as (_ & Hfound).
  destruct (Hfound ltac:(vm_compute; discriminate)) as (n & Hn & _ & Ha & _).
  exists n. split; assumption.
Defined.

Lemma open_outcome_witness :
  fst (fst (Open.open movie roomy_decoder no_contexts)) = Open.SUCCESS
  /\ Decoder.audioStreamIndex (snd (fst (Open.open movie roomy_decoder no_contexts)))
     = 1
  /\ Decoder.frameQueue (snd (fst (Open.open movie roomy_decoder no_contexts)))
     = [sample_frame 1]
  /\ Open.formatContext (snd (Open.open missing_file roomy_decoder movie_contexts))
     = None
  /\ Open.getSampleRate (fun _ _ => 44100)
                        (snd (Open.open missing_file roomy_decoder movie_contexts))
     = 0.
Proof.
  destruct (open_outcome movie roomy_decoder no_contexts)
    as (Hq & _ & _ & _ & Hiff & Hidx & _).
  destruct (open_outcome missing_file roomy_decoder movie_contexts)
    as (_ & _ & _ & _ & _ & _ & _ & Hgone & _ & _ & _ & Hrate).
  assert (Hs : fst (fst (Open.open movie roomy_decoder no_contexts))
               = Open.SUCCESS).
  { apply Hiff. vm_compute. repeat split; discriminate. }
  destruct (Hgone eq_refl) as (_ & Hfmt & Hcodec).
  split; [exact Hs|].
  split; [destruct (Hidx Hs) as [H _]; rewrite H; reflexivity|].
  split; [exact Hq|].
  split; [exact Hfmt|].
  apply Hrate. exact Hcodec.
Defined.

Lemma controller_flags_follow_state_witness : flags_consistent playing_player.
Proof.
  apply (controller_flags_follow_state Z 0 always_seekable).
  eapply reaches_call.
  - eapply reaches_call.
    + apply reaches_new.
    + apply (call_loadFile 0 always_seekable 0). discriminate.
  - apply (call_play 0 always_seekable).
Defined.

Lemma setVolume_clamps_witness :
  Player.getVolume (Player.setVolume 200 playing_player) = 128
  /\ Player.getVolume (Player.setVolume 64 playing_player) = 64.
Proof.
  destruct (setVolume_clamps Z 200 0 playing_player) as (Hmax & _).
  destruct (setVolume_clamps Z 64 0 playing_player) as (_ & Hin & _).
  split; [rewrite Hmax; reflexivity|].
  apply Hin. unfold SDL_MIX_MAXVOLUME. lia.
Defined.

Lemma pause_resume_round_trip_witness :
  Player.resume (Player.pause playing_player) = playing_player.
Proof.
  destruct (pause_resume_round_trip Z playing_player) as (Hrt & _).
  apply Hrt; reflexivity.
Defined.

Lemma play_idempotent_witness :
  Player.playerState (Player.play loaded_player) = Player.PLAYING
  /\ Player.play (Player.play loaded_player) = Player.play loaded_player.
Proof.
  destruct (play_idempotent Z loaded_player) as (Hidem & _ & _ & _ & Hstart).
  split; [|exact Hidem].
  destruct (Hstart (Decoder.mkDecoder (Decoder.mkConfig 50 10 false) 0 false [] [])
                   eq_refl eq_refl) as (Hst & _).
  exact Hst.
Defined.

Lemma seek_composes_witness :
  Player.seek always_seekable 7 (Player.seek always_seekable 5 playing_with_frame)
  = Player.seek always_seekable 7 playing_with_frame.
Proof.
  destruct (seek_composes Z always_seekable 5 7 playing_with_frame) as (Hlast & _).
  apply Hlast. reflexivity.
Defined.

Lemma mix_s16_length :
  forall dst src vol, length (Models.mix_s16 dst src vol) = length dst.
Proof.
  fix IH 1. intros [|dl [|dh dst]] src vol; try reflexivity.
  destruct src as [|sl [|sh src]]; try reflexivity.
  simpl. rewrite IH. reflexivity.
Qed.

Lemma SDL_MixAudioFormat_length dst src vol :
  length (Models.SDL_MixAudioFormat dst src vol) = length dst.
Proof.
  unfold Models.SDL_MixAudioFormat. destruct (vol =? 0); [reflexivity|].
  apply mix_s16_length.
Qed.

Lemma fillAudioBuffer_fills_len_witness :
  length (snd (Player.fillAudioBuffer Models.SDL_MixAudioFormat 4 buffered_player))
  = 4%nat
  /\ length (snd (Player.fillAudioBuffer Models.SDL_MixAudioFormat 16
                                         buffered_player)) = 16%nat.
Proof.
  split.
  - apply (fillAudioBuffer_fills_len Z Models.SDL_MixAudioFormat 4 buffered_player).
    + exact SDL_MixAudioFormat_length.
    + lia.
  - apply (fillAudioBuffer_fills_len Z Models.SDL_MixAudioFormat 16 buffered_player).
    + exact SDL_MixAudioFormat_length.
    + lia.
Defined.

Lemma fillAudioBuffer_takes_prefix_witness :
  queued_stream (fst (Player.fillAudioBuffer Models.SDL_MixAudioFormat 4
                                            buffered_player))
  = [5; 6; 7; 8; 9; 10].
Proof.
  rewrite (fillAudioBuffer_takes_prefix Z Models.SDL_MixAudioFormat 4
             buffered_player ltac:(lia)).
  reflexivity.
Defined.

Lemma bufferedSize_follows_queue_witness :
  counter_tracks_queue buffered_player
  /\ counter_tracks_queue
       (fst (Player.fillAudioBuffer Models.SDL_MixAudioFormat 4 buffered_player))
  /\ ~ counter_tracks_queue (Player.stop 0 buffered_player).
Proof.
  assert (Ht : counter_tracks_queue buffered_player) by reflexivity.
  destruct (bufferedSize_follows_queue Z Models.SDL_MixAudioFormat 0 4 []
              buffered_player Ht) as (_ & Hfill & _ & Hstop).
  split; [exact Ht|]. split; [apply Hfill; lia|].
  apply Hstop; [discriminate|vm_compute; split; reflexivity].
Defined.

Lemma loadFile_outcome_witness :
  (exists s' ctx',
     Conversion.loadFile 0 Models.SDL_MixAudioFormat Player.NotJoinable [] movie true
                         Conversion.SwrReady no_contexts (Player.new_player 0)
     = Returns (Some (true, s', ctx'))
     /\ Player.playerState s' = Player.STOPPED)
  /\ Conversion.loadFile 0 Models.SDL_MixAudioFormat Player.OnDataCondition [4096]
                         movie true Conversion.SwrReady movie_contexts
                         paused_full_player
     = Blocks.
Proof.
  split.
  - destruct (loadFile_outcome Z 0 Models.SDL_MixAudioFormat Player.NotJoinable []
                movie true Conversion.SwrReady no_contexts
                (Player.new_player 0)
                (Decoder.mkDecoder (Decoder.mkConfig 50 10 false) (-1) false [] [])
                eq_refl) as (_ & _ & _ & Hret).
    destruct (Hret (Player.new_player 0) eq_refl)
      as (ok & s' & ctx' & Hrun & Hst & _ & Hok & _).
    assert (E : ok = true).
    { apply Hok. repeat split. }
    subst ok. exists s', ctx'. split; assumption.
  - destruct (loadFile_outcome Z 0 Models.SDL_MixAudioFormat Player.OnDataCondition
                [4096] movie true Conversion.SwrReady movie_contexts
                paused_full_player
                (Decoder.mkDecoder (Decoder.mkConfig 50 10 false) 0 true [] [])
                eq_refl) as (_ & _ & Hblocks & _).
    apply Hblocks; [reflexivity|discriminate|reflexivity].
Defined.

Lemma processDecodedFrame_effect_witness :
  exists s',
    Conversion.processDecodedFrame (fun _ _ => 0) passthrough_convert rescale_up
                                   (fun p => p) 44100 1 tt mono_frame
                                   playing_player = Returns (tt, s')
    /\ Player.audioQueue s' = [[1; 2; 3; 4]]
    /\ Player.currentPosition s' = 90
    /\ Player.playerState s' = Player.PLAYING.
Proof.
  eexists. split; [vm_compute; reflexivity|].
  match goal with
  | |- _ /\ _ /\ Player.playerState ?s = _ =>
      destruct (processDecodedFrame_effect Z unit (fun _ _ => 0)
                  passthrough_convert rescale_up (fun p => p) 44100 1 tt tt
                  mono_frame playing_player s ltac:(vm_compute; reflexivity))
        as (Hst & _)
  end.
  split; [reflexivity|]. split; [reflexivity|]. exact Hst.
Defined.

Lemma processDecodedFrame_absorbs_errors_witness :
  exists swr',
    Conversion.processDecodedFrame (fun _ _ => 0) passthrough_convert rescale_up
                                   (fun p => p) 44100 2 tt mono_frame
                                   (Player.new_player 0)
    = Returns (swr', Player.new_player 0).
Proof.
  apply (processDecodedFrame_absorbs_errors Z unit (fun _ _ => 0)
           passthrough_convert rescale_up (fun p => p) 44100 2 tt mono_frame
           (Player.new_player 0)).
  left. reflexivity.
Defined.

Lemma logger_filename_splits_at_last_dot_witness :
  Logging.logger_filename LogNames.app_log LogNames.AudioPlayer_name
  = LogNames.player_log
  /\ Logging.logger_filename LogNames.no_extension LogNames.AudioPlayer_name
     = LogNames.no_extension.
Proof.
  destruct (logger_filename_splits_at_last_dot LogNames.AudioPlayer_name)
    as (Hdot & Hnone).
  split.
  - apply (Hdot (firstn 8 LogNames.app_log) (skipn 9 LogNames.app_log)).
    vm_compute. intros [H|[H|[H|[]]]]; discriminate H.
  - apply Hnone. vm_compute.
    intros [H|[H|[H|[H|[H|[H|[H|[]]]]]]]]; discriminate H.
Defined.

Lemma logger_filename_injective_witness :
  Logging.logger_filename LogNames.app_log LogNames.AudioPlayer_name
  <> Logging.logger_filename LogNames.app_log LogNames.AudioDecoder_name.
Proof.
  intros H.
  apply (logger_filename_injective LogNames.app_log) in H.
  - discriminate H.
  - vm_compute. do 8 right. left. reflexivity.
Defined.

Lemma getLogger_caches_witness :
  exists g L',
    Logging.getLogger true LogNames.AudioPlayer_name initialized_logger
    = Some (Some g, L')
    /\ Logging.getLogger false LogNames.AudioPlayer_name L' = Some (Some g, L').
Proof.
  destruct (Logging.getLogger true LogNames.AudioPlayer_name initialized_logger)
    as [[[g|] L']|] eqn:E;
    [|vm_compute in E; discriminate E|vm_compute in E; discriminate E].
  exists g, L'. split; [reflexivity|].
  apply (getLogger_caches true false _ _ _ _ E).
Defined.

Lemma named_logger_keeps_level_witness :
  exists g L',
    Logging.getLogger true LogNames.AudioPlayer_name initialized_logger
    = Some (Some g, L')
    /\ Logging.lg_level g = Logging.level_debug
    /\ Logging.getLogger true LogNames.AudioPlayer_name
                         (Logging.setLevel Logging.ERROR L')
       = Some (Some g, Logging.setLevel Logging.ERROR L').
Proof.
  destruct (Logging.getLogger true LogNames.AudioPlayer_name initialized_logger)
    as [[[g|] L']|] eqn:E;
    [|vm_compute in E; discriminate E|vm_compute in E; discriminate E].
  destruct (named_logger_keeps_level LogNames.AudioPlayer_name Logging.ERROR true
              initialized_logger L' _ g eq_refl eq_refl E)
    as (Hlvl & _ & Hget & _).
  exists g, L'. split; [reflexivity|]. split; [exact Hlvl|exact Hget].
Defined.

Lemma frame_queue_ops_bounded_witness :
  frame_queue_bounded
    (Decoder.set_frameQueue [sample_frame 1; sample_frame 9] roomy_decoder).
Proof.
  apply (frame_queue_ops_bounded roomy_decoder).
  - eapply ops_step.
    + apply ops_nil.
    + apply (op_push (sample_frame 9) roomy_decoder true). reflexivity.
  - vm_compute. discriminate.
Defined.

Lemma playback_queue_op_bounded_witness :
  playback_queue_bounded
    (fst (Player.fillAudioBuffer Models.SDL_MixAudioFormat 4 buffered_player)).
Proof.
  apply (playback_queue_op_bounded Z 0 always_seekable Models.SDL_MixAudioFormat
                                   buffered_player).
  - apply pq_fill.
  - vm_compute. discriminate.
Defined.

Lemma fillAudioBuffer_volume_zero_witness :
  snd (Player.fillAudioBuffer Models.SDL_MixAudioFormat 4
                              (Player.setVolume 0 buffered_player))
  = [0; 0; 0; 0].
Proof.
  destruct (fillAudioBuffer_volume_zero Z Models.SDL_MixAudioFormat 4
              buffered_player) as (Hsilent & _).
  - intros dst src. reflexivity.
  - reflexivity.
  - exact Hsilent.
Defined.

(** * The player among its threads *)

Section Pipeline.

Import Decoder Player Conversion.

Variable Seconds : Type.
Variable zero_seconds : Seconds.
Variable av_seek_ok : Seconds -> bool.
Variable mix : list Z -> list Z -> Z -> list Z.

Local Abbreviation step := (pipeline_step zero_seconds av_seek_ok mix).
Local Abbreviation reaches := (pipeline_reaches zero_seconds av_seek_ok mix).

(** A [loadFile] that returns, on the fields it shares with [stop]. *)
Lemma loadFile_frame m device_opened r ctx ok ctx'
      (s s' : AudioPlayer Seconds) :
  loadFile zero_seconds mix InDecodingLoop [] m device_opened r ctx s
  = Returns (Some (ok, s', ctx')) ->
  playerState s' = STOPPED
  /\ audioQueue s' = audioQueue (stop zero_seconds s)
  /\ underrun s' = underrun s.
Proof.
  intros Hrun.
  assert (Hstop : stop_call zero_seconds mix InDecodingLoop [] s
                  = Returns (stop zero_seconds s)).
  { apply stop_call_unparked. discriminate. }
  destruct (decoder (stop zero_seconds s)) as [d1|] eqn:Hd.
  - destruct (loadFile_after_stop Seconds zero_seconds mix InDecodingLoop []
                m device_opened r ctx s _ d1 Hstop Hd)
      as (ok0 & u & Hrun0 & _).
    rewrite Hrun0 in Hrun. inversion Hrun; subst. simpl.
    unfold stop. destruct (playerState s) eqn:St; simpl; rewrite ?St;
      repeat split; reflexivity.
  - unfold loadFile in Hrun. rewrite Hstop, Hd in Hrun. discriminate Hrun.
Qed.

Lemma pushAudioData_resumed_effect data b (s s' : AudioPlayer Seconds) :
  pushAudioData_resumed data s = (b, s') ->
  s' = s \/ s' = set_audioQueue (audioQueue s ++ [data]) s.
Proof.
  unfold pushAudioData_resumed. destruct (negb (isPlaying s));
    intros H; inversion H; auto.
Qed.

Lemma pushAudioData_effect data b (s s' : AudioPlayer Seconds) :
  pushAudioData data s = Returns (b, s') ->
  s' = s \/ s' = set_audioQueue (audioQueue s ++ [data]) s.
Proof.
  unfold pushAudioData.
  destruct (negb (isPlaying s) || (chunk_size data <=? 0));
    [intros H; inversion H; auto|].
  destruct (MAX_QUEUE_SIZE <=? playback_size s).
  - destruct (pushAudioData_pred s); [|discriminate].
    intros H; inversion H as [H1].
    apply (pushAudioData_resumed_effect data b). exact H1.
  - intros H; inversion H; auto.
Qed.

(** What a call of the public interface does to the playback queue and to
    the underrun flag. *)
Lemma controller_call_queue (s s' : AudioPlayer Seconds) :
  controller_call zero_seconds av_seek_ok s s' ->
  underrun s' = underrun s
  /\ (audioQueue s' = []
      \/ audioQueue s' = audioQueue s
         /\ (playerState s' = STOPPED -> playerState s = STOPPED)).
Proof.
  intros Hc.
  destruct Hc as [stream s _|s|s|s|s|t s|v s];
    destruct s as [dec st q pl pa vol pos run dev swr un buf].
  - unfold loadFile_opened, stop. destruct st; simpl; auto.
  - unfold play, resume. destruct st; simpl; [destruct dec; simpl| |];
      split; auto; right; split; auto; discriminate.
  - unfold pause. destruct st; simpl; split; auto; right; split; auto;
      discriminate.
  - unfold resume. destruct st; simpl; split; auto; right; split; auto;
      discriminate.
  - unfold stop. destruct st; simpl; auto.
  - unfold seek, AudioDecoder_seek. destruct dec as [d|]; simpl; [|auto].
    destruct (av_seek_ok t); destruct st; simpl; auto.
  - unfold setVolume. simpl. auto.
Qed.

(** A STOPPED player has nothing in its playback queue: the queue is filled
    by the conversion thread, which does not outlive [stop]. *)
Lemma step_keeps_stopped_idle (s s' : AudioPlayer Seconds) :
  step s s' ->
  (playerState s = STOPPED -> audioQueue s = []) ->
  playerState s' = STOPPED -> audioQueue s' = [].
Proof.
  intros Hstep IH.
  destruct Hstep as [s s' Hc|m dev r ctx ok s s' ctx' Hrun|frame d s Hd Hi
                    |d r d' s Hst Hd Hget|t s Hst|data s s' Hst Hq
                    |data s Hst Hp|data s b s' Hst Hpush
                    |data s b s' Hst Hp Hpush|len s Hdev].
  - destruct (controller_call_queue s s' Hc) as (_ & [Hq|[Hq Hs]]);
      intros Hst'; [exact Hq|]. rewrite Hq. auto.
  - apply loadFile_frame in Hrun. destruct Hrun as (_ & Hq & _).
    intros _. rewrite Hq. unfold stop.
    destruct (playerState s) eqn:St; simpl; auto.
  - simpl. exact IH.
  - simpl. exact IH.
  - simpl. exact IH.
  - apply enqueue_effect in Hq. destruct Hq as [->| ->]; [exact IH|].
    simpl. intros H. contradiction.
  - unfold enqueue_resumed. destruct (negb (isDecodingThreadRunning s));
      [exact IH|]. simpl. intros H. contradiction.
  - apply pushAudioData_effect in Hpush.
    destruct Hpush as [->| ->]; [exact IH|]. simpl. intros H. contradiction.
  - apply pushAudioData_resumed_effect in Hpush.
    destruct Hpush as [->| ->]; [exact IH|]. simpl. intros H. contradiction.
  - destruct (fillAudioBuffer_frame Seconds mix len s) as (q & u & b & E).
    intros Hst'. rewrite E in Hst'. simpl in Hst'.
    unfold fillAudioBuffer. rewrite (IH Hst'). simpl. exact (IH Hst').
Qed.

Lemma reaches_stopped_idle (s : AudioPlayer Seconds) :
  reaches s -> playerState s = STOPPED -> audioQueue s = [].
Proof.
  induction 1 as [|s s' _ IH Hstep]; [reflexivity|].
  eapply step_keeps_stopped_idle; eauto.
Qed.

(** C2, as the code has it.  From every state the player reaches, a
    [stop] that returns leaves the player STOPPED with the playback queue
    empty, and any further [stop] returns at once and changes nothing.
    Called while PLAYING or PAUSED it resets the position to 0, lowers the
    flags, pauses the device and stops the decoder, and leaves the frame
    queue as it is; called on a STOPPED player it returns at its guard and
    leaves every field, the position included, as it was.  The call
    returns whenever the conversion thread is not parked on
    [dataCondition]. *)
Theorem stop_idempotent (th : conversion_thread) (callbacks : list Z)
        (s : AudioPlayer Seconds) :
  reaches s ->
  (forall s',
     stop_call zero_seconds mix th callbacks s = Returns s' ->
     playerState s' = STOPPED
     /\ audioQueue s' = []
     /\ frame_queue s' = frame_queue s
     /\ (forall th' callbacks',
           stop_call zero_seconds mix th' callbacks' s' = Returns s')
     /\ (playerState s <> STOPPED ->
         currentPosition s' = zero_seconds
         /\ isPlaying s' = false /\ isPaused s' = false
         /\ isDecodingThreadRunning s' = false
         /\ devicePaused s' = true
         /\ decoder s' = option_map Decoder.stop (decoder s))
     /\ (playerState s = STOPPED -> s' = s))
  /\ (th <> OnDataCondition ->
      stop_call zero_seconds mix th callbacks s
      = Returns (stop zero_seconds s))
  /\ (playerState s = STOPPED ->
      stop_call zero_seconds mix th callbacks s = Returns s).
Proof.
  intros Hreach.
  split; [|split; [apply stop_call_unparked|apply stop_call_stopped]].
  intros s' Hret.
  destruct (stop_call_returns _ _ _ _ _ _ _ Hret)
    as [[Hst E]|(Hst & u & b & E)]; subst s'.
  - split; [exact Hst|].
    split; [apply (reaches_stopped_idle s Hreach Hst)|].
    split; [reflexivity|].
    split; [intros th' callbacks'; apply stop_call_stopped; exact Hst|].
    split; [intros H; contradiction|reflexivity].
  - split; [reflexivity|]. split; [reflexivity|].
    split.
    { unfold frame_queue. simpl. destruct (decoder s) as [d|]; [|reflexivity].
      simpl. unfold Decoder.stop. destruct (isDecoding d); reflexivity. }
    split; [intros th' callbacks'; apply stop_call_stopped; reflexivity|].
    split; [intros _; repeat split|intros H; contradiction].
Qed.



End Pipeline.

(** ** The states of the examples are reached *)

Lemma loaded_player_reached :
  pipeline_reaches 0 always_seekable Models.SDL_MixAudioFormat loaded_player.
Proof.
  eapply pipeline_next; [apply pipeline_new|].
  apply step_call. apply (call_loadFile 0 always_seekable 0). discriminate.
Qed.

Lemma playing_player_reached :
  pipeline_reaches 0 always_seekable Models.SDL_MixAudioFormat playing_player.
Proof.
  eapply pipeline_next; [apply loaded_player_reached|].
  apply step_call. apply (call_play 0 always_seekable).
Qed.

Lemma playing_with_frame_reached :
  pipeline_reaches 0 always_seekable Models.SDL_MixAudioFormat
                   playing_with_frame.
Proof.
  eapply pipeline_next.
  - eapply pipeline_next; [apply playing_player_reached|].
    apply (step_decoded 0 always_seekable Models.SDL_MixAudioFormat
                        (Models.decode_packet packet1) player_decoder
                        playing_player); reflexivity.
  - apply (step_enqueue 0 always_seekable Models.SDL_MixAudioFormat
                        [1; 2; 3; 4]); [discriminate|reflexivity].
Qed.

Lemma stopped_after_seek_reached :
  pipeline_reaches 0 always_seekable Models.SDL_MixAudioFormat
                   stopped_after_seek.
Proof.
  eapply pipeline_next; [apply loaded_player_reached|].
  apply step_call. apply (call_seek 0 always_seekable).
Qed.

Lemma queue_chunks_reached (n : nat) (s : Player.AudioPlayer Z) :
  pipeline_reaches 0 always_seekable Models.SDL_MixAudioFormat s ->
  Player.playerState s <> Player.STOPPED ->
  Player.playback_size s + Z.of_nat n <= Player.MAX_QUEUE_SIZE ->
  pipeline_reaches 0 always_seekable Models.SDL_MixAudioFormat
                   (queue_chunks n s)
  /\ Player.playerState (queue_chunks n s) = Player.playerState s
  /\ Player.playback_size (queue_chunks n s)
     = Player.playback_size s + Z.of_nat n.
Proof.
  intros Hreach Hst. induction n as [|n IH]; intros Hroom.
  - simpl. split; [exact Hreach|]. split; [reflexivity|lia].
  - destruct IH as (Hr & Hs & Hsize); [lia|].
    change (queue_chunks (S n) s)
      with (Player.enqueue_push [0; 0; 0; 0] (queue_chunks n s)).
    split; [|split].
    + eapply pipeline_next; [exact Hr|].
      apply (step_enqueue 0 always_seekable Models.SDL_MixAudioFormat
                          [0; 0; 0; 0]); [rewrite Hs; exact Hst|].
      unfold Player.processDecodedFrame_enqueue.
      destruct (Player.MAX_QUEUE_SIZE <=? Player.playback_size (queue_chunks n s))
        eqn:E; [apply Z.leb_le in E; lia|reflexivity].
    + simpl. exact Hs.
    + rewrite enqueue_push_size. lia.
Qed.

Lemma paused_full_player_reached :
  pipeline_reaches 0 always_seekable Models.SDL_MixAudioFormat
                   paused_full_player.
Proof.
  apply queue_chunks_reached.
  - eapply pipeline_next; [apply playing_player_reached|].
    apply step_call. apply (call_pause 0 always_seekable).
  - discriminate.
  - vm_compute. discriminate.
Qed.

(** C2, counterexample.  Three reached states on which the claim fails.
    After [play] and one decoded frame, [stop] leaves that frame in the
    frame queue.  On a player that is STOPPED and has been sought to second
    5, [stop] leaves the position at 5.  On a player paused until the
    playback queue is full, the conversion thread is parked on
    [dataCondition] with its next chunk, and [stop] does not return,
    whatever callbacks would be due: the device is paused and nothing else
    notifies. *)
Lemma stop_keeps_frames_and_position_or_hangs :
  (pipeline_reaches 0 always_seekable Models.SDL_MixAudioFormat
                    playing_with_frame
   /\ ~ stop_claim Z 0 Models.SDL_MixAudioFormat Player.InDecodingLoop []
                   playing_with_frame)
  /\ (pipeline_reaches 0 always_seekable Models.SDL_MixAudioFormat
                       stopped_after_seek
      /\ ~ stop_claim Z 0 Models.SDL_MixAudioFormat Player.NotJoinable []
                      stopped_after_seek)
  /\ (pipeline_reaches 0 always_seekable Models.SDL_MixAudioFormat
                       paused_full_player
      /\ Player.playerState paused_full_player = Player.PAUSED
      /\ Player.playback_size paused_full_player = Player.MAX_QUEUE_SIZE
      /\ Player.processDecodedFrame_enqueue [0; 0; 0; 0] paused_full_player
         = Blocks
      /\ forall callbacks,
           Player.stop_call 0 Models.SDL_MixAudioFormat Player.OnDataCondition
                            callbacks paused_full_player = Blocks
           /\ ~ stop_claim Z 0 Models.SDL_MixAudioFormat
                           Player.OnDataCondition callbacks paused_full_player).
Proof.
  split; [|split].
  - split; [apply playing_with_frame_reached|].
    intros (s' & Hret & _ & Hf & _).
    vm_compute in Hret. inversion Hret; subst s'.
    vm_compute in Hf. discriminate Hf.
  - split; [apply stopped_after_seek_reached|].
    intros (s' & Hret & _ & _ & _ & Hp & _).
    vm_compute in Hret. inversion Hret; subst s'.
    vm_compute in Hp. discriminate Hp.
  - split; [apply paused_full_player_reached|].
    split; [reflexivity|]. split; [reflexivity|]. split; [reflexivity|].
    intros callbacks.
    assert (Hb : Player.stop_call 0 Models.SDL_MixAudioFormat
                                  Player.OnDataCondition callbacks
                                  paused_full_player = Blocks).
    { apply stop_call_parked_paused; [discriminate|reflexivity]. }
    split; [exact Hb|].
    intros (s' & Hret & _). rewrite Hb in Hret. discriminate Hret.
Qed.

Lemma stop_idempotent_witness :
  Player.stop_call 0 Models.SDL_MixAudioFormat Player.InDecodingLoop []
                   playing_with_frame
  = Returns (Player.stop 0 playing_with_frame)
  /\ Player.playerState (Player.stop 0 playing_with_frame) = Player.STOPPED
  /\ Player.audioQueue (Player.stop 0 playing_with_frame) = []
  /\ Player.currentPosition (Player.stop 0 playing_with_frame) = 0
  /\ Player.frame_queue (Player.stop 0 playing_with_frame)
     = [Models.decode_packet packet1]
  /\ Player.stop_call 0 Models.SDL_MixAudioFormat Player.NotJoinable []
                      (Player.stop 0 playing_with_frame)
     = Returns (Player.stop 0 playing_with_frame)
  /\ Player.stop_call 0 Models.SDL_MixAudioFormat Player.NotJoinable []
                      stopped_after_seek
     = Returns stopped_after_seek.
Proof.
  destruct (stop_idempotent Z 0 always_seekable Models.SDL_MixAudioFormat
              Player.InDecodingLoop [] playing_with_frame
              playing_with_frame_reached) as (Hsafe & Hret & _).
  destruct (stop_idempotent Z 0 always_seekable Models.SDL_MixAudioFormat
              Player.NotJoinable [] stopped_after_seek
              stopped_after_seek_reached) as (_ & _ & Hguard).
  pose proof (Hret ltac:(discriminate)) as Hcall.
  destruct (Hsafe _ Hcall) as (Hst & Hq & Hf & Hagain & Hrun & _).
  destruct (Hrun ltac:(discriminate)) as (Hpos & _).
  split; [exact Hcall|]. split; [exact Hst|]. split; [exact Hq|].
  split; [exact Hpos|]. split; [rewrite Hf; reflexivity|].
  split; [apply Hagain|]. apply Hguard. reflexivity.
Defined.

(** With data at hand the buffer the specification describes is a
    descending ramp. *)
Example faded_to_silence_of_data :
  faded_to_silence 4 recovering_player = [200; 150; 100; 50].
Proof. reflexivity. Qed.

